(** * kvdb: a shallow embedding of the loader, the storage adapters and the
      query dispatcher, with the properties of its specification.

    The Go sources embedded here are [main.go] (records, [loadFile], the
    query part of [main]), the helpers [reverse] and [copyBytes], the
    adapters [DummyBackend], [BBoltBackend] ([bbolt.go]) and
    [BadgerDBBackend] ([badgerdb.go]), and the second [main.go] of the
    repository, which loads in one loop and runs one query.  Go strings and
    byte slices are byte sequences; runes are 32-bit integers, kept in [Z].
    What the engines, [jsonparser], the file system and the scheduler do is
    data of a run: the calls [EachKey] makes, the outcome of each commit,
    the order in which lines and results arrive. *)

From Stdlib Require Import ZArith List Bool Lia Permutation.
From Stdlib Require Import Strings.Byte Strings.String.
From stdpp Require Import base list.
Import ListNotations.

Local Open Scope Z_scope.

(** ** Bytes and strings *)

Abbreviation byte := Byte.byte.

(** A Go [string] and a Go [[]byte] are both sequences of bytes; the
    conversions [string(b)] and [[]byte(s)] copy the bytes unchanged. *)
Definition gostring := list byte.
Definition bytes := list byte.

Definition Z_of_byte (b : byte) : Z := Z.of_N (Byte.to_N b).

(** The conversion [byte(x)] of an integer keeps its low eight bits. *)
Definition byte_of_Z (z : Z) : byte :=
  match Byte.of_N (Z.to_N (z mod 256)) with
  | Some b => b
  | None => Byte.x00
  end.

(** String literals of the sources, as byte sequences. *)
Definition lit (s : String.string) : gostring := String.list_byte_of_string s.

(** ** UTF-8, as the Go runtime converts between strings and rune slices *)

Definition rune := Z.

Module Utf8.

Definition runeError : rune := 0xFFFD.
Definition runeSelf : Z := 0x80.
Definition maxRune : rune := 0x10FFFF.
Definition surrogateMin : rune := 0xD800.
Definition surrogateMax : rune := 0xDFFF.

Definition t1 : Z := 0x00.
Definition tx : Z := 0x80.
Definition t2 : Z := 0xC0.
Definition t3 : Z := 0xE0.
Definition t4 : Z := 0xF0.
Definition t5 : Z := 0xF8.

Definition maskx : Z := 0x3F.
Definition mask2 : Z := 0x1F.
Definition mask3 : Z := 0x0F.
Definition mask4 : Z := 0x07.

Definition rune1Max : rune := 0x7F.
Definition rune2Max : rune := 0x7FF.
Definition rune3Max : rune := 0xFFFF.

Definition locb : Z := 0x80.
Definition hicb : Z := 0xBF.

(** [locb <= c && c <= hicb]: a continuation byte. *)
Definition cont (c : Z) : bool := (locb <=? c) && (c <=? hicb).

(** [decoderune(s, k)] of the runtime, on the suffix [s[k:]]: the rune
    at the head of [s] and the number of bytes it takes.  A malformed
    sequence gives [(runeError, 1)]. *)
Definition decoderune (s : gostring) : rune * nat :=
  match s with
  | [] => (runeError, 1%nat)
  | b0 :: s1 =>
    let c0 := Z_of_byte b0 in
    if (t2 <=? c0) && (c0 <? t3) then
      match s1 with
      | b1 :: _ =>
        let c1 := Z_of_byte b1 in
        if cont c1 then
          let r := Z.lor (Z.shiftl (Z.land c0 mask2) 6) (Z.land c1 maskx) in
          if rune1Max <? r then (r, 2%nat) else (runeError, 1%nat)
        else (runeError, 1%nat)
      | _ => (runeError, 1%nat)
      end
    else if (t3 <=? c0) && (c0 <? t4) then
      match s1 with
      | b1 :: b2 :: _ =>
        let c1 := Z_of_byte b1 in
        let c2 := Z_of_byte b2 in
        if cont c1 && cont c2 then
          let r := Z.lor (Z.lor (Z.shiftl (Z.land c0 mask3) 12)
                                (Z.shiftl (Z.land c1 maskx) 6))
                         (Z.land c2 maskx) in
          if (rune2Max <? r) && negb ((surrogateMin <=? r) && (r <=? surrogateMax))
          then (r, 3%nat) else (runeError, 1%nat)
        else (runeError, 1%nat)
      | _ => (runeError, 1%nat)
      end
    else if (t4 <=? c0) && (c0 <? t5) then
      match s1 with
      | b1 :: b2 :: b3 :: _ =>
        let c1 := Z_of_byte b1 in
        let c2 := Z_of_byte b2 in
        let c3 := Z_of_byte b3 in
        if cont c1 && cont c2 && cont c3 then
          let r := Z.lor (Z.lor (Z.lor (Z.shiftl (Z.land c0 mask4) 18)
                                       (Z.shiftl (Z.land c1 maskx) 12))
                                (Z.shiftl (Z.land c2 maskx) 6))
                         (Z.land c3 maskx) in
          if (rune3Max <? r) && (r <=? maxRune)
          then (r, 4%nat) else (runeError, 1%nat)
        else (runeError, 1%nat)
      | _ => (runeError, 1%nat)
      end
    else (runeError, 1%nat)
  end.

(** One iteration of [for _, r := range s]: a byte below [runeSelf] is
    its own rune, anything else goes through [decoderune]. *)
Definition rangeStep (s : gostring) : rune * nat :=
  match s with
  | [] => (runeError, 1%nat)
  | b0 :: _ =>
    if Z_of_byte b0 <? runeSelf then (Z_of_byte b0, 1%nat) else decoderune s
  end.

(** [[]rune(s)] ([stringtoslicerune]): the runes of the range loop.  Every
    iteration consumes at least one byte, so [length s] iterations are
    enough. *)
Fixpoint rangeRunes (fuel : nat) (s : gostring) : list rune :=
  match fuel, s with
  | O, _ => []
  | _, [] => []
  | S fuel', _ :: _ =>
    let '(r, w) := rangeStep s in
    r :: rangeRunes fuel' (drop w s)
  end.

Definition stringtoslicerune (s : gostring) : list rune :=
  rangeRunes (length s) s.

(** [encoderune(p, r)]: the bytes written for one rune.  The switch is
    on [uint32(r)]; out-of-range runes and surrogates are written as
    [runeError]. *)
Definition encoderune (r : rune) : bytes :=
  let i := r mod 2^32 in
  if i <=? rune1Max then
    [byte_of_Z r]
  else if i <=? rune2Max then
    [byte_of_Z (Z.lor t2 (Z_of_byte (byte_of_Z (Z.shiftr r 6))));
     byte_of_Z (Z.lor tx (Z.land (Z_of_byte (byte_of_Z r)) maskx))]
  else
    let three (r : rune) :=
      [byte_of_Z (Z.lor t3 (Z_of_byte (byte_of_Z (Z.shiftr r 12))));
       byte_of_Z (Z.lor tx (Z.land (Z_of_byte (byte_of_Z (Z.shiftr r 6))) maskx));
       byte_of_Z (Z.lor tx (Z.land (Z_of_byte (byte_of_Z r)) maskx))] in
    if (maxRune <? i) || ((surrogateMin <=? i) && (i <=? surrogateMax)) then
      three runeError
    else if i <=? rune3Max then
      three r
    else
      [byte_of_Z (Z.lor t4 (Z_of_byte (byte_of_Z (Z.shiftr r 18))));
       byte_of_Z (Z.lor tx (Z.land (Z_of_byte (byte_of_Z (Z.shiftr r 12))) maskx));
       byte_of_Z (Z.lor tx (Z.land (Z_of_byte (byte_of_Z (Z.shiftr r 6))) maskx));
       byte_of_Z (Z.lor tx (Z.land (Z_of_byte (byte_of_Z r)) maskx))].

(** [string(chars)] ([slicerunetostring]). *)
Definition slicerunetostring (a : list rune) : gostring :=
  flat_map encoderune a.

(** A Unicode scalar value: a code point that is not a surrogate. *)
Definition scalar (r : rune) : Prop :=
  0 <= r <= maxRune /\ ~ (surrogateMin <= r <= surrogateMax).

(** Well-formed UTF-8: no step of the range loop meets a malformed
    sequence, which is what [(runeError, 1)] reports (the encoding of
    U+FFFD itself is three bytes wide). *)
Fixpoint validFuel (fuel : nat) (s : gostring) : bool :=
  match fuel, s with
  | O, _ => true
  | _, [] => true
  | S fuel', _ :: _ =>
    let '(r, w) := rangeStep s in
    if (r =? runeError) && (w =? 1)%nat then false
    else validFuel fuel' (drop w s)
  end.

Definition valid (s : gostring) : bool := validFuel (length s) s.

End Utf8.

(** ** [copyBytes] and [reverse] *)

(** [copyBytes]: a fresh slice with the same contents. *)
Definition copyBytes (b : bytes) : bytes := b.

(** [chars[i], chars[j] = chars[j], chars[i]]; [None] is Go's index out of
    range panic. *)
Definition swap {A} (chars : list A) (i j : Z) : option (list A) :=
  if (i <? 0) || (j <? 0) then None else
  match chars !! Z.to_nat i, chars !! Z.to_nat j with
  | Some ci, Some cj => Some (<[Z.to_nat i := cj]> (<[Z.to_nat j := ci]> chars))
  | _, _ => None
  end.

(** The loop [for i, j := 0, len(chars)-1; i < j; i, j = i+1, j-1]. *)
Fixpoint reverseLoop {A} (fuel : nat) (chars : list A) (i j : Z) : option (list A) :=
  match fuel with
  | O => Some chars
  | S fuel' =>
    if i <? j then
      match swap chars i j with
      | Some chars' => reverseLoop fuel' chars' (i + 1) (j - 1)
      | None => None
      end
    else Some chars
  end.

Definition reverseRunes (chars : list rune) : option (list rune) :=
  reverseLoop (length chars) chars 0 (Z.of_nat (length chars) - 1).

(** [reverse(s)]; the loop never leaves the slice ([reverseRunes_rev]
    below), so the second branch stands for a panic that cannot happen. *)
Definition reverse (s : gostring) : gostring :=
  match reverseRunes (Utf8.stringtoslicerune s) with
  | Some chars => Utf8.slicerunetostring chars
  | None => s
  end.

(** ** main.go: records and the backend interface *)

(** [type Record struct { Key string; Value []byte }]. *)
Record KVRecord := mkRecord { Key : gostring; Value : bytes }.

(** A Go [error] value, by its message. *)
Definition error := String.string.

(** A call returns, or it panics and takes the process down, or it never
    comes back. *)
Inductive outcome (A : Type) : Type :=
| Returns (a : A)
| Panics (msg : String.string)
| Blocks.
Arguments Returns {A} a.
Arguments Panics {A} msg.
Arguments Blocks {A}.

(** [len(x)] as a Go [int]. *)
Definition len {A} (x : list A) : Z := Z.of_nat (length x).

(** [type Backend interface { Put; Search; Close }].  The receiver is
    threaded through [Put] and [Close]; [Search] only reads.  The adapters'
    [Put] and [Close] have no panicking path, [Search] has one. *)
Class Backend (B : Type) := {
  Put : B -> list KVRecord -> B * option error;
  Search : B -> gostring -> outcome (list KVRecord * option error);
  Close : B -> B * option error
}.

(** ** The dummy backend *)

Inductive DummyBackend := NewDummyBackend.

#[export] Instance DummyBackend_Backend : Backend DummyBackend := {
  Put b records := (b, None);
  Search b prefix := Returns ([], None);
  Close b := (b, None)
}.

(** ** Ordered key-value pages, common to the engines *)

(** [bytes.Compare]. *)
Fixpoint bytesCompare (a b : bytes) : comparison :=
  match a, b with
  | [], [] => Eq
  | [], _ :: _ => Lt
  | _ :: _, [] => Gt
  | x :: a', y :: b' =>
    match Z_of_byte x ?= Z_of_byte y with
    | Eq => bytesCompare a' b'
    | c => c
    end
  end.

(** [bytes.HasPrefix(s, prefix)]. *)
Fixpoint hasPrefix (s prefix : bytes) : bool :=
  match prefix, s with
  | [], _ => true
  | _ :: _, [] => false
  | p :: prefix', x :: s' => Byte.eqb p x && hasPrefix s' prefix'
  end.

(** Entries in ascending key order; writing a key again replaces it. *)
Fixpoint sortedPut {V} (k : bytes) (v : V) (t : list (bytes * V)) : list (bytes * V) :=
  match t with
  | [] => [(k, v)]
  | (k', v') :: t' =>
    match bytesCompare k k' with
    | Lt => (k, v) :: t
    | Eq => (k, v) :: t'
    | Gt => (k', v') :: sortedPut k v t'
    end
  end.

(** The entries from the first key that is not below [k]. *)
Fixpoint sortedSeek {V} (k : bytes) (t : list (bytes * V)) : list (bytes * V) :=
  match t with
  | [] => []
  | (k', v') :: t' =>
    match bytesCompare k' k with
    | Lt => sortedSeek k t'
    | _ => t
    end
  end.

(** ** bbolt.go *)

(** The part of go.etcd.io/bbolt that the adapter drives: one file with
    at most the bucket named "bucket", transactions that commit or roll
    back as a whole, and the outcome of each commit on the disk. *)
Module bbolt.

Definition MaxKeySize : Z := 32768.
Definition MaxValueSize : Z := 2147483646.
Definition ErrKeyRequired : error := "key required"%string.
Definition ErrKeyTooLarge : error := "key too large"%string.
Definition ErrValueTooLarge : error := "value too large"%string.
Definition ErrDatabaseNotOpen : error := "database not open"%string.

Definition Bucket := list (bytes * bytes).

(** What a transaction sees: the bucket, if it exists. *)
Definition Tx := option Bucket.

Record DB := mkDB {
  opened : bool;
  root : Tx;
  commits : list (option error)  (* what the coming commits will meet *)
}.

(** [bbolt.Open] on a file that did not exist. *)
Definition Open (commits : list (option error)) : DB :=
  {| opened := true; root := None; commits := commits |}.

(** [tx.Bucket(name)]: [nil] when there is no such bucket. *)
Definition TxBucket (tx : Tx) : option Bucket := tx.

(** [tx.CreateBucketIfNotExists(name)] with a non-empty name in a
    writable transaction. *)
Definition CreateBucketIfNotExists (tx : Tx) : Bucket + error :=
  match tx with
  | Some b => inl b
  | None => inl []
  end.

(** [bucket.Put(key, value)]. *)
Definition BucketPut (b : Bucket) (key value : bytes) : Bucket + error :=
  if len key =? 0 then inr ErrKeyRequired
  else if MaxKeySize <? len key then inr ErrKeyTooLarge
  else if MaxValueSize <? len value then inr ErrValueTooLarge
  else inl (sortedPut key value b).

(** [db.Update(fn)]: [fn] runs on the transaction; an error from [fn]
    or from the commit rolls everything back. *)
Definition Update (db : DB) (fn : Tx -> Tx + error) : DB * option error :=
  if negb (opened db) then (db, Some ErrDatabaseNotOpen) else
  match fn (root db) with
  | inr e => (db, Some e)
  | inl tx' =>
    match commits db with
    | Some e :: rest => (mkDB (opened db) (root db) rest, Some e)
    | None :: rest => (mkDB (opened db) tx' rest, None)
    | [] => (mkDB (opened db) tx' [], None)
    end
  end.

(** [db.View(fn)]; [fn] may panic. *)
Definition View {A} (db : DB) (fn : Tx -> outcome (A * option error)) (a0 : A)
  : outcome (A * option error) :=
  if negb (opened db) then Returns (a0, Some ErrDatabaseNotOpen)
  else fn (root db).

Definition DBClose (db : DB) : DB * option error :=
  (mkDB false (root db) (commits db), None).

End bbolt.

Record BBoltBackend := mkBBolt { db : bbolt.DB }.

(** [NewBBoltBackend] on a new file, when [bbolt.Open] succeeds. *)
Definition NewBBoltBackend (commits : list (option error)) : BBoltBackend :=
  mkBBolt (bbolt.Open commits).

(** [for _, r := range records { bucket.Put(...) }], up to the first error. *)
Fixpoint BBolt_putRecords (bucket : bbolt.Bucket) (records : list KVRecord)
  : bbolt.Bucket + error :=
  match records with
  | [] => inl bucket
  | r :: rest =>
    match bbolt.BucketPut bucket (Key r) (Value r) with
    | inr err => inr err
    | inl bucket' => BBolt_putRecords bucket' rest
    end
  end.

Definition BBoltBackend_Put (b : BBoltBackend) (records : list KVRecord)
  : BBoltBackend * option error :=
  let '(db', err) :=
    bbolt.Update (db b) (fun tx =>
      match bbolt.CreateBucketIfNotExists tx with
      | inr err => inr err
      | inl bucket =>
        match BBolt_putRecords bucket records with
        | inr err => inr err
        | inl bucket' => inl (Some bucket')
        end
      end) in
  (mkBBolt db', err).

(** The cursor loop [for k, v := c.Seek(bprefix); k != nil &&
    bytes.HasPrefix(k, bprefix); k, v = c.Next()]. *)
Fixpoint BBolt_scan (bprefix : bytes) (cursor : bbolt.Bucket) (records : list KVRecord)
  : list KVRecord :=
  match cursor with
  | [] => records
  | (k, v) :: next =>
    if hasPrefix k bprefix then BBolt_scan bprefix next (records ++ [mkRecord k v])
    else records
  end.

(** The runtime error of a read through a nil pointer. *)
Definition nilDeref : String.string :=
  "invalid memory address or nil pointer dereference"%string.

(** [tx.Bucket(...).Cursor()] is called on whatever [tx.Bucket] returns;
    on [nil] the method reads through the nil receiver. *)
Definition BBoltBackend_Search (b : BBoltBackend) (prefix : gostring)
  : outcome (list KVRecord * option error) :=
  match
    bbolt.View (db b) (fun tx =>
      match bbolt.TxBucket tx with
      | None => Panics nilDeref
      | Some bucket =>
        Returns (BBolt_scan prefix (sortedSeek prefix bucket) [], None)
      end) []
  with
  | Returns (records, Some err) => Returns ([], Some err)
  | Returns (records, None) => Returns (records, None)
  | Panics msg => Panics msg
  | Blocks => Blocks
  end.

Definition BBoltBackend_Close (b : BBoltBackend) : BBoltBackend * option error :=
  let '(db', err) := bbolt.DBClose (db b) in (mkBBolt db', err).

#[export] Instance BBoltBackend_Backend : Backend BBoltBackend := {
  Put := BBoltBackend_Put;
  Search := BBoltBackend_Search;
  Close := BBoltBackend_Close
}.

(** ** badgerdb.go *)

(** The part of github.com/dgraph-io/badger/v3 that the adapter drives:
    a sorted table of items, write batches, and items whose value the
    store may be unable to read. *)
Module badger.

Definition ErrEmptyKey : error := "Key cannot be empty"%string.
Definition ErrDBClosed : error := "DB Closed"%string.

Record Item := mkItem {
  value : bytes;
  fault : option error   (* what reading the value from the log meets *)
}.

Record DB := mkDB {
  closed : bool;
  table : list (bytes * Item);
  flushes : list (option error)  (* what the coming flushes will meet *)
}.

Definition Open (flushes : list (option error)) : DB :=
  {| closed := false; table := []; flushes := flushes |}.

(** [item.ValueCopy(nil)].  A value that cannot be read from the log is
    no error of [ValueCopy] in badger v3: the read error is written to
    badger's own log and the caller gets an empty value. *)
Definition ValueCopy (it : Item) : bytes + error :=
  match fault it with
  | Some _ => inl []
  | None => inl (value it)
  end.

(** A write batch: the entries set so far. *)
Definition WriteBatch := list (bytes * bytes).

(** [wb.Set(key, value)]. *)
Definition Set_ (wb : WriteBatch) (key value : bytes) : WriteBatch + error :=
  if len key =? 0 then inr ErrEmptyKey else inl (wb ++ [(key, value)]).

(** [wb.Flush()]. *)
Definition Flush (db : DB) (wb : WriteBatch) : DB * option error :=
  if closed db then (db, Some ErrDBClosed) else
  let written :=
    fold_left (fun t kv => sortedPut (fst kv) (mkItem (snd kv) None) t) wb (table db) in
  match flushes db with
  | Some err :: rest => (mkDB (closed db) (table db) rest, Some err)
  | None :: rest => (mkDB (closed db) written rest, None)
  | [] => (mkDB (closed db) written [], None)
  end.

Definition DBClose (db : DB) : DB * option error :=
  (mkDB true (table db) (flushes db), None).

End badger.

Record BadgerDBBackend := mkBadger { bdb : badger.DB }.

Definition NewBadgerDBBackend (flushes : list (option error)) : BadgerDBBackend :=
  mkBadger (badger.Open flushes).

Definition BadgerDBBackend_Close (b : BadgerDBBackend) : BadgerDBBackend * option error :=
  let '(db', err) := badger.DBClose (bdb b) in (mkBadger db', err).

Fixpoint Badger_setRecords (wb : badger.WriteBatch) (records : list KVRecord)
  : badger.WriteBatch + error :=
  match records with
  | [] => inl wb
  | r :: rest =>
    match badger.Set_ wb (Key r) (Value r) with
    | inr err => inr err
    | inl wb' => Badger_setRecords wb' rest
    end
  end.

Definition BadgerDBBackend_Put (b : BadgerDBBackend) (records : list KVRecord)
  : BadgerDBBackend * option error :=
  match Badger_setRecords [] records with
  | inr err => (b, Some err)
  | inl wb => let '(db', err) := badger.Flush (bdb b) wb in (mkBadger db', err)
  end.

(** The iterator loop of [Search]: [records] as it stands when the
    function given to [db.View] returns, and what that function returns. *)
Fixpoint Badger_iterate (bprefix : bytes) (it : list (bytes * badger.Item))
  (records : list KVRecord) : list KVRecord * option error :=
  match it with
  | [] => (records, None)
  | (key, item) :: next =>
    if hasPrefix key bprefix then
      match badger.ValueCopy item with
      | inr err => (records, Some err)
      | inl value => Badger_iterate bprefix next (records ++ [mkRecord key value])
      end
    else (records, None)
  end.

(** [b.db.View(func ...)]: the variable [records] afterwards, and the
    error of [View]. *)
Definition Badger_view (b : BadgerDBBackend) (prefix : gostring)
  : list KVRecord * option error :=
  if badger.closed (bdb b) then ([], Some badger.ErrDBClosed)
  else Badger_iterate prefix (sortedSeek prefix (badger.table (bdb b))) [].

(** The result of [View] is not assigned; [return records, nil]. *)
Definition BadgerDBBackend_Search (b : BadgerDBBackend) (prefix : gostring)
  : outcome (list KVRecord * option error) :=
  let '(records, _) := Badger_view b prefix in
  Returns (records, None).

#[export] Instance BadgerDBBackend_Backend : Backend BadgerDBBackend := {
  Put := BadgerDBBackend_Put;
  Search := BadgerDBBackend_Search;
  Close := BadgerDBBackend_Close
}.

(** ** main.go: [loadFile] *)

(** The lines written by [log.Printf], without times and rates. *)
Inductive LogMsg :=
| LogParseError (idx : Z) (err : error)   (* parse index %d error: %v *)
| LogStart                                (* Start loading file *)
| LogPutFailed (err : error)              (* Failed to put records: %v *)
| LogProgress (cnt : Z)                   (* Put %d records in ... *)
| LogLoaded (total : Z)                   (* Loaded %d records in ... *)
| LogSearchFailed (query : gostring) (err : error) (* Failed to search '%s': %v *)
| LogFatal (err : error)                  (* log.Fatal(err) *)
| LogComplete.                            (* Load complete in ... *)

(** One call of the function handed to [jsonparser.EachKey]. *)
Record EachKeyCall := mkCall {
  idx : Z;
  val : bytes;
  cbErr : option error
}.

Definition parsersCount : nat := 12.
Definition writersCount : nat := 4.

(** What the operating system, gzip and the scanner deliver. *)
Record InputFile := mkInput {
  openErr : option error;    (* os.Open *)
  gzipErr : option error;    (* gzip.NewReader *)
  scanned : list bytes;      (* the tokens of scanner.Scan, in order *)
  scanErr : option error     (* scanner.Err() *)
}.

Section Loader.

(** [jsonparser.EachKey(data, cb, {"name"}, {"value"})]: the calls it
    makes to [cb] on a line, in order. *)
Variable EachKey : bytes -> list EachKeyCall.

Context {B : Type} `{Backend B}.

(** The callback of a parser: [key], [value] and the log after a call. *)
Definition onKey (st : bytes * bytes * list LogMsg) (c : EachKeyCall)
  : bytes * bytes * list LogMsg :=
  let '(key, value, logs) := st in
  match cbErr c with
  | Some err => (key, value, logs ++ [LogParseError (idx c) err])
  | None =>
    if idx c =? 0 then (val c, value, logs)
    else if idx c =? 1 then (key, val c, logs)
    else (key, value, logs)
  end.

(** [key] and [value] once [EachKey] is through with a line. *)
Definition fields (data : bytes) : bytes * bytes * list LogMsg :=
  fold_left onKey (EachKey data) ([], [], []).

(** The body of a parser's loop: the record sent on [writerCh], if any. *)
Definition parseLine (data : bytes) : option KVRecord * list LogMsg :=
  let '(key, value, logs) := fields data in
  if (0 <? len key) && (0 <? len value) then
    (Some {| Key := reverse key; Value := copyBytes value |}, logs)
  else (None, logs).

(** The writers, the counter, the log, the backend, and the argument of
    every call of [Put] so far. *)
Record LoadState := mkLoad {
  backend : B;
  buffers : list (list KVRecord);
  totalRecords : Z;
  logs : list LogMsg;
  putCalls : list (list KVRecord)
}.

(** [if err := backend.Put(records); err != nil { log.Printf(...) }]. *)
Definition callPut (st : LoadState) (records : list KVRecord) : LoadState :=
  let '(b', err) := Put (backend st) records in
  {| backend := b';
     buffers := buffers st;
     totalRecords := totalRecords st;
     logs := match err with
             | Some e => logs st ++ [LogPutFailed e]
             | None => logs st
             end;
     putCalls := putCalls st ++ [records] |}.

Definition setBuffer (w : nat) (records : list KVRecord) (st : LoadState) : LoadState :=
  {| backend := backend st;
     buffers := <[w := records]> (buffers st);
     totalRecords := totalRecords st;
     logs := logs st;
     putCalls := putCalls st |}.

(** [atomic.AddInt64(&totalRecords, 1)] and the progress line. *)
Definition countRecord (st : LoadState) : LoadState :=
  let cnt := totalRecords st + 1 in
  {| backend := backend st;
     buffers := buffers st;
     totalRecords := cnt;
     logs := if Z.rem cnt 1000000 =? 0 then logs st ++ [LogProgress cnt] else logs st;
     putCalls := putCalls st |}.

(** One turn of writer [w]'s loop [for r := range writerCh].  A turn is
    taken as one step; runs of the program differ from runs of the model
    only in the order in which calls of different writers reach the
    backend, the log and the counter: between a call of [Put] and its
    log line another writer's line can come, so the log of the model
    stands for the lines written, not for their order across writers.
    There are [writersCount] writers: a [w] beyond them receives
    nothing. *)
Definition writerReceive (batchSize : Z) (w : nat) (r : KVRecord) (st : LoadState)
  : LoadState :=
  match buffers st !! w with
  | None => st
  | Some records =>
    let records := records ++ [r] in
    countRecord
      (if len records =? batchSize
       then setBuffer w [] (callPut st records)
       else setBuffer w records st)
  end.

(** After [close(writerCh)]: [if len(records) > 0 { backend.Put(records) }]
    in every writer, which then ends. *)
Definition writerDrain (st : LoadState) (records : list KVRecord) : LoadState :=
  if 0 <? len records then callPut st records else st.

Definition drainWriters (st : LoadState) : LoadState :=
  let st' := fold_left writerDrain (buffers st) st in
  {| backend := backend st';
     buffers := [];
     totalRecords := totalRecords st';
     logs := logs st';
     putCalls := putCalls st' |}.

(** A parser takes a line and, if it makes a record of it, writer [w]
    receives the record. *)
Definition parseAndSend (batchSize : Z) (st : LoadState) (a : bytes * nat) : LoadState :=
  let '(r, plogs) := parseLine (fst a) in
  let st1 := {| backend := backend st;
                buffers := buffers st;
                totalRecords := totalRecords st;
                logs := logs st ++ plogs;
                putCalls := putCalls st |} in
  match r with
  | Some r => writerReceive batchSize (snd a) r st1
  | None => st1
  end.

Definition idle (b : B) : LoadState :=
  {| backend := b; buffers := []; totalRecords := 0; logs := []; putCalls := [] |}.

Definition started (b : B) : LoadState :=
  {| backend := b; buffers := replicate writersCount [];
     totalRecords := 0; logs := [LogStart]; putCalls := [] |}.

Definition finished (st : LoadState) : LoadState :=
  {| backend := backend st; buffers := buffers st;
     totalRecords := totalRecords st;
     logs := logs st ++ [LogLoaded (totalRecords st)];
     putCalls := putCalls st |}.

(** [loadFile(backend, filename, batchSize)].  [arrivals] is the run:
    the scanned lines in the order in which the parsers get through
    them, each with the writer that takes its record. *)
Definition loadFile (b : B) (file : InputFile) (batchSize : Z)
  (arrivals : list (bytes * nat)) : outcome (LoadState * option error) :=
  match openErr file with
  | Some err => Returns (idle b, Some err)
  | None =>
    match gzipErr file with
    | Some err => Returns (idle b, Some err)
    | None =>
      (* make([]Record, 0, batchSize) in a writer *)
      if batchSize <? 0 then Panics "makeslice: cap out of range" else
      let st := fold_left (parseAndSend batchSize) arrivals (started b) in
      Returns (finished (drainWriters st), scanErr file)
    end
  end.

(** A run of [loadFile] on [file]: every scanned line is parsed once and
    every record goes to one of the writers. *)
Definition runOf (file : InputFile) (arrivals : list (bytes * nat)) : Prop :=
  Permutation (map fst arrivals) (scanned file) /\
  Forall (fun a => (snd a < writersCount)%nat) arrivals.

End Loader.

(** ** main.go: the query part of [main] *)

(** [strings.Split(s, ",")]; [cur] is the piece being read. *)
Fixpoint splitComma (s cur : gostring) : list gostring :=
  match s with
  | [] => [cur]
  | c :: s' =>
    if Byte.eqb c Byte.x2c then cur :: splitComma s' []
    else splitComma s' (cur ++ [c])
  end.

(** [queryTerms]: the non-empty pieces of the [-q] flag. *)
Definition queryTermsOf (query : gostring) : list gostring :=
  filter (fun q => 0 < len q) (splitComma query []).

(** [unicode.IsSpace]. *)
Definition isSpace (r : rune) : bool :=
  ((0x09 <=? r) && (r <=? 0x0D)) || (r =? 0x20) || (r =? 0x85) || (r =? 0xA0)
  || (r =? 0x1680) || ((0x2000 <=? r) && (r <=? 0x200A))
  || (r =? 0x2028) || (r =? 0x2029) || (r =? 0x202F) || (r =? 0x205F)
  || (r =? 0x3000).

(** [utf8.DecodeRuneInString]. *)
Definition DecodeRuneInString (s : gostring) : rune * nat :=
  match s with
  | [] => (Utf8.runeError, 0%nat)
  | _ :: _ => Utf8.rangeStep s
  end.

(** [utf8.RuneStart(b)]: not a continuation byte. *)
Definition RuneStart (b : byte) : bool :=
  negb (Z.land (Z_of_byte b) 0xC0 =? 0x80).

(** The search [for start--; start >= lim; start--] of
    [utf8.DecodeLastRuneInString] for the start of the last rune. *)
Fixpoint lastRuneStart (fuel : nat) (s : gostring) (start lim : Z) : Z :=
  match fuel with
  | O => start
  | S fuel' =>
    if start <? lim then start else
    match s !! Z.to_nat start with
    | Some b => if RuneStart b then start else lastRuneStart fuel' s (start - 1) lim
    | None => start
    end
  end.

(** [utf8.DecodeLastRuneInString]. *)
Definition DecodeLastRuneInString (s : gostring) : rune * nat :=
  let end_ := len s in
  match last s with
  | None => (Utf8.runeError, 0%nat)
  | Some b =>
    if Z_of_byte b <? Utf8.runeSelf then (Z_of_byte b, 1%nat) else
    let lim := Z.max 0 (end_ - 4) in
    let start := lastRuneStart 4 s (end_ - 2) lim in
    let start := Z.max 0 start in
    let '(r, size) := DecodeRuneInString (drop (Z.to_nat start) s) in
    if start + Z.of_nat size =? end_ then (r, size) else (Utf8.runeError, 1%nat)
  end.

(** [strings.TrimLeftFunc(s, unicode.IsSpace)]. *)
Fixpoint trimLeftSpace (fuel : nat) (s : gostring) : gostring :=
  match fuel, s with
  | O, _ => s
  | _, [] => []
  | S fuel', _ :: _ =>
    let '(r, w) := Utf8.rangeStep s in
    if isSpace r then trimLeftSpace fuel' (drop w s) else s
  end.

(** [strings.TrimRightFunc(s, unicode.IsSpace)]. *)
Fixpoint trimRightSpace (fuel : nat) (s : gostring) : gostring :=
  match fuel, s with
  | O, _ => s
  | _, [] => []
  | S fuel', _ :: _ =>
    let '(r, size) := DecodeLastRuneInString s in
    if isSpace r then trimRightSpace fuel' (take (length s - size) s) else s
  end.

(** [strings.TrimSpace]: [TrimFunc(s, unicode.IsSpace)]; its fast path
    over ASCII bytes gives the same string. *)
Definition TrimSpace (s : gostring) : gostring :=
  let s := trimLeftSpace (length s) s in
  trimRightSpace (length s) s.

Module JSONLine.
(** [type JSONLine struct { Query, Key, Value string }]. *)
Record t := mk { Query : gostring; Key : gostring; Value : gostring }.
End JSONLine.

(** A line on standard output: [fmt.Printf("%s: %s\n", key, value)],
    which writes the bytes of [key] and [value] as they are, or
    [fmt.Println] of the JSON text of a [JSONLine].  [json.Marshal] has
    no failing case on a struct of three strings, so the line is kept as
    the struct it is made from: [Json] holds the fields handed to
    [json.Marshal], not the text it makes of them (which has U+FFFD for
    a malformed byte and escapes for [<], [>] and [&]). *)
Inductive OutLine :=
| Plain (key value : gostring)
| Json (line : JSONLine.t).

Record queryResult := mkResult {
  query : gostring;
  records : list KVRecord;
  err : option error
}.

(** The order in which the pooled workers hand their results to the
    collector ([order], by position in [queryTerms]), and whether the
    collector's last [append] is done when [main] reads [results]: the
    two are not synchronised. *)
Record QuerySchedule := mkSchedule {
  order : list nat;
  lastSeen : bool
}.

Section Query.

Context {B : Type} `{Backend B}.

(** [for _, q := range queryTerms { ...; results = append(results, ...) }]. *)
Fixpoint searchEach (b : B) (terms : list gostring) (results : list queryResult)
  : outcome (list queryResult) :=
  match terms with
  | [] => Returns results
  | q :: rest =>
    match Search b (reverse q) with
    | Returns (records, err) =>
      searchEach b rest (results ++ [mkResult q records err])
    | Panics msg => Panics msg
    | Blocks => Blocks
    end
  end.

(** [concurrency]: [queryConcurrency], lowered to the number of terms. *)
Definition concurrencyOf (queryConcurrency : Z) (queryTerms : list gostring) : Z :=
  let l := len queryTerms in
  if l <? queryConcurrency then l else queryConcurrency.

(** [results] when the print loop starts. *)
Definition searchTerms (b : B) (concurrency : Z) (queryTerms : list gostring)
  (sched : QuerySchedule) : outcome (list queryResult) :=
  if concurrency =? 1 then searchEach b queryTerms []
  else if concurrency <=? 0 then
    (* no worker: the first send on queryCh never completes *)
    Blocks
  else
    match searchEach b (omap (fun i => queryTerms !! i) (order sched)) [] with
    | Returns collected =>
      Returns (if lastSeen sched then collected else removelast collected)
    | Panics msg => Panics msg
    | Blocks => Blocks
    end.

(** The body of [for _, r := range res.records]. *)
Definition printRecord (jsonFmt : bool) (q : gostring) (r : KVRecord) : OutLine :=
  let key := reverse (Key r) in
  if negb jsonFmt then Plain key (TrimSpace (Value r))
  else Json (JSONLine.mk q key (Value r)).

(** [for _, res := range results]: standard output and the log. *)
Fixpoint printResults (jsonFmt : bool) (results : list queryResult)
  (out : list OutLine) (log : list LogMsg) : list OutLine * list LogMsg :=
  match results with
  | [] => (out, log)
  | res :: rest =>
    match err res with
    | Some e => printResults jsonFmt rest out (log ++ [LogSearchFailed (query res) e])
    | None =>
      printResults jsonFmt rest
        (fold_left (fun out r => out ++ [printRecord jsonFmt (query res) r])
                   (records res) out)
        log
    end
  end.

(** How the process ends, with what it has written. *)
Record ProcessRun := mkRun {
  status : outcome Z;        (* the exit status, when the process exits *)
  stdout : list OutLine;
  stderr : list LogMsg
}.

(** [main] from [queryParts := strings.Split(query, ",")] to its end. *)
Definition runQueries (b : B) (query : gostring) (queryConcurrency : Z)
  (jsonFmt : bool) (sched : QuerySchedule) : ProcessRun :=
  let queryTerms := queryTermsOf query in
  if 0 <? len queryTerms then
    let concurrency := concurrencyOf queryConcurrency queryTerms in
    match searchTerms b concurrency queryTerms sched with
    | Returns results =>
      let '(out, log) := printResults jsonFmt results [] [] in
      mkRun (Returns 0) out log
    | Panics msg => mkRun (Panics msg) [] []
    | Blocks => mkRun Blocks [] []
    end
  else mkRun (Returns 0) [] [].

End Query.

(** The pool hands every term to a worker once: [order] runs through
    the positions of [queryTerms]. *)
Definition poolOrder (queryTerms : list gostring) (sched : QuerySchedule) : Prop :=
  order sched ≡ₚ seq 0 (length queryTerms).

(** The flags of [main] that matter once the backend is open. *)
Record Flags := mkFlags {
  inputFilename : gostring;
  queryFlag : gostring;
  queryConcurrency : Z;
  batchSize : Z;
  jsonFmt : bool
}.

(** [main] once the backend is open: the load, if an input file is
    named, then the queries.  [log.Fatal] ends the process with status 1.
    The deferred [backend.Close()] is left out: nothing is written after
    it. *)
Definition mainFrom {B} `{Backend B} (EachKey : bytes -> list EachKeyCall) (b : B)
  (flags : Flags) (file : InputFile) (arrivals : list (bytes * nat))
  (sched : QuerySchedule) : ProcessRun :=
  let loaded :=
    if 0 <? len (inputFilename flags)
    then loadFile EachKey b file (batchSize flags) arrivals
    else Returns (idle b, None) in
  match loaded with
  | Returns (st, Some err) => mkRun (Returns 1) [] (logs st ++ [LogFatal err])
  | Returns (st, None) =>
    let run := runQueries (backend st) (queryFlag flags) (queryConcurrency flags)
                          (jsonFmt flags) sched in
    mkRun (status run) (stdout run) (logs st ++ stderr run)
  | Panics msg => mkRun (Panics msg) [] []
  | Blocks => mkRun Blocks [] []
  end.

(** ** The second [main.go] (one loop, one query) *)

(** The [main.go] without worker pools: [loadFile] reads, parses, batches
    and writes in one loop and stops at the first error; [main] runs one
    query and stops when it fails. *)
Module Sequential.

(** [fmt.Errorf("multiple errors: %v", errs)]. *)
Definition multipleErrors (errs : list error) : error :=
  String.append "multiple errors: ["
    (String.append (String.concat " " errs) "]").

Section Loader.

Variable EachKey : bytes -> list EachKeyCall.
Context {B : Type} `{Backend B}.

(** The callback: [key], [value] and [errs] after a call. *)
Definition onKey (st : bytes * bytes * list error) (c : EachKeyCall)
  : bytes * bytes * list error :=
  let '(key, value, errs) := st in
  match cbErr c with
  | Some err => (key, value, errs ++ [err])
  | None =>
    if idx c =? 0 then (val c, value, errs)
    else if idx c =? 1 then (key, val c, errs)
    else (key, value, errs)
  end.

Record LoadState := mkLoad {
  backend : B;
  records : list KVRecord;
  i : Z;
  logs : list LogMsg;
  putCalls : list (list KVRecord)
}.

(** One turn of [for scanner.Scan()]: the state to go on with, or the
    state and the error that [loadFile] returns. *)
Definition scanStep (batchSize : Z) (st : LoadState) (data : bytes)
  : LoadState + LoadState * error :=
  let '(key, value, errs) := fold_left onKey (EachKey data) ([], [], []) in
  match errs with
  | _ :: _ => inr (st, multipleErrors errs)
  | [] =>
    let records := records st ++ [mkRecord (reverse key) (copyBytes value)] in
    let i := i st + 1 in
    let progress (l : list LogMsg) :=
      if Z.rem i 1000000 =? 0 then l ++ [LogProgress i] else l in
    if len records =? batchSize then
      match Put (backend st) records with
      | (b', Some err) =>
        inr (mkLoad b' records i (logs st) (putCalls st ++ [records]), err)
      | (b', None) =>
        inl (mkLoad b' [] i (progress (logs st)) (putCalls st ++ [records]))
      end
    else inl (mkLoad (backend st) records i (progress (logs st)) (putCalls st))
  end.

Fixpoint scanLoop (batchSize : Z) (lines : list bytes) (st : LoadState)
  : LoadState + LoadState * error :=
  match lines with
  | [] => inl st
  | data :: rest =>
    match scanStep batchSize st data with
    | inl st' => scanLoop batchSize rest st'
    | inr stop => inr stop
    end
  end.

Definition loadFile (b : B) (file : InputFile) (batchSize : Z)
  : outcome (LoadState * option error) :=
  match openErr file with
  | Some err => Returns (mkLoad b [] 0 [] [], Some err)
  | None =>
    match gzipErr file with
    | Some err => Returns (mkLoad b [] 0 [] [], Some err)
    | None =>
      if batchSize <? 0 then Panics "makeslice: cap out of range" else
      match scanLoop batchSize (scanned file) (mkLoad b [] 0 [LogStart] []) with
      | inr (st, err) => Returns (st, Some err)
      | inl st =>
        if 0 <? len (records st) then
          match Put (backend st) (records st) with
          | (b', Some err) =>
            Returns (mkLoad b' (records st) (i st) (logs st)
                            (putCalls st ++ [records st]), Some err)
          | (b', None) =>
            Returns (mkLoad b' (records st) (i st) (logs st ++ [LogComplete])
                            (putCalls st ++ [records st]), scanErr file)
          end
        else
          Returns (mkLoad (backend st) (records st) (i st) (logs st ++ [LogComplete])
                          (putCalls st), scanErr file)
      end
    end
  end.

(** [if query != "" { ... }]: one search; [log.Fatalf] when it fails. *)
Definition runQuery (b : B) (query : gostring) : ProcessRun :=
  if 0 <? len query then
    match Search b (reverse query) with
    | Returns (_, Some err) => mkRun (Returns 1) [] [LogFatal err]
    | Returns (records, None) =>
      mkRun (Returns 0)
            (map (fun r => Plain (reverse (Key r)) (TrimSpace (Value r))) records) []
    | Panics msg => mkRun (Panics msg) [] []
    | Blocks => mkRun Blocks [] []
    end
  else mkRun (Returns 0) [] [].

End Loader.

End Sequential.

(** ** Sequences of calls and sample stores *)

(** [Put] called on each batch in turn: the backend afterwards and what
    each call returned. *)
Fixpoint putEach {B} `{Backend B} (b : B) (batches : list (list KVRecord))
  : B * list (option error) :=
  match batches with
  | [] => (b, [])
  | records :: rest =>
    let '(b1, err) := Put b records in
    let '(b2, errs) := putEach b1 rest in
    (b2, err :: errs)
  end.

(** The record [Search] makes of a badger item whose value can be read. *)
Definition Badger_recordOf (kv : bytes * badger.Item) : KVRecord :=
  mkRecord (fst kv) (badger.value (snd kv)).


(** ** The query part, result by result *)

(** The lines of one result: none when the search failed. *)
Definition resultLines (jsonFmt : bool) (res : queryResult) : list OutLine :=
  match err res with
  | Some _ => []
  | None => map (printRecord jsonFmt (query res)) (records res)
  end.

(** The log of one result: one line when the search failed. *)
Definition failureLog (res : queryResult) : list LogMsg :=
  match err res with
  | Some e => [LogSearchFailed (query res) e]
  | None => []
  end.

(** [res] is what [Search] returns on term [q]. *)
Definition answers {B} `{Backend B} (b : B) (q : gostring) (res : queryResult) : Prop :=
  Search b (reverse q) = Returns (records res, err res) /\ query res = q.

(** A backend whose [Search] fails on one prefix and finds one record
    under every other. *)
Record FlakyBackend := mkFlaky { failsOn : gostring }.

#[export] Instance FlakyBackend_Backend : Backend FlakyBackend := {
  Put b records := (b, None);
  Search b prefix :=
    match bytesCompare prefix (failsOn b) with
    | Eq => Returns ([], Some "i/o timeout"%string)
    | _ => Returns ([mkRecord prefix (lit " 1.2.3.4 ")], None)
    end;
  Close b := (b, None)
}.

Definition flaky : FlakyBackend := mkFlaky (lit "b").

Definition abcResults : list queryResult :=
  [mkResult (lit "a") [mkRecord (lit "a") (lit " 1.2.3.4 ")] None;
   mkResult (lit "b") [] (Some "i/o timeout"%string);
   mkResult (lit "c") [mkRecord (lit "c") (lit " 1.2.3.4 ")] None].

(** A bbolt store holding one value with blanks around it. *)
Definition spacedStore : BBoltBackend :=
  fst (Put (NewBBoltBackend [])
           [mkRecord (reverse (lit "sub.example.com")) (lit " 1.2.3.4 ")]).

(** ** Runs of the loader *)

(** The records that reach [writerCh] in a run, in order, each with its
    writer. *)
Definition sent (EachKey : bytes -> list EachKeyCall) (arrivals : list (bytes * nat))
  : list (nat * KVRecord) :=
  omap (fun a => match fst (parseLine EachKey (fst a)) with
                 | Some r => Some (snd a, r)
                 | None => None
                 end) arrivals.

(** The records accepted by the batch-and-write stage. *)
Definition accepted (EachKey : bytes -> list EachKeyCall) (arrivals : list (bytes * nat))
  : list KVRecord :=
  map snd (sent EachKey arrivals).

(** The state of [loadFile] when the parsers have got through
    [arrivals] and the channels are still open. *)
Definition running {B} `{Backend B} (EachKey : bytes -> list EachKeyCall)
  (b : B) (batchSize : Z) (arrivals : list (bytes * nat)) : LoadState :=
  fold_left (parseAndSend EachKey batchSize) arrivals (started b).

(** A record with a key and a value. *)
Definition nonempty (r : KVRecord) : Prop := Key r <> [] /\ Value r <> [].

(** The records the extraction stage makes of the lines of a file. *)
Definition extracted (EachKey : bytes -> list EachKeyCall) (lines : list bytes)
  : list KVRecord :=
  omap (fun data => fst (parseLine EachKey data)) lines.

(** An invariant of a backend under which no stored value is empty:
    [Put] of records with values keeps it, and [Search] then finds no
    record with an empty value. *)
Definition keepsValues {B} `{Backend B} (I : B -> Prop) : Prop :=
  (forall b records, I b -> Forall nonempty records -> I (fst (Put b records))) /\
  (forall b prefix found e,
      I b -> Search b prefix = Returns (found, e) ->
      Forall (fun r => Value r <> []) found).

(** No value in the bucket of a bbolt file is empty. *)
Definition BBolt_noEmptyValue (b : BBoltBackend) : Prop :=
  forall bucket, bbolt.root (db b) = Some bucket ->
                 Forall (fun kv => snd kv <> []) bucket.

(** No value in the table of a badger store is empty, and every one of
    them can be read. *)
Definition Badger_noEmptyValue (b : BadgerDBBackend) : Prop :=
  Forall (fun kv => badger.value (snd kv) <> [] /\ badger.fault (snd kv) = None)
         (badger.table (bdb b)).

(** [ceil(n / b)] for a positive [b]. *)
Definition ceilDiv (n b : Z) : Z := (n + b - 1) / b.

(** A stand-in for [jsonparser.EachKey] on lines of the form
    [name value]: the name is what comes before the first blank, the
    value what comes after it; a line without a blank has no value. *)
Fixpoint nameValue (data name : bytes) : list EachKeyCall :=
  match data with
  | [] => [mkCall 0 name None]
  | c :: rest =>
    if Byte.eqb c Byte.x20 then [mkCall 0 name None; mkCall 1 rest None]
    else nameValue rest (name ++ [c])
  end.

Definition sampleEachKey (data : bytes) : list EachKeyCall := nameValue data [].

Definition sampleFile : InputFile :=
  mkInput None None
    [lit "sub.example.com 1.2.3.4"; lit "novalue.example.com";
     lit "sub.example.org 5.6.7.8"; lit "empty.example.net ";
     lit "www.example.com 9.9.9.9"] None.

Definition sampleArrivals : list (bytes * nat) :=
  [(lit "novalue.example.com", 3%nat); (lit "sub.example.com 1.2.3.4", 0%nat);
   (lit "www.example.com 9.9.9.9", 1%nat); (lit "empty.example.net ", 2%nat);
   (lit "sub.example.org 5.6.7.8", 0%nat)].

Definition twoLines : InputFile :=
  mkInput None None [lit "a.com 1"; lit "b.com 2"] None.

Definition twoArrivals : list (bytes * nat) :=
  [(lit "a.com 1", 0%nat); (lit "b.com 2", 1%nat)].

(** ** Sorted stores *)

(** Keys in strictly ascending byte order: the order a bbolt cursor and a
    badger iterator walk in. *)
Fixpoint ascending {V} (t : list (bytes * V)) : Prop :=
  match t with
  | [] => True
  | (k, _) :: t' =>
    Forall (fun kv => bytesCompare k (fst kv) = Lt) t' /\ ascending t'
  end.

(** The entries whose key starts with [prefix], in the order of [t]. *)
Definition withPrefix {V} (prefix : bytes) (t : list (bytes * V)) : list (bytes * V) :=
  List.filter (fun kv => hasPrefix (fst kv) prefix) t.

(** The record [Search] makes of a bbolt entry. *)
Definition BBolt_recordOf (kv : bytes * bytes) : KVRecord :=
  mkRecord (fst kv) (snd kv).

(** The bucket of a bbolt file, when there is one, is in ascending key
    order. *)
Definition BBolt_ascending (b : BBoltBackend) : Prop :=
  forall bucket, bbolt.root (db b) = Some bucket -> ascending bucket.

(** The table of a badger store is in ascending key order and every
    value in it can be read. *)
Definition Badger_sound (b : BadgerDBBackend) : Prop :=
  ascending (badger.table (bdb b)) /\
  Forall (fun kv => badger.fault (snd kv) = None) (badger.table (bdb b)).

(** The entry a backend writes for a record. *)
Definition entryOf (r : KVRecord) : bytes * bytes := (Key r, Value r).

(** ** The LevelDB adapter *)

(** The part of github.com/syndtr/goleveldb that the adapter drives: a
    sorted table, batches written as a whole, and iterators over a key
    range that stop at an entry they cannot read. *)
Module leveldb.

Definition ErrClosed : error := "leveldb: closed"%string.

Record Entry := mkEntry {
  value : bytes;
  fault : option error   (* what reading the entry from the table meets *)
}.

Record DB := mkDB {
  closed : bool;
  table : list (bytes * Entry);
  writes : list (option error)  (* what the coming writes will meet *)
}.

(** [leveldb.OpenFile] on a directory that did not exist. *)
Definition OpenFile (writes : list (option error)) : DB :=
  {| closed := false; table := []; writes := writes |}.

(** A [leveldb.Batch]: the records put so far. *)
Definition Batch := list (bytes * bytes).

(** [batch.Put(key, value)]. *)
Definition BatchPut (batch : Batch) (key value : bytes) : Batch :=
  batch ++ [(key, value)].

(** [db.Write(batch, nil)]: nothing to do for an empty batch. *)
Definition Write (db : DB) (batch : Batch) : DB * option error :=
  if closed db then (db, Some ErrClosed)
  else if len batch =? 0 then (db, None)
  else
    let written :=
      fold_left (fun t kv => sortedPut (fst kv) (mkEntry (snd kv) None) t)
                batch (table db) in
    match writes db with
    | Some err :: rest => (mkDB (closed db) (table db) rest, Some err)
    | None :: rest => (mkDB (closed db) written rest, None)
    | [] => (mkDB (closed db) written [], None)
    end.

(** [util.Range]: keys from [Start] up to, not including, [Limit]; no
    [Limit] is no upper bound. *)
Record Range := mkRange { Start : bytes; Limit : option bytes }.

(** The loop of [util.BytesPrefix]: [for i := len(prefix)-1; i >= 0; i--]
    looks for the last byte below 0xff; the limit is the prefix up to
    that byte, with the byte raised by one. *)
Fixpoint prefixLimit (fuel : nat) (prefix : bytes) (i : Z) : option bytes :=
  match fuel with
  | O => None
  | S fuel' =>
    if i <? 0 then None else
    match prefix !! Z.to_nat i with
    | None => None
    | Some c =>
      if Z_of_byte c <? 0xff then
        Some (<[Z.to_nat i := byte_of_Z (Z_of_byte c + 1)]>
                (take (Z.to_nat (i + 1)) prefix))
      else prefixLimit fuel' prefix (i - 1)
    end
  end.

(** [util.BytesPrefix(prefix)]. *)
Definition BytesPrefix (prefix : bytes) : Range :=
  {| Start := prefix;
     Limit := prefixLimit (length prefix) prefix (len prefix - 1) |}.

(** [key] is below the limit of a range. *)
Definition belowLimit (limit : option bytes) (key : bytes) : bool :=
  match limit with
  | None => true
  | Some l => match bytesCompare key l with Lt => true | _ => false end
  end.

(** What [for iter.Next()] goes through, from the entry the iterator
    stands on: the keys and values read, and [iter.Error()] afterwards. *)
Fixpoint iterate (limit : option bytes) (it : list (bytes * Entry))
  : list (bytes * bytes) * option error :=
  match it with
  | [] => ([], None)
  | (key, entry) :: next =>
    if belowLimit limit key then
      match fault entry with
      | Some err => ([], Some err)
      | None =>
        let '(seen, err) := iterate limit next in
        ((key, value entry) :: seen, err)
      end
    else ([], None)
  end.

(** [db.NewIterator(slice, nil)], run to its end. *)
Definition NewIterator (db : DB) (slice : Range)
  : list (bytes * bytes) * option error :=
  if closed db then ([], Some ErrClosed)
  else iterate (Limit slice) (sortedSeek (Start slice) (table db)).

Definition DBClose (db : DB) : DB * option error :=
  if closed db then (db, Some ErrClosed)
  else (mkDB true (table db) (writes db), None).

End leveldb.

Record LevelDBBackend := mkLevelDB { ldb : leveldb.DB }.

(** [NewLevelDBBackend] on a new directory, when [leveldb.OpenFile]
    succeeds. *)
Definition NewLevelDBBackend (writes : list (option error)) : LevelDBBackend :=
  mkLevelDB (leveldb.OpenFile writes).

(** [for _, r := range records { batch.Put([]byte(r.Key), r.Value) }]. *)
Definition LevelDB_batch (records : list KVRecord) : leveldb.Batch :=
  fold_left (fun batch r => leveldb.BatchPut batch (Key r) (Value r)) records [].

Definition LevelDBBackend_Put (b : LevelDBBackend) (records : list KVRecord)
  : LevelDBBackend * option error :=
  let '(db', err) := leveldb.Write (ldb b) (LevelDB_batch records) in
  (mkLevelDB db', err).

(** The body of [for iter.Next()]. *)
Definition LevelDB_append (records : list KVRecord) (kv : bytes * bytes)
  : list KVRecord :=
  records ++ [mkRecord (fst kv) (copyBytes (snd kv))].

(** [Search]: the records are given up when the iterator ended in an
    error. *)
Definition LevelDBBackend_Search (b : LevelDBBackend) (prefix : gostring)
  : outcome (list KVRecord * option error) :=
  let '(seen, iterErr) := leveldb.NewIterator (ldb b) (leveldb.BytesPrefix prefix) in
  let records := fold_left LevelDB_append seen [] in
  match iterErr with
  | Some err => Returns ([], Some err)
  | None => Returns (records, None)
  end.

Definition LevelDBBackend_Close (b : LevelDBBackend) : LevelDBBackend * option error :=
  let '(db', err) := leveldb.DBClose (ldb b) in (mkLevelDB db', err).

#[export] Instance LevelDBBackend_Backend : Backend LevelDBBackend := {
  Put := LevelDBBackend_Put;
  Search := LevelDBBackend_Search;
  Close := LevelDBBackend_Close
}.

(** The record [Search] makes of a LevelDB entry. *)
Definition LevelDB_recordOf (kv : bytes * leveldb.Entry) : KVRecord :=
  mkRecord (fst kv) (leveldb.value (snd kv)).

(** The table of a LevelDB store is in ascending key order and every
    entry of it can be read. *)
Definition LevelDB_sound (b : LevelDBBackend) : Prop :=
  ascending (leveldb.table (ldb b)) /\
  Forall (fun kv => leveldb.fault (snd kv) = None) (leveldb.table (ldb b)).

(** The limit of [util.BytesPrefix], read from the front of the prefix. *)
Fixpoint limitOf (prefix : bytes) : option bytes :=
  match prefix with
  | [] => None
  | c :: rest =>
    match limitOf rest with
    | Some l => Some (c :: l)
    | None =>
      if Z_of_byte c <? 0xff then Some [byte_of_Z (Z_of_byte c + 1)] else None
    end
  end.

(** A LevelDB store whose second entry cannot be read. *)
Definition faultyLevelDB : LevelDBBackend :=
  mkLevelDB (leveldb.mkDB false
    [(lit "moc.a", leveldb.mkEntry (lit "1") None);
     (lit "moc.b", leveldb.mkEntry (lit "2") (Some "checksum mismatch"%string));
     (lit "moc.c", leveldb.mkEntry (lit "3") None)] []).

(** ** What the loader logs *)

(** The records writer [w] receives in a run, in the order in which it
    receives them. *)
Definition received (EachKey : bytes -> list EachKeyCall)
  (arrivals : list (bytes * nat)) (w : nat) : list KVRecord :=
  omap (fun wr : nat * KVRecord => if Nat.eqb (fst wr) w then Some (snd wr) else None)
       (sent EachKey arrivals).

(** The log line of one call of the parser's callback: a line for an
    error, nothing otherwise. *)
Definition parseErrorOf (c : EachKeyCall) : option LogMsg :=
  match cbErr c with
  | Some err => Some (LogParseError (idx c) err)
  | None => None
  end.

(** The errors of the "Failed to put records" lines of a log. *)
Definition putFailures (logs : list LogMsg) : list error :=
  omap (fun m => match m with LogPutFailed e => Some e | _ => None end) logs.

(** The state of the load agrees with the calls of [Put] made so far:
    the backend is what they left, and the log has one line for each
    that failed. *)
Definition agrees {B} `{Backend B} (b : B) (st : LoadState) : Prop :=
  backend st = fst (putEach b (putCalls st)) /\
  putFailures (logs st) = omap id (snd (putEach b (putCalls st))).

(** A file whose scanner stops with an error after two lines. *)
Definition brokenFile : InputFile :=
  mkInput None None [lit "a.com 1"; lit "b.com 2"]
          (Some "bufio.Scanner: token too long"%string).

(** A stand-in for [jsonparser.EachKey] that reports an error for the
    value of a line without a blank. *)
Definition strictEachKey (data : bytes) : list EachKeyCall :=
  match nameValue data [] with
  | [c] => [c; mkCall 1 [] (Some "Key path not found"%string)]
  | calls => calls
  end.

(** A file whose fourth line has no value. *)
Definition strictFile : InputFile :=
  mkInput None None
    [lit "a.com 1"; lit "b.com 2"; lit "c.com 3"; lit "no-value"; lit "d.com 4"] None.

(** A bbolt file that has been closed. *)
Definition closedBBolt : BBoltBackend :=
  mkBBolt (bbolt.mkDB false None []).

(** * Properties *)

(** ** Bytes *)

Lemma Z_of_byte_range (b : byte) : 0 <= Z_of_byte b < 256.
Proof.
  unfold Z_of_byte. pose proof (Byte.to_N_bounded b) as H.
  split; [apply N2Z.is_nonneg | lia].
Qed.

Lemma Z_of_byte_of_Z (z : Z) : Z_of_byte (byte_of_Z z) = z mod 256.
Proof.
  unfold Z_of_byte, byte_of_Z.
  assert (Hr : 0 <= z mod 256 < 256) by (apply Z.mod_pos_bound; lia).
  destruct (Byte.of_N (Z.to_N (z mod 256))) as [b|] eqn:E.
  - apply Byte.to_of_N in E. rewrite E. lia.
  - apply Byte.of_N_None_iff in E. lia.
Qed.

Lemma byte_of_Z_of_byte (b : byte) : byte_of_Z (Z_of_byte b) = b.
Proof.
  unfold byte_of_Z. pose proof (Z_of_byte_range b) as Hr.
  rewrite Z.mod_small by lia. unfold Z_of_byte.
  rewrite N2Z.id, Byte.of_to_N. reflexivity.
Qed.

Lemma Z_of_byte_inj (a b : byte) : Z_of_byte a = Z_of_byte b -> a = b.
Proof.
  intros H. rewrite <- (byte_of_Z_of_byte a), <- (byte_of_Z_of_byte b).
  now rewrite H.
Qed.

(** ** Bit operations as arithmetic *)

Lemma land_low_high (a lo n : Z) :
  0 <= n -> 0 <= lo < 2 ^ n -> a mod 2 ^ n = 0 -> Z.land a lo = 0.
Proof.
  intros Hn Hlo Ha. apply Z.bits_inj'. intros m Hm.
  rewrite Z.land_spec, Z.bits_0.
  destruct (Z.lt_ge_cases m n) as [Hlt | Hge].
  - rewrite (Z.div_mod a (2 ^ n)) by lia. rewrite Ha, Z.add_0_r.
    rewrite Z.mul_comm, Z.mul_pow2_bits_low by lia. reflexivity.
  - rewrite <- (Z.mod_small lo (2 ^ n)) by lia.
    rewrite Z.mod_pow2_bits_high by lia. apply andb_false_r.
Qed.

Lemma lor_low_high (a lo n : Z) :
  0 <= n -> 0 <= lo < 2 ^ n -> a mod 2 ^ n = 0 -> Z.lor a lo = a + lo.
Proof.
  intros Hn Hlo Ha. pose proof (land_low_high a lo n Hn Hlo Ha) as H0.
  rewrite (Z.add_nocarry_lxor a lo H0). symmetry. now apply Z.lxor_lor.
Qed.

Lemma land_mask (a n : Z) : 0 <= n -> Z.land a (2 ^ n - 1) = a mod 2 ^ n.
Proof.
  intros Hn. rewrite <- Z.land_ones by lia. f_equal.
  rewrite Z.ones_equiv. lia.
Qed.

Lemma land63 (a : Z) : Z.land a 63 = a mod 64.
Proof. apply (land_mask a 6). lia. Qed.

Lemma land31 (a : Z) : Z.land a 31 = a mod 32.
Proof. apply (land_mask a 5). lia. Qed.

Lemma land15 (a : Z) : Z.land a 15 = a mod 16.
Proof. apply (land_mask a 4). lia. Qed.

Lemma land7 (a : Z) : Z.land a 7 = a mod 8.
Proof. apply (land_mask a 3). lia. Qed.

Ltac zdm := Z.div_mod_to_equations; lia.

(** Shifts and masks of the codec become divisions and remainders. *)
Ltac bits_to_arith :=
  cbv [Utf8.maskx Utf8.mask2 Utf8.mask3 Utf8.mask4 Utf8.tx Utf8.t2 Utf8.t3
       Utf8.t4 Utf8.t5 Utf8.runeError];
  rewrite ?Z_of_byte_of_Z, ?land63, ?land31, ?land15, ?land7;
  rewrite ?Z.shiftr_div_pow2, ?Z.shiftl_mul_pow2 by lia;
  change (2 ^ 6) with 64; change (2 ^ 12) with 4096;
  change (2 ^ 18) with 262144.

(** Two byte sequences written by [byte_of_Z] agree when the integers do. *)
Ltac bytes_eq :=
  repeat (apply f_equal2; [apply f_equal; zdm |]); reflexivity.

Ltac lor_add n :=
  match goal with
  | |- context [Z.lor ?a ?lo] => rewrite (lor_low_high a lo n) by (cbn; zdm)
  end.

Section Codec.
Import Utf8.

Lemma encoderune_1 (r : rune) :
  0 <= r <= 0x7F -> encoderune r = [byte_of_Z r].
Proof.
  intros H. unfold encoderune. change (2 ^ 32) with 4294967296.
  rewrite Z.mod_small by lia. unfold rune1Max.
  destruct (Z.leb_spec r 127); [reflexivity | lia].
Qed.

Lemma encoderune_2 (r : rune) :
  0x80 <= r <= 0x7FF ->
  encoderune r = [byte_of_Z (192 + r / 64); byte_of_Z (128 + r mod 64)].
Proof.
  intros H. unfold encoderune. change (2 ^ 32) with 4294967296.
  rewrite Z.mod_small by lia. unfold rune1Max, rune2Max.
  destruct (Z.leb_spec r 127); [lia |].
  destruct (Z.leb_spec r 2047); [| lia].
  bits_to_arith. do 2 lor_add 6.
  bytes_eq.
Qed.

Lemma encoderune_3 (r : rune) :
  0x800 <= r <= 0xFFFF -> ~ (0xD800 <= r <= 0xDFFF) ->
  encoderune r = [byte_of_Z (224 + r / 4096);
                  byte_of_Z (128 + (r / 64) mod 64);
                  byte_of_Z (128 + r mod 64)].
Proof.
  intros H Hs. unfold encoderune. change (2 ^ 32) with 4294967296.
  rewrite Z.mod_small by lia.
  unfold rune1Max, rune2Max, rune3Max, maxRune, surrogateMin, surrogateMax.
  destruct (Z.leb_spec r 127); [lia |].
  destruct (Z.leb_spec r 2047); [lia |].
  destruct (Z.ltb_spec 1114111 r); [lia |].
  destruct (Z.leb_spec 55296 r), (Z.leb_spec r 57343); try lia; cbn [orb andb];
    (destruct (Z.leb_spec r 65535); [| lia]);
    bits_to_arith; lor_add 5; do 2 lor_add 6; bytes_eq.
Qed.

Lemma encoderune_4 (r : rune) :
  0x10000 <= r <= 0x10FFFF ->
  encoderune r = [byte_of_Z (240 + r / 262144);
                  byte_of_Z (128 + (r / 4096) mod 64);
                  byte_of_Z (128 + (r / 64) mod 64);
                  byte_of_Z (128 + r mod 64)].
Proof.
  intros H. unfold encoderune. change (2 ^ 32) with 4294967296.
  rewrite Z.mod_small by lia.
  unfold rune1Max, rune2Max, rune3Max, maxRune, surrogateMin, surrogateMax.
  destruct (Z.leb_spec r 127); [lia |].
  destruct (Z.leb_spec r 2047); [lia |].
  destruct (Z.ltb_spec 1114111 r); [lia |].
  destruct (Z.leb_spec 55296 r), (Z.leb_spec r 57343); try lia; cbn [orb andb];
    (destruct (Z.leb_spec r 65535); [lia |]);
    bits_to_arith; lor_add 4; do 3 lor_add 6; bytes_eq.
Qed.

Lemma cont_spec (c : Z) : cont c = true <-> 128 <= c <= 191.
Proof. unfold cont, locb, hicb. lia. Qed.

Lemma decode_bits_2 (c0 c1 : Z) :
  192 <= c0 < 224 -> 128 <= c1 < 192 ->
  Z.lor (Z.shiftl (Z.land c0 mask2) 6) (Z.land c1 maskx)
  = (c0 - 192) * 64 + (c1 - 128).
Proof. intros H0 H1. bits_to_arith. lor_add 6. zdm. Qed.

Lemma decode_bits_3 (c0 c1 c2 : Z) :
  224 <= c0 < 240 -> 128 <= c1 < 192 -> 128 <= c2 < 192 ->
  Z.lor (Z.lor (Z.shiftl (Z.land c0 mask3) 12) (Z.shiftl (Z.land c1 maskx) 6))
        (Z.land c2 maskx)
  = (c0 - 224) * 4096 + (c1 - 128) * 64 + (c2 - 128).
Proof. intros H0 H1 H2. bits_to_arith. lor_add 12. lor_add 6. zdm. Qed.

Lemma decode_bits_4 (c0 c1 c2 c3 : Z) :
  240 <= c0 < 248 -> 128 <= c1 < 192 -> 128 <= c2 < 192 -> 128 <= c3 < 192 ->
  Z.lor (Z.lor (Z.lor (Z.shiftl (Z.land c0 mask4) 18)
                      (Z.shiftl (Z.land c1 maskx) 12))
               (Z.shiftl (Z.land c2 maskx) 6))
        (Z.land c3 maskx)
  = (c0 - 240) * 262144 + (c1 - 128) * 4096 + (c2 - 128) * 64 + (c3 - 128).
Proof.
  intros H0 H1 H2 H3. bits_to_arith. lor_add 18. lor_add 12. lor_add 6. zdm.
Qed.

Lemma byte_of_Z_eq (z : Z) (b : byte) : z = Z_of_byte b -> byte_of_Z z = b.
Proof. intros ->. apply byte_of_Z_of_byte. Qed.

Ltac bytes_back :=
  repeat (apply f_equal2; [apply byte_of_Z_eq; zdm |]); reflexivity.

Ltac scalar_range :=
  unfold scalar, maxRune, surrogateMin, surrogateMax; lia.

Lemma rangeStep_cases (s : gostring) (r : rune) (w : nat) :
  s <> [] -> rangeStep s = (r, w) ->
  (r = runeError /\ w = 1%nat) \/
  (scalar r /\ encoderune r = take w s /\ length (encoderune r) = w).
Proof.
  intros Hne Hs. destruct s as [|b0 s1]; [congruence|]. clear Hne.
  unfold rangeStep in Hs.
  pose proof (Z_of_byte_range b0) as R0.
  destruct (Z.ltb_spec (Z_of_byte b0) runeSelf) as [Hlt|Hge].
  { inversion Hs; subst. right. unfold runeSelf in Hlt.
    split; [scalar_range |].
    rewrite encoderune_1 by lia. rewrite byte_of_Z_of_byte. now split. }
  unfold runeSelf in Hge. unfold decoderune in Hs.
  unfold t2, t3, t4, t5 in Hs.
  destruct ((192 <=? Z_of_byte b0) && (Z_of_byte b0 <? 224)) eqn:E2.
  { destruct s1 as [|b1 s2]; [left; now inversion Hs|].
    pose proof (Z_of_byte_range b1) as R1.
    destruct (cont (Z_of_byte b1)) eqn:C1; [|left; now inversion Hs].
    apply cont_spec in C1.
    rewrite decode_bits_2 in Hs by lia.
    unfold rune1Max in Hs.
    match type of Hs with context [127 <? ?e] => set (v := e) in * end.
    destruct (Z.ltb_spec 127 v); [|left; now inversion Hs].
    right. inversion Hs; subst r w; clear Hs.
    split; [subst v; scalar_range |].
    rewrite encoderune_2 by (subst v; lia). split; [|reflexivity].
    cbn [firstn]. subst v. bytes_back. }
  destruct ((224 <=? Z_of_byte b0) && (Z_of_byte b0 <? 240)) eqn:E3.
  { destruct s1 as [|b1 [|b2 s3]]; try (left; now inversion Hs).
    pose proof (Z_of_byte_range b1) as R1.
    pose proof (Z_of_byte_range b2) as R2.
    destruct (cont (Z_of_byte b1)) eqn:C1; [|left; now inversion Hs].
    destruct (cont (Z_of_byte b2)) eqn:C2; [|left; now inversion Hs].
    apply cont_spec in C1, C2. cbn [andb] in Hs.
    rewrite decode_bits_3 in Hs by lia.
    unfold rune2Max, surrogateMin, surrogateMax in Hs.
    match type of Hs with context [2047 <? ?e] => set (v := e) in * end.
    destruct ((2047 <? v) && negb ((55296 <=? v) && (v <=? 57343))) eqn:E;
      [|left; now inversion Hs].
    right; inversion Hs; subst r w; clear Hs.
    split; [subst v; scalar_range |].
    rewrite encoderune_3 by (subst v; lia). split; [|reflexivity].
    cbn [firstn]; subst v; bytes_back. }
  destruct ((240 <=? Z_of_byte b0) && (Z_of_byte b0 <? 248)) eqn:E4;
    [|left; now inversion Hs].
  destruct s1 as [|b1 [|b2 [|b3 s4]]]; try (left; now inversion Hs).
  pose proof (Z_of_byte_range b1) as R1.
  pose proof (Z_of_byte_range b2) as R2.
  pose proof (Z_of_byte_range b3) as R3.
  destruct (cont (Z_of_byte b1)) eqn:C1; [|left; now inversion Hs].
  destruct (cont (Z_of_byte b2)) eqn:C2; [|left; now inversion Hs].
  destruct (cont (Z_of_byte b3)) eqn:C3; [|left; now inversion Hs].
  apply cont_spec in C1, C2, C3. cbn [andb] in Hs.
  rewrite decode_bits_4 in Hs by lia.
  unfold rune3Max, maxRune in Hs.
  match type of Hs with context [65535 <? ?e] => set (v := e) in * end.
  destruct ((65535 <? v) && (v <=? 1114111)) eqn:E; [|left; now inversion Hs].
  right; inversion Hs; subst r w; clear Hs.
  split; [subst v; scalar_range |].
  rewrite encoderune_4 by (subst v; lia). split; [|reflexivity].
  cbn [firstn]; subst v; bytes_back.
Qed.

Ltac step_if :=
  match goal with
  | |- context [if ?c then _ else _] =>
    let E := fresh "E" in destruct c eqn:E; try (exfalso; zdm)
  end.

Lemma cont_true (c : Z) : 128 <= c <= 191 -> cont c = true.
Proof. apply cont_spec. Qed.

Lemma rangeStep_encoderune (r : rune) (rest : gostring) :
  scalar r -> rangeStep (encoderune r ++ rest) = (r, length (encoderune r)).
Proof.
  unfold scalar, maxRune, surrogateMin, surrogateMax. intros [Hr Hs].
  destruct (Z.le_gt_cases r 127) as [H1|H1].
  { rewrite encoderune_1 by lia. cbn [app length]. unfold rangeStep, runeSelf.
    rewrite Z_of_byte_of_Z, Z.mod_small by lia.
    now step_if. }
  destruct (Z.le_gt_cases r 2047) as [H2|H2].
  { rewrite encoderune_2 by lia. cbn [app length].
    unfold rangeStep, decoderune, runeSelf, t2, t3, rune1Max. cbv zeta.
    rewrite !Z_of_byte_of_Z, !(Z.mod_small _ 256) by zdm.
    rewrite cont_true, decode_bits_2 by zdm.
    repeat step_if. f_equal. zdm. }
  destruct (Z.le_gt_cases r 65535) as [H3|H3].
  { rewrite encoderune_3 by lia. cbn [app length].
    unfold rangeStep, decoderune, runeSelf, t2, t3, t4, rune2Max,
      surrogateMin, surrogateMax. cbv zeta.
    rewrite !Z_of_byte_of_Z, !(Z.mod_small _ 256) by zdm.
    rewrite !cont_true, decode_bits_3 by zdm. cbn [andb].
    repeat step_if. f_equal. zdm. }
  rewrite encoderune_4 by lia. cbn [app length].
  unfold rangeStep, decoderune, runeSelf, t2, t3, t4, t5, rune3Max, maxRune.
  cbv zeta.
  rewrite !Z_of_byte_of_Z, !(Z.mod_small _ 256) by zdm.
  rewrite !cont_true, decode_bits_4 by zdm. cbn [andb].
  repeat step_if. f_equal. zdm.
Qed.

End Codec.

(** ** [reverse]: the swap loop is list reversal *)

Lemma insert_middle {A} (l1 l2 : list A) (x y : A) (n : nat) :
  n = length l1 -> <[n := y]> (l1 ++ x :: l2) = l1 ++ y :: l2.
Proof.
  intros ->. rewrite insert_app_r_alt by lia. now rewrite Nat.sub_diag.
Qed.

Lemma swap_ends {A} (a mid b : list A) (x y : A) :
  swap (a ++ x :: mid ++ y :: b) (Z.of_nat (length a))
       (Z.of_nat (length a + length (x :: mid ++ [y])) - 1)
  = Some (a ++ y :: mid ++ x :: b).
Proof.
  unfold swap.
  rewrite length_cons, length_app. cbn [length].
  replace (Z.of_nat (length a + S (length mid + 1)) - 1)
    with (Z.of_nat (length a + S (length mid))) by lia.
  destruct (Z.ltb_spec (Z.of_nat (length a)) 0); [lia |].
  destruct (Z.ltb_spec (Z.of_nat (length a + S (length mid))) 0); [lia |].
  cbn [orb]. rewrite !Nat2Z.id.
  rewrite (list_lookup_middle a _ x (length a) eq_refl).
  replace (a ++ x :: mid ++ y :: b) with ((a ++ x :: mid) ++ y :: b)
    by now rewrite <- app_assoc.
  rewrite (list_lookup_middle (a ++ x :: mid) b y)
    by (rewrite length_app; cbn; lia).
  rewrite (insert_middle (a ++ x :: mid) b y x)
    by (rewrite length_app; cbn; lia).
  rewrite <- app_assoc. cbn [app].
  now rewrite (insert_middle a _ x y).
Qed.

Lemma reverseLoop_spec {A} (fuel : nat) :
  forall a mid b : list A,
    (length mid <= 2 * fuel)%nat ->
    reverseLoop fuel (a ++ mid ++ b) (Z.of_nat (length a))
                (Z.of_nat (length a + length mid) - 1)
    = Some (a ++ rev mid ++ b).
Proof.
  induction fuel as [|fuel IH]; intros a mid b Hlen.
  - destruct mid; [reflexivity | cbn in Hlen; lia].
  - cbn [reverseLoop].
    destruct mid as [|x mid]; [|destruct mid as [|y mid _] using rev_ind].
    + rewrite Nat.add_0_r. destruct (Z.ltb_spec (Z.of_nat (length a)) (Z.of_nat (length a) - 1)); [lia | reflexivity].
    + cbn [length]. destruct (Z.ltb_spec (Z.of_nat (length a)) (Z.of_nat (length a + 1) - 1)); [lia | reflexivity].
    + destruct (Z.ltb_spec (Z.of_nat (length a))
                  (Z.of_nat (length a + length (x :: mid ++ [y])) - 1)) as [_|Hge].
      2:{ rewrite length_cons, length_app in Hge. cbn in Hge. lia. }
      replace ((x :: mid ++ [y]) ++ b) with (x :: mid ++ y :: b)
        by (cbn; now rewrite <- app_assoc).
      rewrite swap_ends.
      replace (a ++ y :: mid ++ x :: b) with ((a ++ [y]) ++ mid ++ (x :: b))
        by now rewrite <- app_assoc.
      replace (Z.of_nat (length a) + 1) with (Z.of_nat (length (a ++ [y])))
        by (rewrite length_app; cbn; lia).
      replace (Z.of_nat (length a + length (x :: mid ++ [y])) - 1 - 1)
        with (Z.of_nat (length (a ++ [y]) + length mid) - 1)
        by (rewrite length_cons, !length_app; cbn; lia).
      rewrite IH by (rewrite length_cons, length_app in Hlen; cbn in Hlen; lia).
      f_equal. cbn [rev]. rewrite rev_app_distr. cbn.
      rewrite <- !app_assoc. reflexivity.
Qed.

Lemma reverseRunes_rev (chars : list rune) : reverseRunes chars = Some (rev chars).
Proof.
  unfold reverseRunes.
  pose proof (reverseLoop_spec (length chars) [] chars []) as H.
  cbn [length app] in H. rewrite !app_nil_r in H. rewrite Nat.add_0_l in H.
  apply H. lia.
Qed.

(** ** Strings and rune slices *)

Section Strings.
Import Utf8.

Lemma scalar_runeError : scalar runeError.
Proof. unfold scalar, runeError, maxRune, surrogateMin, surrogateMax. lia. Qed.

Lemma encoderune_length (r : rune) : (1 <= length (encoderune r) <= 4)%nat.
Proof.
  unfold encoderune. repeat (match goal with |- context [if ?c then _ else _] => destruct c end); cbn; lia.
Qed.

Lemma rangeRunes_scalar (fuel : nat) :
  forall s, Forall scalar (rangeRunes fuel s).
Proof.
  induction fuel as [|fuel IH]; intros s; [constructor |].
  destruct s as [|b s]; [constructor |].
  cbn [rangeRunes]. destruct (rangeStep (b :: s)) as [r w] eqn:E.
  constructor; [| apply IH].
  assert (Hne : b :: s <> []) by discriminate.
  destruct (rangeStep_cases _ _ _ Hne E) as [[-> _] | [H _]];
    [apply scalar_runeError | exact H].
Qed.

Lemma rangeRunes_encode (rs : list rune) :
  Forall scalar rs ->
  forall fuel, (length (slicerunetostring rs) <= fuel)%nat ->
    rangeRunes fuel (slicerunetostring rs) = rs.
Proof.
  induction 1 as [|r rs Hr _ IH]; intros fuel Hf.
  - destruct fuel; reflexivity.
  - unfold slicerunetostring in *. cbn [flat_map] in *.
    pose proof (encoderune_length r) as Hl.
    rewrite length_app in Hf.
    destruct fuel as [|fuel]; [lia |].
    pose proof (rangeStep_encoderune r (flat_map encoderune rs) Hr) as Hs.
    destruct (encoderune r ++ flat_map encoderune rs) as [|b s] eqn:E.
    { apply (f_equal length) in E. rewrite length_app in E. cbn in E. lia. }
    cbn [rangeRunes]. rewrite Hs. f_equal.
    rewrite <- E, drop_app_length. apply IH. lia.
Qed.

Lemma stringtoslicerune_slicerunetostring (rs : list rune) :
  Forall scalar rs -> stringtoslicerune (slicerunetostring rs) = rs.
Proof. intros H. apply rangeRunes_encode; [exact H | lia]. Qed.

Lemma rangeRunes_valid (fuel : nat) :
  forall s, (length s <= fuel)%nat -> validFuel fuel s = true ->
    slicerunetostring (rangeRunes fuel s) = s.
Proof.
  induction fuel as [|fuel IH]; intros s Hf Hv.
  - destruct s; [reflexivity | cbn in Hf; lia].
  - destruct s as [|b s]; [reflexivity |].
    cbn [rangeRunes validFuel] in *.
    destruct (rangeStep (b :: s)) as [r w] eqn:E.
    assert (Hne : b :: s <> []) by discriminate.
    destruct (rangeStep_cases _ _ _ Hne E)
      as [[-> ->] | (_ & Henc & Hw)].
    { rewrite Z.eqb_refl in Hv. discriminate. }
    destruct ((r =? runeError) && (w =? 1)%nat); [discriminate |].
    pose proof (encoderune_length r) as Hl.
    unfold slicerunetostring in *. cbn [flat_map].
    rewrite IH; [rewrite Henc; apply take_drop | | exact Hv].
    rewrite length_drop. cbn [length] in *. lia.
Qed.

Lemma slicerunetostring_stringtoslicerune (s : gostring) :
  valid s = true -> slicerunetostring (stringtoslicerune s) = s.
Proof. intros H. apply rangeRunes_valid; [lia | exact H]. Qed.

End Strings.

Lemma reverse_runes (s : gostring) :
  reverse s = Utf8.slicerunetostring (rev (Utf8.stringtoslicerune s)).
Proof. unfold reverse. now rewrite reverseRunes_rev. Qed.

Lemma stringtoslicerune_reverse (s : gostring) :
  Utf8.stringtoslicerune (reverse s) = rev (Utf8.stringtoslicerune s).
Proof.
  rewrite reverse_runes. apply stringtoslicerune_slicerunetostring.
  apply Forall_rev, rangeRunes_scalar.
Qed.

Lemma reverse_reverse (s : gostring) :
  reverse (reverse s) = Utf8.slicerunetostring (Utf8.stringtoslicerune s).
Proof.
  rewrite (reverse_runes (reverse s)), stringtoslicerune_reverse.
  now rewrite rev_involutive.
Qed.


Lemma reverse_reverse_valid (s : gostring) :
  Utf8.valid s = true -> reverse (reverse s) = s.
Proof.
  intros Hv. rewrite reverse_reverse. now apply slicerunetostring_stringtoslicerune.
Qed.

Section Sanitise.
Import Utf8.

(** Writing back what the range loop read never shortens a string, and
    lengthens it when a malformed sequence was met. *)
Lemma rangeRunes_length (fuel : nat) :
  forall s, (length s <= fuel)%nat ->
    (length s <= length (slicerunetostring (rangeRunes fuel s)))%nat /\
    (validFuel fuel s = false ->
     (length s < length (slicerunetostring (rangeRunes fuel s)))%nat).
Proof.
  induction fuel as [|fuel IH]; intros s Hf.
  - destruct s; [cbn; split; [lia | discriminate] | cbn in Hf; lia].
  - destruct s as [|b s]; [cbn; split; [lia | discriminate] |].
    cbn [rangeRunes validFuel].
    destruct (rangeStep (b :: s)) as [r w] eqn:E.
    assert (Hne : b :: s <> []) by discriminate.
    unfold slicerunetostring in *. cbn [flat_map]. rewrite length_app.
    destruct (rangeStep_cases _ _ _ Hne E) as [[-> ->] | (_ & Henc & Hw)].
    + rewrite Z.eqb_refl. cbn [andb Nat.eqb].
      change (length (encoderune runeError)) with 3%nat.
      destruct (IH (drop 1 (b :: s))) as [Hle _];
        [rewrite length_drop; cbn [length] in *; lia |].
      rewrite length_drop in Hle. cbn [length] in *. split; intros; lia.
    + assert (Hws : (w <= length (b :: s))%nat).
      { rewrite <- Hw, Henc, length_take. lia. }
      pose proof (encoderune_length r) as Hl.
      destruct (IH (drop w (b :: s))) as [Hle Hlt];
        [rewrite length_drop; cbn [length] in *; lia |].
      rewrite length_drop in Hle, Hlt. rewrite Hw.
      destruct ((r =? runeError) && (w =? 1)%nat) eqn:Eb.
      * exfalso. apply andb_prop in Eb as [Er Ew].
        apply Z.eqb_eq in Er. apply Nat.eqb_eq in Ew. rewrite Er, Ew in Hw.
        change (length (encoderune runeError)) with 3%nat in Hw. discriminate.
      * split; [lia |]. intros Hv. specialize (Hlt Hv). lia.
Qed.

End Sanitise.

(** [reverse] is its own inverse on the well-formed strings and on no
    others. *)
Lemma reverse_involutive_iff (s : gostring) :
  reverse (reverse s) = s <-> Utf8.valid s = true.
Proof.
  split; [| apply reverse_reverse_valid].
  intros Hrr. destruct (Utf8.valid s) eqn:Hv; [reflexivity | exfalso].
  rewrite reverse_reverse in Hrr. apply (f_equal length) in Hrr.
  destruct (rangeRunes_length (length s) s (le_n _)) as [_ Hlt].
  specialize (Hlt Hv). unfold Utf8.stringtoslicerune in Hrr. lia.
Qed.

(** C1 (as amended).  On well-formed UTF-8 the key transform is its own
    inverse, and on every string it reverses the sequence of code points
    that the range loop reads from it. *)
Theorem reverse_involutive_valid (s : gostring) :
  Utf8.valid s = true ->
  reverse (reverse s) = s /\
  Utf8.stringtoslicerune (reverse s) = rev (Utf8.stringtoslicerune s).
Proof.
  intros Hv. split; [now apply reverse_reverse_valid | apply stringtoslicerune_reverse].
Qed.

Lemma reverse_involutive_valid_witness :
  Utf8.valid (lit "sub.example.com") = true /\
  reverse (reverse (lit "sub.example.com")) = lit "sub.example.com".
Proof.
  split; [reflexivity |].
  apply (reverse_involutive_valid (lit "sub.example.com")). reflexivity.
Defined.

(** C1 as stated fails on a string that is not UTF-8: the byte 0xFF is
    read as U+FFFD and written back as the three bytes EF BF BD. *)
Lemma reverse_twice_xff :
  reverse (reverse [Byte.xff]) = [Byte.xef; Byte.xbf; Byte.xbd] /\
  reverse (reverse [Byte.xff]) <> [Byte.xff].
Proof. split; [reflexivity | discriminate]. Qed.

(** ** badgerdb.go: [Search] drops the error of [View] *)





(** ** bbolt.go: [Search] before the bucket exists *)

Lemma BBoltBackend_Put_failed (b : BBoltBackend) (records : list KVRecord) b' e :
  BBoltBackend_Put b records = (b', Some e) ->
  bbolt.root (db b') = bbolt.root (db b) /\ bbolt.opened (db b') = bbolt.opened (db b).
Proof.
  unfold BBoltBackend_Put, bbolt.Update. destruct b as [d]. cbn [db].
  destruct (negb (bbolt.opened d)); [intros [= <- _]; now split |].
  destruct (bbolt.CreateBucketIfNotExists (bbolt.root d)) as [bucket|e1];
    [| intros [= <- _]; now split].
  destruct (BBolt_putRecords bucket records) as [bucket'|e1];
    [| intros [= <- _]; now split].
  destruct (bbolt.commits d) as [|[e1|] rest]; intros [= <- ?]; now split.
Qed.

Lemma BBoltBackend_Put_done (b : BBoltBackend) (records : list KVRecord) b' :
  BBoltBackend_Put b records = (b', None) ->
  bbolt.root (db b') <> None /\ bbolt.opened (db b') = bbolt.opened (db b).
Proof.
  unfold BBoltBackend_Put, bbolt.Update. destruct b as [d]. cbn [db].
  destruct (negb (bbolt.opened d)); [intros [= _] |].
  destruct (bbolt.CreateBucketIfNotExists (bbolt.root d)) as [bucket|e1];
    [| intros [= _]].
  destruct (BBolt_putRecords bucket records) as [bucket'|e1];
    [| intros [= _]].
  destruct (bbolt.commits d) as [|[e1|] rest]; intros [= <-]; now split.
Qed.

Lemma putEach_all_failed (batches : list (list KVRecord)) :
  forall (b b' : BBoltBackend) errs,
    putEach b batches = (b', errs) ->
    Forall (fun e => e <> None) errs ->
    bbolt.root (db b') = bbolt.root (db b) /\
    bbolt.opened (db b') = bbolt.opened (db b).
Proof.
  induction batches as [|records rest IH]; intros b b' errs Hp Hall.
  - cbn in Hp. injection Hp as <- <-. now split.
  - cbn [putEach] in Hp.
    destruct (Put b records) as [b1 e1] eqn:E1.
    destruct (putEach b1 rest) as [b2 errs2] eqn:E2.
    injection Hp as <- <-. inversion Hall as [|? ? He Hrest]; subst.
    destruct e1 as [e1|]; [| congruence].
    destruct (BBoltBackend_Put_failed _ _ _ _ E1) as [Hr Ho].
    destruct (IH _ _ _ E2 Hrest) as [Hr2 Ho2].
    split; congruence.
Qed.

Lemma BBoltBackend_Search_no_bucket (b : BBoltBackend) (prefix : gostring) :
  bbolt.opened (db b) = true -> bbolt.root (db b) = None ->
  Search b prefix = Panics nilDeref.
Proof.
  intros Ho Hr. cbn. unfold BBoltBackend_Search, bbolt.View, bbolt.TxBucket.
  now rewrite Ho, Hr.
Qed.

(** C9.  On a new bbolt file on which no [Put] has gone through, whatever
    calls of [Put] were tried, [Search] panics on the nil bucket: it
    returns neither records nor an error. *)
Theorem BBoltBackend_Search_panics_without_bucket
  (commits : list (option error)) (batches : list (list KVRecord))
  (prefix : gostring) :
  Forall (fun e => e <> None) (snd (putEach (NewBBoltBackend commits) batches)) ->
  Search (fst (putEach (NewBBoltBackend commits) batches)) prefix = Panics nilDeref.
Proof.
  intros Hall.
  destruct (putEach (NewBBoltBackend commits) batches) as [b' errs] eqn:E.
  destruct (putEach_all_failed _ _ _ _ E Hall) as [Hr Ho]. cbn [fst].
  apply BBoltBackend_Search_no_bucket; [rewrite Ho | rewrite Hr]; reflexivity.
Qed.

Lemma BBoltBackend_Search_panics_without_bucket_witness :
  Search (fst (putEach (NewBBoltBackend [Some "disk full"%string])
                       [[mkRecord (lit "moc.a") (lit "1")]; [mkRecord [] (lit "2")]]))
         (lit "moc.")
  = Panics nilDeref.
Proof.
  apply (BBoltBackend_Search_panics_without_bucket [Some "disk full"%string]
           [[mkRecord (lit "moc.a") (lit "1")]; [mkRecord [] (lit "2")]] (lit "moc.")).
  cbn. repeat constructor; discriminate.
Defined.

(** Once a [Put] has gone through, the bucket is there and [Search] returns. *)
Lemma BBoltBackend_Search_after_Put (b b' : BBoltBackend) records prefix :
  bbolt.opened (db b) = true ->
  Put b records = (b', None) ->
  exists found, Search b' prefix = Returns (found, None).
Proof.
  intros Ho Hp. destruct (BBoltBackend_Put_done _ _ _ Hp) as [Hr Ho'].
  cbn. unfold BBoltBackend_Search, bbolt.View, bbolt.TxBucket.
  rewrite Ho', Ho. cbn [negb]. destruct (bbolt.root (db b')); [eauto | congruence].
Qed.

(** ** The query part of [main] *)

Lemma omap_lookup_seq {A} (l pre : list A) :
  omap (fun i => (pre ++ l) !! i) (seq (length pre) (length l)) = l.
Proof.
  revert pre. induction l as [|x l IH]; intros pre; [reflexivity |].
  cbn [length seq omap list_omap].
  rewrite (list_lookup_middle pre l x (length pre) eq_refl). f_equal.
  specialize (IH (pre ++ [x])). rewrite <- app_assoc in IH. cbn [app] in IH.
  rewrite length_app in IH. cbn [length] in IH.
  now rewrite Nat.add_1_r in IH.
Qed.

Lemma poolOrder_terms (queryTerms : list gostring) (sched : QuerySchedule) :
  poolOrder queryTerms sched ->
  omap (fun i => queryTerms !! i) (order sched) ≡ₚ queryTerms.
Proof.
  unfold poolOrder. intros ->. apply Permutation_refl'.
  apply (omap_lookup_seq queryTerms []).
Qed.

Section QueryProps.
Context {B : Type} `{Backend B}.

Lemma print_fold (jsonFmt : bool) (q : gostring) (rs : list KVRecord) :
  forall out,
    fold_left (fun out r => out ++ [printRecord jsonFmt q r]) rs out
    = out ++ map (printRecord jsonFmt q) rs.
Proof.
  induction rs as [|r rs IH]; intros out; cbn.
  - now rewrite app_nil_r.
  - rewrite IH, <- app_assoc. reflexivity.
Qed.

Lemma printResults_spec (jsonFmt : bool) (results : list queryResult) :
  forall out log,
    printResults jsonFmt results out log
    = (out ++ flat_map (resultLines jsonFmt) results,
       log ++ flat_map failureLog results).
Proof.
  induction results as [|res results IH]; intros out log; cbn [printResults flat_map].
  - now rewrite !app_nil_r.
  - assert (Hl : resultLines jsonFmt res
                 = match err res with
                   | Some _ => []
                   | None => map (printRecord jsonFmt (query res)) (records res)
                   end) by reflexivity.
    assert (Hf : failureLog res
                 = match err res with
                   | Some e => [LogSearchFailed (query res) e]
                   | None => []
                   end) by reflexivity.
    rewrite Hl, Hf. destruct (err res) as [e|]; rewrite IH.
    + cbn [app]. now rewrite <- app_assoc.
    + rewrite print_fold, <- app_assoc. cbn [app]. reflexivity.
Qed.

Lemma searchEach_answers (b : B) (terms : list gostring) (results : list queryResult) :
  Forall2 (answers b) terms results ->
  forall acc, searchEach b terms acc = Returns (acc ++ results).
Proof.
  induction 1 as [|q res terms results [Hs Hq] _ IH]; intros acc; cbn [searchEach].
  - now rewrite app_nil_r.
  - rewrite Hs, IH, <- app_assoc. cbn. destruct res; cbn in *. now subst.
Qed.

Lemma answers_exist (b : B) (terms : list gostring) :
  (forall q, In q terms -> exists rs e, Search b (reverse q) = Returns (rs, e)) ->
  exists results, Forall2 (answers b) terms results.
Proof.
  induction terms as [|q terms IH]; intros Hs.
  - exists []. constructor.
  - destruct (Hs q (or_introl eq_refl)) as (rs & e & Hq).
    destruct IH as [results Hr]; [intros q' Hin; apply Hs; now right |].
    exists (mkResult q rs e :: results). constructor; [now split | exact Hr].
Qed.

Lemma answers_query (b : B) (terms : list gostring) (results : list queryResult) :
  Forall2 (answers b) terms results -> map query results = terms.
Proof.
  induction 1 as [|q res terms results [_ Hq] _ IH]; cbn; congruence.
Qed.



Lemma runQueries_prints (b : B) (queryFlag : gostring) (queryConcurrency : Z)
  (jsonFmt : bool) (sched : QuerySchedule) (results : list queryResult) :
  0 < len (queryTermsOf queryFlag) ->
  searchTerms b (concurrencyOf queryConcurrency (queryTermsOf queryFlag))
              (queryTermsOf queryFlag) sched = Returns results ->
  runQueries b queryFlag queryConcurrency jsonFmt sched
  = mkRun (Returns 0) (flat_map (resultLines jsonFmt) results)
          (flat_map failureLog results).
Proof.
  intros Hl Hs. unfold runQueries.
  destruct (Z.ltb_spec 0 (len (queryTermsOf queryFlag))); [| lia].
  rewrite Hs, printResults_spec. reflexivity.
Qed.

(** C6.  When the concurrency in effect is 1, the terms are searched one
    after the other in the order of the query flag: the results stand in
    that order, and so do their groups of lines on standard output. *)
Theorem single_worker_keeps_order (b : B) (queryFlag : gostring)
  (queryConcurrency : Z) (jsonFmt : bool) (sched : QuerySchedule)
  (results : list queryResult) :
  concurrencyOf queryConcurrency (queryTermsOf queryFlag) = 1 ->
  Forall2 (answers b) (queryTermsOf queryFlag) results ->
  searchTerms b (concurrencyOf queryConcurrency (queryTermsOf queryFlag))
              (queryTermsOf queryFlag) sched = Returns results /\
  map query results = queryTermsOf queryFlag /\
  runQueries b queryFlag queryConcurrency jsonFmt sched
  = mkRun (Returns 0) (flat_map (resultLines jsonFmt) results)
          (flat_map failureLog results).
Proof.
  intros Hc Ha.
  assert (Hs : searchTerms b (concurrencyOf queryConcurrency (queryTermsOf queryFlag))
                 (queryTermsOf queryFlag) sched = Returns results).
  { rewrite Hc. unfold searchTerms. cbn.
    now rewrite (searchEach_answers b _ _ Ha []). }
  split; [exact Hs |]. split; [eapply answers_query; eassumption |].
  apply runQueries_prints; [| exact Hs].
  unfold concurrencyOf in Hc.
  destruct (Z.ltb_spec (len (queryTermsOf queryFlag)) queryConcurrency); lia.
Qed.


End QueryProps.

Lemma FlakyBackend_Search_returns (b : FlakyBackend) (prefix : gostring) :
  exists rs e, Search b prefix = Returns (rs, e).
Proof.
  cbn. destruct (bytesCompare prefix (failsOn b)); do 2 eexists; reflexivity.
Qed.

Lemma single_worker_keeps_order_witness :
  map query abcResults = [lit "a"; lit "b"; lit "c"] /\
  runQueries flaky (lit "a,b,c") 1 true (mkSchedule [] true)
  = mkRun (Returns 0)
      [Json (JSONLine.mk (lit "a") (lit "a") (lit " 1.2.3.4 "));
       Json (JSONLine.mk (lit "c") (lit "c") (lit " 1.2.3.4 "))]
      [LogSearchFailed (lit "b") "i/o timeout"%string].
Proof.
  destruct (single_worker_keeps_order flaky (lit "a,b,c") 1 true
              (mkSchedule [] true) abcResults) as (_ & H2 & H3).
  - reflexivity.
  - repeat constructor.
  - split; [exact H2 | exact H3].
Defined.


Example pooled_run :
  runQueries flaky (lit "a,b,c") 10 false (mkSchedule [2; 0; 1]%nat true)
  = mkRun (Returns 0)
      [Plain (lit "c") (lit "1.2.3.4"); Plain (lit "a") (lit "1.2.3.4")]
      [LogSearchFailed (lit "b") "i/o timeout"%string].
Proof. vm_compute. reflexivity. Qed.

(** C8.  The plain format trims the value, the JSON format prints it as
    stored. *)
Example json_value_not_trimmed :
  runQueries spacedStore (lit "example.com") 10 false (mkSchedule [] true)
  = mkRun (Returns 0) [Plain (lit "sub.example.com") (lit "1.2.3.4")] [] /\
  runQueries spacedStore (lit "example.com") 10 true (mkSchedule [] true)
  = mkRun (Returns 0)
      [Json (JSONLine.mk (lit "example.com") (lit "sub.example.com") (lit " 1.2.3.4 "))] [].
Proof. split; vm_compute; reflexivity. Qed.

Example TrimSpace_examples :
  TrimSpace (lit "  a b ") = lit "a b" /\
  TrimSpace [Byte.xc2; Byte.xa0; Byte.x61; Byte.xe2; Byte.x80; Byte.x83; Byte.x0a] = [Byte.x61] /\
  TrimSpace [Byte.x20; Byte.xc2] = [Byte.xc2] /\
  TrimSpace [Byte.x20; Byte.x09] = [].
Proof. repeat split; vm_compute; reflexivity. Qed.

(** ** [loadFile] *)

Lemma reverse_nonempty (s : gostring) : s <> [] -> reverse s <> [].
Proof.
  intros Hs. rewrite reverse_runes. destruct s as [|b s]; [congruence |].
  unfold Utf8.stringtoslicerune. cbn [length Utf8.rangeRunes].
  destruct (Utf8.rangeStep (b :: s)) as [r w]. cbn [rev].
  unfold Utf8.slicerunetostring. rewrite flat_map_app. cbn [flat_map].
  rewrite app_nil_r. pose proof (encoderune_length r) as Hl.
  intros E. apply (f_equal length) in E. rewrite length_app in E. cbn in E. lia.
Qed.

Lemma len_pos {A} (l : list A) : 0 < len l <-> l <> [].
Proof. unfold len. destruct l; cbn; split; intros; try congruence; lia. Qed.

Lemma concat_insert_split {A} (bufs : list (list A)) (w : nat) (x : list A) :
  bufs !! w = Some x ->
  exists rest, concat bufs ≡ₚ x ++ rest /\
               forall y, concat (<[w := y]> bufs) ≡ₚ y ++ rest.
Proof.
  intros Hw. exists (concat (take w bufs) ++ concat (drop (S w) bufs)). split.
  - rewrite <- (take_drop_middle bufs w x Hw) at 1.
    rewrite concat_app, concat_cons. solve_Permutation.
  - intros y. rewrite insert_take_drop by (eapply lookup_lt_Some; eassumption).
    rewrite concat_app, concat_cons. solve_Permutation.
Qed.

Lemma len_concat_full {A} (batchSize : Z) (l : list (list A)) :
  Forall (fun x => len x = batchSize) l -> len (concat l) = len l * batchSize.
Proof.
  unfold len. induction 1 as [|x l Hx _ IH]; [reflexivity |].
  cbn [concat length]. rewrite length_app. lia.
Qed.

Lemma concat_filter_pos {A} (l : list (list A)) :
  concat (filter (fun x => 0 < len x) l) = concat l.
Proof.
  induction l as [|x l IH]; [reflexivity |].
  rewrite filter_cons. destruct (decide (0 < len x)) as [Hx | Hx]; cbn [concat].
  - now rewrite IH.
  - rewrite IH. destruct x; [reflexivity | unfold len in Hx; cbn in Hx; lia].
Qed.

(** The partial buffers left at the end: at most one per writer, each
    with at least one record and fewer than a batch. *)
Lemma partial_buffers {A} (batchSize : Z) (bufs : list (list A)) :
  Forall (fun x => len x < batchSize) bufs ->
  let k := len (filter (fun x => 0 < len x) bufs) in
  k <= len bufs /\ k <= len (concat bufs) <= k * (batchSize - 1).
Proof.
  unfold len. induction 1 as [|x l Hx _ IH]; [cbn; lia |].
  cbn [concat length]. rewrite length_app.
  cbn zeta in IH. rewrite Nat2Z.inj_add, Nat2Z.inj_succ.
  destruct (decide (0 < Z.of_nat (length x))) as [Hp | Hp].
  - rewrite filter_cons_True by exact Hp.
    cbn [length]. rewrite Nat2Z.inj_succ.
    set (k := Z.of_nat (length (filter _ l))) in *.
    set (L := Z.of_nat (length (concat l))) in *.
    set (n := Z.of_nat (length x)) in *.
    replace (Z.succ k * (batchSize - 1)) with (k * (batchSize - 1) + (batchSize - 1))
      by lia.
    lia.
  - rewrite filter_cons_False by exact Hp.
    set (k := Z.of_nat (length (filter _ l))) in *.
    set (L := Z.of_nat (length (concat l))) in *.
    set (n := Z.of_nat (length x)) in *.
    assert (n = 0) by (subst n; lia). lia.
Qed.

Lemma one_partial_buffer {A} (bufs : list (list A)) :
  forall w,
    (forall i x, bufs !! i = Some x -> i <> w -> x = []) ->
    len (filter (fun x => 0 < len x) bufs) <= 1.
Proof.
  induction bufs as [|x bufs IH]; intros w Hw;
    [rewrite filter_nil; unfold len; cbn [length]; lia |].
  destruct w as [|w].
  - assert (Hnil : filter (fun x => 0 < len x) bufs = []).
    { assert (Hall : Forall (fun z => z = []) bufs).
      { apply Forall_lookup. intros i z Hz. apply (Hw (S i) z Hz). lia. }
      clear IH Hw. induction Hall as [|y bufs -> _ IH]; [reflexivity |].
      rewrite filter_cons_False; [exact IH | unfold len; cbn; lia]. }
    destruct (decide (0 < len x)) as [Hp | Hp].
    + rewrite filter_cons_True, Hnil by exact Hp. unfold len. cbn [length]. lia.
    + rewrite filter_cons_False, Hnil by exact Hp. unfold len. cbn [length]. lia.
  - rewrite filter_cons_False.
    + apply (IH w). intros i z Hz Hi. apply (Hw (S i) z Hz). lia.
    + rewrite (Hw 0%nat x eq_refl) by lia. unfold len. cbn. lia.
Qed.

Lemma ceilDiv_batches (P L k W batchSize : Z) :
  0 < batchSize -> 0 <= P -> 0 <= k <= W -> 1 <= W ->
  k <= L <= k * (batchSize - 1) ->
  ceilDiv (P * batchSize + L) batchSize <= P + k
    <= ceilDiv (P * batchSize + L) batchSize + W - 1 /\
  (k <= 1 -> P + k = ceilDiv (P * batchSize + L) batchSize).
Proof.
  intros HB HP Hk HW HL. unfold ceilDiv.
  replace (P * batchSize + L + batchSize - 1)
    with ((L + batchSize - 1) + P * batchSize) by lia.
  rewrite Z.div_add by lia.
  set (c := (L + batchSize - 1) / batchSize).
  assert (Hc0 : 0 <= c) by (apply Z.div_pos; lia).
  assert (Hck : c <= k).
  { apply Z.lt_succ_r. apply Z.div_lt_upper_bound; [lia | nia]. }
  assert (Hc1 : 1 <= k -> 1 <= c).
  { intros H1. apply Z.div_le_lower_bound; lia. }
  split; [lia |]. intros Hk1.
  destruct (Z.eq_dec k 0) as [-> | Hne]; [lia |].
  specialize (Hc1 ltac:(lia)). lia.
Qed.

Section LoaderProps.
Variable EachKey : bytes -> list EachKeyCall.
Context {B : Type} `{Backend B}.

(** *** Extraction *)

Lemma parseLine_Some (data : bytes) (r : KVRecord) (plogs : list LogMsg) :
  parseLine EachKey data = (Some r, plogs) ->
  exists key value,
    fields EachKey data = (key, value, plogs) /\ key <> [] /\ value <> [] /\
    r = mkRecord (reverse key) (copyBytes value).
Proof.
  unfold parseLine. destruct (fields EachKey data) as [[key value] l].
  destruct ((0 <? len key) && (0 <? len value)) eqn:E; intros [= <- <-].
  apply andb_prop in E as [Ek Ev].
  exists key, value. repeat split; try reflexivity; apply len_pos; lia.
Qed.

Lemma parseLine_nonempty (data : bytes) (r : KVRecord) (plogs : list LogMsg) :
  parseLine EachKey data = (Some r, plogs) -> Key r <> [] /\ Value r <> [].
Proof.
  intros Hp. apply parseLine_Some in Hp as (key & value & _ & Hk & Hv & ->).
  cbn. split; [now apply reverse_nonempty | exact Hv].
Qed.

Lemma parseLine_dropped (data key value : bytes) (plogs : list LogMsg) :
  fields EachKey data = (key, value, plogs) -> key = [] \/ value = [] ->
  parseLine EachKey data = (None, plogs).
Proof.
  intros Hf Hev. unfold parseLine. rewrite Hf.
  destruct ((0 <? len key) && (0 <? len value)) eqn:E; [| reflexivity].
  apply andb_prop in E as [Ek Ev].
  destruct Hev as [-> | ->]; [cbv in Ek | cbv in Ev]; discriminate.
Qed.

(** *** One turn of a writer *)

Lemma parseAndSend_None (batchSize : Z) (st : LoadState) (a : bytes * nat) plogs :
  parseLine EachKey (fst a) = (None, plogs) ->
  parseAndSend EachKey batchSize st a
  = mkLoad (backend st) (buffers st) (totalRecords st) (logs st ++ plogs) (putCalls st).
Proof. unfold parseAndSend. now intros ->. Qed.

Lemma parseAndSend_Some (batchSize : Z) (st : LoadState) (a : bytes * nat) r plogs
  (records : list KVRecord) :
  parseLine EachKey (fst a) = (Some r, plogs) ->
  buffers st !! snd a = Some records ->
  let st' := parseAndSend EachKey batchSize st a in
  let full := len (records ++ [r]) =? batchSize in
  putCalls st' = (if full then putCalls st ++ [records ++ [r]] else putCalls st) /\
  buffers st' = <[snd a := if full then [] else records ++ [r]]> (buffers st) /\
  totalRecords st' = totalRecords st + 1 /\
  backend st' = (if full then fst (Put (backend st) (records ++ [r])) else backend st).
Proof.
  intros Hp Hb. unfold parseAndSend. rewrite Hp. unfold writerReceive.
  cbn [buffers]. rewrite Hb.
  destruct (len (records ++ [r]) =? batchSize).
  - unfold callPut. cbn [backend]. destruct (Put (backend st) (records ++ [r])) as [b' e].
    cbn. repeat split.
  - cbn. repeat split.
Qed.

Lemma running_snoc (b : B) (batchSize : Z) (arrivals : list (bytes * nat)) a :
  running EachKey b batchSize (arrivals ++ [a])
  = parseAndSend EachKey batchSize (running EachKey b batchSize arrivals) a.
Proof. unfold running. now rewrite fold_left_app. Qed.

Lemma sent_snoc (arrivals : list (bytes * nat)) (a : bytes * nat) :
  sent EachKey (arrivals ++ [a])
  = sent EachKey arrivals ++
    match fst (parseLine EachKey (fst a)) with
    | Some r => [(snd a, r)]
    | None => []
    end.
Proof.
  unfold sent. rewrite omap_app. f_equal. cbn.
  now destruct (fst (parseLine EachKey (fst a))).
Qed.

Lemma running_writers (b : B) (batchSize : Z) (arrivals : list (bytes * nat)) :
  length (buffers (running EachKey b batchSize arrivals)) = writersCount.
Proof.
  induction arrivals as [|a arrivals IH] using rev_ind; [reflexivity |].
  rewrite running_snoc.
  destruct (parseLine EachKey (fst a)) as [[r|] plogs] eqn:Hp.
  - destruct (buffers (running EachKey b batchSize arrivals) !! snd a)
      as [records|] eqn:Hb.
    + destruct (parseAndSend_Some batchSize _ a r plogs records Hp Hb) as (_ & -> & _).
      now rewrite length_insert.
    + unfold parseAndSend, writerReceive. rewrite Hp. cbn [buffers]. now rewrite Hb.
  - now rewrite (parseAndSend_None batchSize _ a plogs Hp).
Qed.

(** Every record sent so far is in one call of [Put] or in one buffer. *)
Lemma running_holds_all (b : B) (batchSize : Z) (arrivals : list (bytes * nat)) :
  Forall (fun a => (snd a < writersCount)%nat) arrivals ->
  let st := running EachKey b batchSize arrivals in
  concat (putCalls st) ++ concat (buffers st) ≡ₚ accepted EachKey arrivals.
Proof.
  induction arrivals as [|a arrivals IH] using rev_ind; intros Hw; [reflexivity |].
  apply Forall_app in Hw as [Hw Ha]. inversion Ha as [|? ? Hlt _]; subst.
  specialize (IH Hw). cbn zeta in *.
  rewrite running_snoc. unfold accepted in *. rewrite sent_snoc, map_app.
  destruct (parseLine EachKey (fst a)) as [[r|] plogs] eqn:Hp; cbn [fst map].
  - destruct (lookup_lt_is_Some_2 (buffers (running EachKey b batchSize arrivals))
                (snd a)) as [records Hb];
      [now rewrite running_writers |].
    destruct (parseAndSend_Some batchSize _ a r plogs records Hp Hb)
      as (-> & -> & _).
    destruct (concat_insert_split _ _ _ Hb) as (rest & Hall & Hins).
    rewrite <- IH, Hall, Hins.
    destruct (len (records ++ [r]) =? batchSize).
    + rewrite concat_app. cbn [concat]. solve_Permutation.
    + solve_Permutation.
  - rewrite (parseAndSend_None batchSize _ a plogs Hp). cbn [putCalls buffers].
    now rewrite app_nil_r.
Qed.

(** One arrival either leaves the writers as they are, or adds a record
    to the buffer of its writer, which is flushed when it is full. *)
Lemma parseAndSend_cases (batchSize : Z) (st : LoadState) (a : bytes * nat) :
  let st' := parseAndSend EachKey batchSize st a in
  ((fst (parseLine EachKey (fst a)) = None \/ buffers st !! snd a = None) /\
   putCalls st' = putCalls st /\ buffers st' = buffers st /\
   totalRecords st' = totalRecords st /\ backend st' = backend st)
  \/
  (exists r records,
     fst (parseLine EachKey (fst a)) = Some r /\
     buffers st !! snd a = Some records /\
     let full := len (records ++ [r]) =? batchSize in
     putCalls st' = (if full then putCalls st ++ [records ++ [r]] else putCalls st) /\
     buffers st' = <[snd a := if full then [] else records ++ [r]]> (buffers st) /\
     totalRecords st' = totalRecords st + 1 /\
     backend st' = (if full then fst (Put (backend st) (records ++ [r]))
                    else backend st)).
Proof.
  destruct (parseLine EachKey (fst a)) as [[r|] plogs] eqn:Hp.
  - destruct (buffers st !! snd a) as [records|] eqn:Hb.
    + right. exists r, records. split; [reflexivity |]. split; [reflexivity |].
      apply (parseAndSend_Some batchSize st a r plogs records Hp Hb).
    + left. split; [now right |]. unfold parseAndSend, writerReceive.
      rewrite Hp. cbn [buffers]. rewrite Hb. cbn. repeat split.
  - left. split; [now left |].
    rewrite (parseAndSend_None batchSize st a plogs Hp). cbn. repeat split.
Qed.

(** Before the drain every call of [Put] has a full batch and every
    buffer has room. *)
Lemma running_sizes (b : B) (batchSize : Z) (arrivals : list (bytes * nat)) :
  0 < batchSize ->
  let st := running EachKey b batchSize arrivals in
  Forall (fun batch => len batch = batchSize) (putCalls st) /\
  Forall (fun buf => len buf < batchSize) (buffers st).
Proof.
  intros HB. induction arrivals as [|a arrivals IH] using rev_ind.
  - split; [constructor |]. cbn. repeat constructor; exact HB.
  - cbn zeta in *. destruct IH as [IHp IHb]. rewrite running_snoc.
    destruct (parseAndSend_cases batchSize (running EachKey b batchSize arrivals) a)
      as [(_ & -> & -> & _) | (r & records & _ & Hb & -> & -> & _)];
      [now split |].
    pose proof (Forall_lookup_1 _ _ _ _ IHb Hb) as Hlen. cbn in Hlen.
    destruct (Z.eqb_spec (len (records ++ [r])) batchSize) as [Hfull | Hroom].
    + split; [apply Forall_app; split; [exact IHp | now repeat constructor] |].
      apply Forall_insert; [exact IHb | exact HB].
    + split; [exact IHp |]. apply Forall_insert; [exact IHb |].
      unfold len in *. rewrite length_app in *. cbn [length] in *. lia.
Qed.

(** The records handed to [Put] and those waiting in the buffers all
    have a key and a value. *)
Lemma running_nonempty (b : B) (batchSize : Z) (arrivals : list (bytes * nat)) :
  let st := running EachKey b batchSize arrivals in
  Forall (Forall nonempty) (putCalls st) /\ Forall (Forall nonempty) (buffers st).
Proof.
  induction arrivals as [|a arrivals IH] using rev_ind.
  - split; [constructor |]. cbn. repeat constructor.
  - cbn zeta in *. destruct IH as [IHp IHb]. rewrite running_snoc.
    destruct (parseAndSend_cases batchSize (running EachKey b batchSize arrivals) a)
      as [(_ & -> & -> & _) | (r & records & Hr & Hb & -> & -> & _)];
      [now split |].
    pose proof (Forall_lookup_1 _ _ _ _ IHb Hb) as Hrec. cbn in Hrec.
    assert (Hnew : Forall nonempty (records ++ [r])).
    { apply Forall_app. split; [exact Hrec |]. constructor; [| constructor].
      destruct (parseLine EachKey (fst a)) as [r' plogs] eqn:Hp. cbn in Hr. subst r'.
      exact (parseLine_nonempty _ _ _ Hp). }
    destruct (len (records ++ [r]) =? batchSize).
    + split; [apply Forall_app; split; [exact IHp | now repeat constructor] |].
      apply Forall_insert; [exact IHb | constructor].
    + split; [exact IHp |]. now apply Forall_insert.
Qed.

Lemma putEach_snoc (b : B) (batches : list (list KVRecord)) (records : list KVRecord) :
  fst (putEach b (batches ++ [records]))
  = fst (Put (fst (putEach b batches)) records).
Proof.
  revert b. induction batches as [|x batches IH]; intros b; cbn [app putEach fst].
  - destruct (Put b records) as [b1 e]. reflexivity.
  - destruct (Put b x) as [b1 e]. specialize (IH b1).
    destruct (putEach b1 (batches ++ [records])) as [b2 errs].
    destruct (putEach b1 batches) as [b3 errs3]. exact IH.
Qed.

Lemma putEach_app (b : B) (l1 l2 : list (list KVRecord)) :
  fst (putEach b (l1 ++ l2)) = fst (putEach (fst (putEach b l1)) l2).
Proof.
  revert b. induction l1 as [|x l1 IH]; intros b; cbn [app putEach]; [reflexivity |].
  destruct (Put b x) as [b1 e]. specialize (IH b1).
  destruct (putEach b1 (l1 ++ l2)) as [b2 errs].
  destruct (putEach b1 l1) as [b3 errs3]. exact IH.
Qed.

(** The backend has seen the calls of [Put] one after the other, each
    once, whatever they returned. *)
Lemma running_backend (b : B) (batchSize : Z) (arrivals : list (bytes * nat)) :
  let st := running EachKey b batchSize arrivals in
  backend st = fst (putEach b (putCalls st)).
Proof.
  induction arrivals as [|a arrivals IH] using rev_ind; [reflexivity |].
  cbn zeta in *. rewrite running_snoc.
  destruct (parseAndSend_cases batchSize (running EachKey b batchSize arrivals) a)
    as [(_ & -> & _ & _ & ->) | (r & records & _ & _ & -> & _ & _ & ->)];
    [exact IH |].
  destruct (len (records ++ [r]) =? batchSize); [| exact IH].
  now rewrite putEach_snoc, <- IH.
Qed.

(** *** The drain *)

Lemma drain_putCalls (bufs : list (list KVRecord)) :
  forall st : LoadState,
    putCalls (fold_left writerDrain bufs st)
    = putCalls st ++ filter (fun records => 0 < len records) bufs /\
    backend (fold_left writerDrain bufs st)
    = fst (putEach (backend st) (filter (fun records => 0 < len records) bufs)).
Proof.
  induction bufs as [|records bufs IH]; intros st; cbn [fold_left].
  - rewrite filter_nil, app_nil_r. now split.
  - destruct (IH (writerDrain st records)) as [-> ->]. unfold writerDrain.
    destruct (Z.ltb_spec 0 (len records)) as [Hp | Hp].
    + rewrite filter_cons_True by exact Hp. unfold callPut. cbn [putEach].
      destruct (Put (backend st) records) as [b1 e]. cbn [putCalls backend].
      rewrite <- app_assoc. split; [reflexivity |].
      now destruct (putEach b1 _).
    + rewrite filter_cons_False by lia. now split.
Qed.

(** *** The whole of [loadFile] *)

Lemma loadFile_returns (b : B) (file : InputFile) (batchSize : Z)
  (arrivals : list (bytes * nat)) :
  openErr file = None -> gzipErr file = None -> 0 <= batchSize ->
  loadFile EachKey b file batchSize arrivals
  = Returns (finished (drainWriters (running EachKey b batchSize arrivals)),
             scanErr file).
Proof.
  intros Ho Hg HB. unfold loadFile. rewrite Ho, Hg.
  destruct (Z.ltb_spec batchSize 0); [lia | reflexivity].
Qed.

Lemma finished_putCalls (st : LoadState) :
  putCalls (finished (drainWriters st))
  = putCalls st ++ filter (fun records => 0 < len records) (buffers st) /\
  backend (finished (drainWriters st))
  = fst (putEach (backend st) (filter (fun records => 0 < len records) (buffers st))) /\
  buffers (finished (drainWriters st)) = [].
Proof.
  unfold finished, drainWriters. cbn [putCalls backend buffers].
  destruct (drain_putCalls (buffers st) st) as [-> ->]. repeat split.
Qed.

Lemma accepted_extracted (arrivals : list (bytes * nat)) :
  accepted EachKey arrivals = extracted EachKey (map fst arrivals).
Proof.
  unfold accepted, sent, extracted.
  induction arrivals as [|a arrivals IH]; [reflexivity |].
  cbn [map omap list_omap] in *.
  destruct (fst (parseLine EachKey (fst a))); cbn; now rewrite IH.
Qed.

Lemma runOf_extracted (file : InputFile) (arrivals : list (bytes * nat)) :
  runOf file arrivals ->
  accepted EachKey arrivals ≡ₚ extracted EachKey (scanned file).
Proof.
  intros [Hperm _]. rewrite accepted_extracted. unfold extracted. now rewrite Hperm.
Qed.

Lemma running_batches_nonempty (b : B) (batchSize : Z) (arrivals : list (bytes * nat)) :
  Forall (fun batch => batch <> []) (putCalls (running EachKey b batchSize arrivals)).
Proof.
  induction arrivals as [|a arrivals IH] using rev_ind; [constructor |].
  rewrite running_snoc.
  destruct (parseAndSend_cases batchSize (running EachKey b batchSize arrivals) a)
    as [(_ & -> & _) | (r & records & _ & _ & -> & _)]; [exact IH |].
  destruct (len (records ++ [r]) =? batchSize); [| exact IH].
  apply Forall_app. split; [exact IH |]. constructor; [| constructor].
  now destruct records.
Qed.

Lemma filter_pos_nonempty {A} (l : list (list A)) :
  Forall (fun x => x <> []) (filter (fun x => 0 < len x) l).
Proof.
  apply Forall_forall. intros x Hx%list_elem_of_filter.
  destruct Hx as [Hx _]. now apply len_pos.
Qed.

Lemma running_single_writer (b : B) (batchSize : Z) (arrivals : list (bytes * nat))
  (w : nat) :
  Forall (fun a => snd a = w) arrivals ->
  forall i x, buffers (running EachKey b batchSize arrivals) !! i = Some x ->
              i <> w -> x = [].
Proof.
  induction arrivals as [|a arrivals IH] using rev_ind; intros Hw i x Hi Hne.
  - change (replicate writersCount ([] : list KVRecord) !! i = Some x) in Hi.
    apply lookup_replicate in Hi as [-> _]. reflexivity.
  - apply Forall_app in Hw as [Hw Ha]. inversion Ha as [|? ? Hsnd _]; subst.
    rewrite running_snoc in Hi.
    destruct (parseAndSend_cases batchSize (running EachKey b batchSize arrivals) a)
      as [(_ & _ & E & _) | (r & records & _ & _ & _ & E & _)];
      rewrite E in Hi.
    + now apply (IH Hw i x).
    + rewrite list_lookup_insert_ne in Hi by congruence. now apply (IH Hw i x).
Qed.

(** C2 (as amended).  The calls of [Put] carry the [N] extracted records
    between them.  Each of the four writers batches on its own, so there
    are at least [ceil(N/B)] calls and at most three more; there are
    exactly [ceil(N/B)] when one writer receives every record. *)
Theorem Put_calls_count (b : B) (file : InputFile) (batchSize : Z)
  (arrivals : list (bytes * nat)) :
  openErr file = None -> gzipErr file = None -> 0 < batchSize ->
  runOf file arrivals ->
  exists st,
    loadFile EachKey b file batchSize arrivals = Returns (st, scanErr file) /\
    let N := len (extracted EachKey (scanned file)) in
    len (concat (putCalls st)) = N /\
    ceilDiv N batchSize <= len (putCalls st)
      <= ceilDiv N batchSize + Z.of_nat writersCount - 1 /\
    ((exists w, Forall (fun a => snd a = w) arrivals) ->
     len (putCalls st) = ceilDiv N batchSize).
Proof.
  intros Ho Hg HB Hrun. eexists. split; [apply loadFile_returns; lia || assumption |].
  set (st := running EachKey b batchSize arrivals).
  destruct (finished_putCalls st) as (-> & _ & _).
  destruct (running_sizes b batchSize arrivals HB) as [Hfull Hroom]. fold st in Hfull, Hroom.
  pose proof (running_holds_all b batchSize arrivals (proj2 Hrun)) as Hall.
  cbn zeta in Hall. fold st in Hall.
  rewrite (runOf_extracted file arrivals Hrun) in Hall.
  apply Permutation_length in Hall. rewrite length_app in Hall.
  pose proof (len_concat_full batchSize _ Hfull) as HP.
  destruct (partial_buffers batchSize _ Hroom) as (Hk4 & HkL).
  pose proof (running_writers b batchSize arrivals) as Hw4. fold st in Hw4.
  set (k := len (filter (fun x => 0 < len x) (buffers st))) in *.
  assert (HN : len (extracted EachKey (scanned file))
               = len (putCalls st) * batchSize + len (concat (buffers st))).
  { unfold len in *. lia. }
  assert (Hk0 : 0 <= k) by (unfold k, len; lia).
  destruct (ceilDiv_batches (len (putCalls st)) (len (concat (buffers st))) k
              (Z.of_nat writersCount) batchSize HB)
    as [Hbounds Hone]; [unfold len; lia | unfold len in *; lia | unfold writersCount; lia | exact HkL |].
  cbn zeta. rewrite HN.
  assert (Hcalls : len (putCalls st ++ filter (fun x => 0 < len x) (buffers st))
                   = len (putCalls st) + k).
  { unfold k, len. rewrite length_app. lia. }
  rewrite Hcalls. split; [| split; [exact Hbounds |]].
  - rewrite concat_app, concat_filter_pos. unfold len in *. rewrite length_app. lia.
  - intros [w Hw]. apply Hone.
    apply (one_partial_buffer (buffers st) w).
    apply (running_single_writer b batchSize arrivals w Hw).
Qed.

Lemma putEach_keeps (I : B -> Prop) (batches : list (list KVRecord)) :
  keepsValues I ->
  forall b, I b -> Forall (Forall nonempty) batches -> I (fst (putEach b batches)).
Proof.
  intros [Hput _]. induction batches as [|x batches IH]; intros b Hb Hall; [exact Hb |].
  inversion Hall as [|? ? Hx Hrest]; subst. cbn [putEach].
  pose proof (Hput b x Hb Hx) as H1. destruct (Put b x) as [b1 e1]. cbn [fst] in H1.
  specialize (IH b1 H1 Hrest). now destruct (putEach b1 batches).
Qed.

Lemma finished_backend (b : B) (batchSize : Z) (arrivals : list (bytes * nat)) :
  let st := finished (drainWriters (running EachKey b batchSize arrivals)) in
  backend st = fst (putEach b (putCalls st)).
Proof.
  cbn zeta. set (st := running EachKey b batchSize arrivals).
  destruct (finished_putCalls st) as (-> & -> & _).
  rewrite putEach_app. f_equal. f_equal. apply running_backend.
Qed.

Lemma finished_nonempty (b : B) (batchSize : Z) (arrivals : list (bytes * nat)) :
  Forall (Forall nonempty)
    (putCalls (finished (drainWriters (running EachKey b batchSize arrivals)))).
Proof.
  set (st := running EachKey b batchSize arrivals).
  destruct (finished_putCalls st) as (-> & _ & _).
  destruct (running_nonempty b batchSize arrivals) as [Hp Hb].
  apply Forall_app. split; [exact Hp |].
  apply Forall_forall. intros x Hx%list_elem_of_filter. destruct Hx as [_ Hx].
  rewrite Forall_forall in Hb. now apply Hb.
Qed.

(** C3.  In the [loadFile] of main.go a record made by a parser has a
    key and a value; a line whose name or value is missing or empty
    makes no record; so every record handed to [Put] has both, and on a
    backend that stores values as they are put, [Search] after the load
    finds no empty value.  (The one-loop [loadFile] has no such test
    and makes a record of every line.) *)
Theorem no_record_without_key_or_value :
  (forall data r plogs,
      parseLine EachKey data = (Some r, plogs) -> Key r <> [] /\ Value r <> []) /\
  (forall data key value plogs,
      fields EachKey data = (key, value, plogs) -> key = [] \/ value = [] ->
      parseLine EachKey data = (None, plogs)) /\
  (forall (I : B -> Prop) b file batchSize arrivals,
      keepsValues I -> I b ->
      openErr file = None -> gzipErr file = None -> 0 <= batchSize ->
      exists st,
        loadFile EachKey b file batchSize arrivals = Returns (st, scanErr file) /\
        Forall (Forall nonempty) (putCalls st) /\
        forall prefix found e,
          Search (backend st) prefix = Returns (found, e) ->
          Forall (fun r => Value r <> []) found).
Proof.
  split; [exact parseLine_nonempty |]. split; [exact parseLine_dropped |].
  intros I b file batchSize arrivals HI Hb Ho Hg HB.
  eexists. split; [now apply loadFile_returns |].
  split; [apply finished_nonempty |].
  intros prefix found e Hs. eapply (proj2 HI); [| exact Hs].
  rewrite finished_backend.
  apply putEach_keeps; [exact HI | exact Hb | apply finished_nonempty].
Qed.

End LoaderProps.

(** *** bbolt keeps values as they are put *)

Lemma sortedPut_Forall {V} (P : bytes * V -> Prop) (k : bytes) (v : V)
  (t : list (bytes * V)) :
  Forall P t -> P (k, v) -> Forall P (sortedPut k v t).
Proof.
  intros Ht Hkv. induction Ht as [|[k' v'] t Hx Ht IH]; cbn [sortedPut].
  - now repeat constructor.
  - destruct (bytesCompare k k'); constructor; auto.
Qed.

Lemma sortedSeek_Forall {V} (P : bytes * V -> Prop) (k : bytes)
  (t : list (bytes * V)) :
  Forall P t -> Forall P (sortedSeek k t).
Proof.
  induction 1 as [|[k' v'] t Hx Ht IH]; cbn [sortedSeek]; [constructor |].
  destruct (bytesCompare k' k); auto.
Qed.

Lemma BBolt_putRecords_values (records : list KVRecord) :
  forall bucket bucket',
    Forall (fun kv => snd kv <> []) bucket ->
    Forall nonempty records ->
    BBolt_putRecords bucket records = inl bucket' ->
    Forall (fun kv => snd kv <> []) bucket'.
Proof.
  induction records as [|r records IH]; intros bucket bucket' Hb Hr; cbn [BBolt_putRecords].
  - now intros [= <-].
  - inversion Hr as [|? ? [_ Hv] Hrest]; subst.
    unfold bbolt.BucketPut.
    destruct (len (Key r) =? 0); [discriminate |].
    destruct (bbolt.MaxKeySize <? len (Key r)); [discriminate |].
    destruct (bbolt.MaxValueSize <? len (Value r)); [discriminate |].
    apply IH; [| exact Hrest]. now apply sortedPut_Forall.
Qed.

Lemma BBolt_scan_values (bprefix : bytes) (cursor : bbolt.Bucket) :
  forall records,
    Forall (fun kv => snd kv <> []) cursor ->
    Forall (fun r => Value r <> []) records ->
    Forall (fun r => Value r <> []) (BBolt_scan bprefix cursor records).
Proof.
  induction cursor as [|[k v] cursor IH]; intros records Hc Hr; cbn [BBolt_scan];
    [exact Hr |].
  inversion Hc as [|? ? Hv Hrest]; subst. destruct (hasPrefix k bprefix); [| exact Hr].
  apply IH; [exact Hrest |]. apply Forall_app. split; [exact Hr |].
  now repeat constructor.
Qed.

Lemma BBolt_keepsValues : keepsValues BBolt_noEmptyValue.
Proof.
  split.
  - intros [d] records Hb Hr bucket. cbn. unfold BBoltBackend_Put, bbolt.Update.
    cbn [db]. unfold BBolt_noEmptyValue in Hb. cbn [db] in Hb.
    destruct (negb (bbolt.opened d)); [cbn; apply Hb |].
    unfold bbolt.CreateBucketIfNotExists.
    assert (Hstart : Forall (fun kv : bytes * bytes => snd kv <> [])
                       (match bbolt.root d with Some b0 => b0 | None => [] end)).
    { destruct (bbolt.root d) as [b0|]; [now apply Hb | constructor]. }
    destruct (bbolt.root d) as [b0|] eqn:Hroot.
    + destruct (BBolt_putRecords b0 records) as [bucket'|e] eqn:Hp;
        [| cbn; rewrite Hroot; apply Hb].
      pose proof (BBolt_putRecords_values records b0 bucket' Hstart Hr Hp) as Hnew.
      destruct (bbolt.commits d) as [|[e|] rest]; cbn;
        try (intros [= <-]; exact Hnew); apply Hb.
    + destruct (BBolt_putRecords [] records) as [bucket'|e] eqn:Hp;
        [| cbn; rewrite Hroot; intros [=]].
      pose proof (BBolt_putRecords_values records [] bucket' Hstart Hr Hp) as Hnew.
      destruct (bbolt.commits d) as [|[e|] rest]; cbn;
        try (intros [= <-]; exact Hnew); intros [=].
  - intros [d] prefix found e Hb. cbn. unfold BBoltBackend_Search, bbolt.View, bbolt.TxBucket.
    cbn [db]. unfold BBolt_noEmptyValue in Hb. cbn [db] in Hb.
    destruct (negb (bbolt.opened d)); [intros [= <- _]; constructor |].
    destruct (bbolt.root d) as [bucket|]; [| discriminate].
    intros [= <- _]. apply BBolt_scan_values; [| constructor].
    apply sortedSeek_Forall. now apply Hb.
Qed.

(** *** badger keeps values as they are put *)

Lemma Badger_setRecords_values (records : list KVRecord) :
  forall wb wb',
    Forall (fun kv => snd kv <> []) wb ->
    Forall nonempty records ->
    Badger_setRecords wb records = inl wb' ->
    Forall (fun kv => snd kv <> []) wb'.
Proof.
  induction records as [|r records IH]; intros wb wb' Hwb Hr; cbn [Badger_setRecords].
  - now intros [= <-].
  - inversion Hr as [|? ? [_ Hv] Hrest]; subst. unfold badger.Set_.
    destruct (len (Key r) =? 0); [discriminate |].
    apply IH; [| exact Hrest]. apply Forall_app. split; [exact Hwb |].
    now repeat constructor.
Qed.

Lemma Badger_written_values (wb : badger.WriteBatch) :
  forall t : list (bytes * badger.Item),
    Forall (fun kv => badger.value (snd kv) <> [] /\ badger.fault (snd kv) = None) t ->
    Forall (fun kv => snd kv <> []) wb ->
    Forall (fun kv => badger.value (snd kv) <> [] /\ badger.fault (snd kv) = None)
           (fold_left (fun t kv => sortedPut (fst kv) (badger.mkItem (snd kv) None) t)
                      wb t).
Proof.
  induction wb as [|[k v] wb IH]; intros t Ht Hwb; cbn [fold_left]; [exact Ht |].
  inversion Hwb as [|? ? Hv Hrest]; subst. apply IH; [| exact Hrest].
  apply sortedPut_Forall; [exact Ht | now split].
Qed.

Lemma Badger_iterate_values (bprefix : bytes) (it : list (bytes * badger.Item)) :
  forall records,
    Forall (fun kv => badger.value (snd kv) <> [] /\ badger.fault (snd kv) = None) it ->
    Forall (fun r => Value r <> []) records ->
    Forall (fun r => Value r <> []) (fst (Badger_iterate bprefix it records)).
Proof.
  induction it as [|[k item] it IH]; intros records Hit Hr; cbn [Badger_iterate];
    [exact Hr |].
  inversion Hit as [|? ? [Hv Hf] Hrest]; subst. cbn in Hv, Hf.
  destruct (hasPrefix k bprefix); [| exact Hr].
  unfold badger.ValueCopy. rewrite Hf.
  apply IH; [exact Hrest |]. apply Forall_app. split; [exact Hr |].
  now repeat constructor.
Qed.

Lemma Badger_keepsValues : keepsValues Badger_noEmptyValue.
Proof.
  split.
  - intros [d] records Hb Hr. cbn. unfold BadgerDBBackend_Put.
    destruct (Badger_setRecords [] records) as [wb|e] eqn:Hset; [| exact Hb].
    pose proof (Badger_setRecords_values records [] wb (Forall_nil_2 _) Hr Hset) as Hwb.
    unfold Badger_noEmptyValue in *. cbn [bdb] in *. unfold badger.Flush.
    destruct (badger.closed d); [exact Hb |].
    pose proof (Badger_written_values wb (badger.table d) Hb Hwb) as Hnew.
    destruct (badger.flushes d) as [|[e|] rest]; cbn; assumption.
  - intros [d] prefix found e Hb. cbn. unfold BadgerDBBackend_Search.
    destruct (Badger_view (mkBadger d) prefix) as [records verr] eqn:Hview.
    intros [= <- _]. unfold Badger_view in Hview. cbn [bdb] in Hview.
    unfold Badger_noEmptyValue in Hb. cbn [bdb] in Hb.
    destruct (badger.closed d); [injection Hview as <- _; constructor |].
    replace records
      with (fst (Badger_iterate prefix (sortedSeek prefix (badger.table d)) []))
      by now rewrite Hview.
    apply Badger_iterate_values; [| constructor].
    now apply sortedSeek_Forall.
Qed.

(** *** What [Put] returns does not change the run *)

Lemma running_same_calls (EachKey : bytes -> list EachKeyCall)
  {B1} `{Backend B1} {B2} `{Backend B2} (b1 : B1) (b2 : B2)
  (batchSize : Z) (arrivals : list (bytes * nat)) :
  putCalls (running EachKey b1 batchSize arrivals)
  = putCalls (running EachKey b2 batchSize arrivals) /\
  buffers (running EachKey b1 batchSize arrivals)
  = buffers (running EachKey b2 batchSize arrivals).
Proof.
  induction arrivals as [|a arrivals [IHp IHb]] using rev_ind; [now split |].
  rewrite !running_snoc.
  destruct (parseAndSend_cases EachKey batchSize (running EachKey b1 batchSize arrivals) a)
    as [(Hn1 & -> & -> & _) | (r1 & rs1 & Hr1 & Hb1 & -> & -> & _)];
  destruct (parseAndSend_cases EachKey batchSize (running EachKey b2 batchSize arrivals) a)
    as [(Hn2 & -> & -> & _) | (r2 & rs2 & Hr2 & Hb2 & -> & -> & _)].
  - now split.
  - exfalso. rewrite IHb in Hn1. destruct Hn1; congruence.
  - exfalso. rewrite <- IHb in Hn2. destruct Hn2; congruence.
  - rewrite IHb in Hb1. assert (r1 = r2) as -> by congruence.
    assert (rs1 = rs2) as -> by congruence. rewrite IHp, IHb. now split.
Qed.

(** C4.  In a run of [loadFile] the batches handed to [Put], taken
    together, are the extracted records with each occurrence once: no
    record is left in a buffer, none is put twice, and the backend at
    the end is the one these calls of [Put] leave, made in this order.
    While the input lasts, every call is made by a writer whose buffer
    has just reached the batch size, with the whole buffer, so that no
    buffer ever holds that many records; when the input has ended, each
    of the [writersCount] writers makes one more call with what is left
    in its buffer, if anything is.  No batch is empty and none is longer
    than the batch size. *)
Theorem every_record_in_one_Put (EachKey : bytes -> list EachKeyCall)
  {B} `{Backend B} (b : B) (file : InputFile) (batchSize : Z)
  (arrivals : list (bytes * nat)) :
  openErr file = None -> gzipErr file = None -> 0 <= batchSize ->
  runOf file arrivals ->
  exists st,
    loadFile EachKey b file batchSize arrivals = Returns (st, scanErr file) /\
    concat (putCalls st) ≡ₚ extracted EachKey (scanned file) /\
    backend st = fst (putEach b (putCalls st)) /\
    Forall (fun batch => batch <> []) (putCalls st) /\
    (0 < batchSize -> Forall (fun batch => len batch <= batchSize) (putCalls st)) /\
    (0 < batchSize ->
     forall n,
       Forall (fun batch => len batch = batchSize)
              (putCalls (running EachKey b batchSize (take n arrivals))) /\
       Forall (fun buf => len buf < batchSize)
              (buffers (running EachKey b batchSize (take n arrivals)))) /\
    putCalls st
    = putCalls (running EachKey b batchSize arrivals)
      ++ filter (fun records => 0 < len records)
                (buffers (running EachKey b batchSize arrivals)) /\
    length (buffers (running EachKey b batchSize arrivals)) = writersCount /\
    buffers st = [].
Proof.
  intros Ho Hg HB Hrun. eexists. split; [now apply loadFile_returns |].
  split; [| split; [apply finished_backend |]].
  { destruct (finished_putCalls (running EachKey b batchSize arrivals)) as (-> & _ & _).
    rewrite concat_app, concat_filter_pos.
    rewrite <- (runOf_extracted EachKey file arrivals Hrun).
    apply running_holds_all. apply Hrun. }
  set (st := running EachKey b batchSize arrivals).
  destruct (finished_putCalls st) as (-> & _ & ->).
  split; [| split; [| split; [| split; [reflexivity | split; [| reflexivity]]]]].
  - apply Forall_app. split;
      [apply running_batches_nonempty | apply filter_pos_nonempty].
  - intros Hpos. destruct (running_sizes EachKey b batchSize arrivals Hpos) as [Hp Hb].
    apply Forall_app. split.
    + eapply Forall_impl; [exact Hp |]. cbn. intros x ->. lia.
    + apply Forall_forall. intros x Hx%list_elem_of_filter.
      destruct Hx as [_ Hx]. rewrite Forall_forall in Hb.
      specialize (Hb x Hx). cbn in Hb. lia.
  - intros Hpos n. apply (running_sizes EachKey b batchSize (take n arrivals) Hpos).
  - apply running_writers.
Qed.

(** C5.  In a run of [loadFile], whatever the calls of [Put] return, the
    batches are those of the same run on a backend that never fails:
    every extracted record is handed to [Put] once, in a batch that is
    handed to the backend once, also when the call before it failed,
    and no batch is handed over again.  [loadFile] returns what the
    scanner returns, nil when the scan ended cleanly, and not an error
    of [Put]. *)
Theorem failed_Put_does_not_stop_load (EachKey : bytes -> list EachKeyCall)
  {B} `{Backend B} (b : B) (file : InputFile) (batchSize : Z)
  (arrivals : list (bytes * nat)) :
  openErr file = None -> gzipErr file = None -> 0 <= batchSize ->
  runOf file arrivals ->
  exists st st0,
    loadFile EachKey b file batchSize arrivals = Returns (st, scanErr file) /\
    loadFile EachKey NewDummyBackend file batchSize arrivals
    = Returns (st0, scanErr file) /\
    putCalls st = putCalls st0 /\
    concat (putCalls st) ≡ₚ extracted EachKey (scanned file) /\
    backend st = fst (putEach b (putCalls st)).
Proof.
  intros Ho Hg HB Hrun. do 2 eexists.
  rewrite !loadFile_returns by assumption.
  split; [reflexivity |]. split; [reflexivity |].
  split; [| split; [| apply finished_backend]].
  - destruct (finished_putCalls (running EachKey b batchSize arrivals)) as (-> & _ & _).
    destruct (finished_putCalls (running EachKey NewDummyBackend batchSize arrivals))
      as (-> & _ & _).
    destruct (running_same_calls EachKey b NewDummyBackend batchSize arrivals) as [-> ->].
    reflexivity.
  - destruct (finished_putCalls (running EachKey b batchSize arrivals)) as (-> & _ & _).
    rewrite concat_app, concat_filter_pos.
    rewrite <- (runOf_extracted EachKey file arrivals Hrun).
    apply running_holds_all. apply Hrun.
Qed.

(** *** Sample runs *)

Lemma sampleArrivals_runOf : runOf sampleFile sampleArrivals.
Proof.
  split.
  - cbn [map fst sampleArrivals scanned sampleFile]. solve_Permutation.
  - repeat constructor.
Qed.

Lemma twoArrivals_runOf : runOf twoLines twoArrivals.
Proof. split; [reflexivity | repeat constructor]. Qed.

Lemma every_record_in_one_Put_witness :
  exists st,
    loadFile sampleEachKey (NewBBoltBackend [Some "disk full"%string]) sampleFile 2
             sampleArrivals = Returns (st, scanErr sampleFile) /\
    concat (putCalls st) ≡ₚ extracted sampleEachKey (scanned sampleFile) /\
    backend st = fst (putEach (NewBBoltBackend [Some "disk full"%string]) (putCalls st)) /\
    Forall (fun batch => batch <> []) (putCalls st) /\
    (0 < 2 -> Forall (fun batch => len batch <= 2) (putCalls st)) /\
    (0 < 2 ->
     forall n,
       Forall (fun batch => len batch = 2)
              (putCalls (running sampleEachKey (NewBBoltBackend [Some "disk full"%string])
                                 2 (take n sampleArrivals))) /\
       Forall (fun buf => len buf < 2)
              (buffers (running sampleEachKey (NewBBoltBackend [Some "disk full"%string])
                                2 (take n sampleArrivals)))) /\
    putCalls st
    = putCalls (running sampleEachKey (NewBBoltBackend [Some "disk full"%string])
                        2 sampleArrivals)
      ++ filter (fun records => 0 < len records)
                (buffers (running sampleEachKey (NewBBoltBackend [Some "disk full"%string])
                                  2 sampleArrivals)) /\
    length (buffers (running sampleEachKey (NewBBoltBackend [Some "disk full"%string])
                             2 sampleArrivals)) = writersCount /\
    buffers st = [].
Proof.
  apply (every_record_in_one_Put sampleEachKey
           (NewBBoltBackend [Some "disk full"%string]) sampleFile 2 sampleArrivals).
  - reflexivity.
  - reflexivity.
  - lia.
  - exact sampleArrivals_runOf.
Defined.

Lemma Put_calls_count_witness :
  exists st,
    loadFile sampleEachKey NewDummyBackend sampleFile 2 sampleArrivals
    = Returns (st, None) /\
    let N := len (extracted sampleEachKey (scanned sampleFile)) in
    len (concat (putCalls st)) = N /\
    ceilDiv N 2 <= len (putCalls st) <= ceilDiv N 2 + Z.of_nat writersCount - 1 /\
    ((exists w, Forall (fun a => snd a = w) sampleArrivals) ->
     len (putCalls st) = ceilDiv N 2).
Proof.
  apply (Put_calls_count sampleEachKey NewDummyBackend sampleFile 2 sampleArrivals).
  - reflexivity.
  - reflexivity.
  - lia.
  - exact sampleArrivals_runOf.
Defined.

(** C2 as stated fails when two writers share two records: each of them
    flushes a batch of one at the drain. *)
Lemma two_writers_two_Put_calls :
  runOf twoLines twoArrivals /\
  exists st,
    loadFile sampleEachKey NewDummyBackend twoLines 2 twoArrivals = Returns (st, None) /\
    len (extracted sampleEachKey (scanned twoLines)) = 2 /\
    len (putCalls st) = 2 /\
    len (putCalls st) <> ceilDiv (len (extracted sampleEachKey (scanned twoLines))) 2.
Proof.
  split; [exact twoArrivals_runOf |].
  eexists. split; [reflexivity |]. repeat split. discriminate.
Qed.

Lemma NewBBoltBackend_noEmptyValue (commits : list (option error)) :
  BBolt_noEmptyValue (NewBBoltBackend commits).
Proof. intros bucket [=]. Qed.

Lemma no_record_without_key_or_value_witness :
  exists st,
    loadFile sampleEachKey (NewBBoltBackend []) sampleFile 2 sampleArrivals
    = Returns (st, None) /\
    Forall (Forall nonempty) (putCalls st) /\
    forall prefix found e,
      Search (backend st) prefix = Returns (found, e) ->
      Forall (fun r => Value r <> []) found.
Proof.
  apply (proj2 (proj2 (no_record_without_key_or_value sampleEachKey))
           BBolt_noEmptyValue (NewBBoltBackend []) sampleFile 2 sampleArrivals).
  - exact BBolt_keepsValues.
  - apply NewBBoltBackend_noEmptyValue.
  - reflexivity.
  - reflexivity.
  - lia.
Defined.

Lemma failed_Put_does_not_stop_load_witness :
  exists st st0,
    loadFile sampleEachKey (NewBBoltBackend [Some "disk full"%string]) sampleFile 1
             sampleArrivals = Returns (st, scanErr sampleFile) /\
    loadFile sampleEachKey NewDummyBackend sampleFile 1 sampleArrivals
    = Returns (st0, scanErr sampleFile) /\
    putCalls st = putCalls st0 /\
    concat (putCalls st) ≡ₚ extracted sampleEachKey (scanned sampleFile) /\
    backend st = fst (putEach (NewBBoltBackend [Some "disk full"%string]) (putCalls st)).
Proof.
  apply (failed_Put_does_not_stop_load sampleEachKey
           (NewBBoltBackend [Some "disk full"%string]) sampleFile 1 sampleArrivals).
  - reflexivity.
  - reflexivity.
  - lia.
  - exact sampleArrivals_runOf.
Defined.

(** The sample file loaded with one record to a batch on a disk that
    fails the first commit: the first batch is lost, the others are
    stored, and [loadFile] returns nil. *)
Example sample_load :
  exists st,
    loadFile sampleEachKey (NewBBoltBackend [Some "disk full"%string]) sampleFile 1
             sampleArrivals = Returns (st, None) /\
    putCalls st
    = [[mkRecord (lit "moc.elpmaxe.bus") (lit "1.2.3.4")];
       [mkRecord (lit "moc.elpmaxe.www") (lit "9.9.9.9")];
       [mkRecord (lit "gro.elpmaxe.bus") (lit "5.6.7.8")]] /\
    logs st = [LogStart; LogPutFailed "disk full"%string; LogLoaded 3] /\
    Search (backend st) (reverse (lit "example.com"))
    = Returns ([mkRecord (lit "moc.elpmaxe.www") (lit "9.9.9.9")], None) /\
    Search (backend st) (reverse (lit "example.net")) = Returns ([], None).
Proof. eexists. split; [reflexivity |]. repeat split. Qed.

(** The sample file loaded into a bbolt file whose first commit fails,
    then queried with one worker: the first batch is lost, the process
    exits with status 0. *)
Example sample_main :
  mainFrom sampleEachKey (NewBBoltBackend [Some "disk full"%string])
    (mkFlags (lit "sample.json.gz") (lit "example.com,,example.net,example.org") 1 1 false)
    sampleFile sampleArrivals (mkSchedule [] true)
  = mkRun (Returns 0)
      [Plain (lit "www.example.com") (lit "9.9.9.9");
       Plain (lit "sub.example.org") (lit "5.6.7.8")]
      [LogStart; LogPutFailed "disk full"%string; LogLoaded 3].
Proof. vm_compute. reflexivity. Qed.

(** ** The [loadFile] of the second [main.go] *)

Section SequentialProps.
Variable EachKey : bytes -> list EachKeyCall.
Context {B : Type} `{Backend B}.

Lemma Sequential_onKey_clean (calls : list EachKeyCall) :
  Forall (fun c => cbErr c = None) calls ->
  forall key value,
    exists k v, fold_left Sequential.onKey calls (key, value, []) = (k, v, []).
Proof.
  induction 1 as [|c calls Hc _ IH]; intros key value; cbn [fold_left].
  - now exists key, value.
  - unfold Sequential.onKey at 2. rewrite Hc.
    destruct (idx c =? 0); [apply IH |].
    destruct (idx c =? 1); apply IH.
Qed.

(** On lines that parse and a backend that takes every batch, the loop
    goes through: the calls of [Put] so far are full batches and the
    buffer has room. *)
Lemma Sequential_scanLoop_batches (batchSize : Z) (lines : list bytes) :
  0 < batchSize ->
  (forall b records, snd (Put b records) = None) ->
  Forall (fun data => Forall (fun c => cbErr c = None) (EachKey data)) lines ->
  forall st : Sequential.LoadState,
    Forall (fun batch => len batch = batchSize) (Sequential.putCalls st) ->
    len (Sequential.records st) < batchSize ->
    exists st',
      Sequential.scanLoop EachKey batchSize lines st = inl st' /\
      Forall (fun batch => len batch = batchSize) (Sequential.putCalls st') /\
      len (Sequential.records st') < batchSize /\
      len (Sequential.putCalls st') * batchSize + len (Sequential.records st')
      = len (Sequential.putCalls st) * batchSize + len (Sequential.records st)
        + len lines.
Proof.
  intros HB Hput Hclean. induction Hclean as [|data lines Hd _ IH]; intros st Hfull Hroom.
  - exists st. split; [reflexivity |]. split; [exact Hfull |].
    split; [exact Hroom |]. unfold len. cbn [length]. lia.
  - cbn [Sequential.scanLoop]. unfold Sequential.scanStep.
    destruct (Sequential_onKey_clean (EachKey data) Hd [] []) as (k & v & Ekv).
    match goal with
    | |- context [fold_left Sequential.onKey ?c ?a] =>
      replace (fold_left Sequential.onKey c a) with (k, v, @nil error) by (symmetry; exact Ekv)
    end.
    set (r := mkRecord (reverse k) (copyBytes v)).
    destruct (Z.eqb_spec (len (Sequential.records st ++ [r])) batchSize) as [Hf | Hf].
    + pose proof (Hput (Sequential.backend st) (Sequential.records st ++ [r])) as Hp.
      destruct (Put (Sequential.backend st) (Sequential.records st ++ [r])) as [b' e].
      cbn in Hp. subst e.
      edestruct IH as (st' & E & H1 & H2 & H3); [| | exists st'; split; [exact E |]].
      * cbn. apply Forall_app. split; [exact Hfull | now repeat constructor].
      * cbn. unfold len. cbn. lia.
      * split; [exact H1 |]. split; [exact H2 |]. rewrite H3. cbn.
        unfold len in *. rewrite !length_app in *. cbn [length] in *. lia.
    + edestruct IH as (st' & E & H1 & H2 & H3); [| | exists st'; split; [exact E |]].
      * cbn. exact Hfull.
      * cbn. unfold len in *. rewrite length_app in *. cbn [length] in *. lia.
      * split; [exact H1 |]. split; [exact H2 |]. rewrite H3. cbn.
        unfold len in *. rewrite !length_app in *. cbn [length] in *. lia.
Qed.

(** X22.  The one-loop loader makes exactly [ceil(N/B)] calls of [Put]
    for [N] lines that parse, on a backend that takes every batch, and
    every line gives a record, also one without a name or a value. *)
Lemma Sequential_Put_calls_count (b : B) (file : InputFile) (batchSize : Z) :
  openErr file = None -> gzipErr file = None -> 0 < batchSize ->
  (forall b records, snd (Put b records) = None) ->
  Forall (fun data => Forall (fun c => cbErr c = None) (EachKey data)) (scanned file) ->
  exists st,
    Sequential.loadFile EachKey b file batchSize = Returns (st, scanErr file) /\
    len (concat (Sequential.putCalls st)) = len (scanned file) /\
    len (Sequential.putCalls st) = ceilDiv (len (scanned file)) batchSize.
Proof.
  intros Ho Hg HB Hput Hclean. unfold Sequential.loadFile. rewrite Ho, Hg.
  destruct (Z.ltb_spec batchSize 0); [lia |].
  destruct (Sequential_scanLoop_batches batchSize (scanned file) HB Hput Hclean
              (Sequential.mkLoad b [] 0 [LogStart] []))
    as (st & -> & Hfull & Hroom & Hsum); [apply Forall_nil_2 | unfold len; cbn [Sequential.records length]; lia |].
  cbn [Sequential.putCalls Sequential.records] in Hsum.
  pose proof (len_concat_full batchSize _ Hfull) as Hcat.
  assert (Hr0 : 0 <= len (Sequential.records st)) by (unfold len; lia).
  assert (HP0 : 0 <= len (Sequential.putCalls st)) by (unfold len; lia).
  destruct (Z.ltb_spec 0 (len (Sequential.records st))) as [Hpos | Hzero].
  - pose proof (Hput (Sequential.backend st) (Sequential.records st)) as Hp.
    destruct (Put (Sequential.backend st) (Sequential.records st)) as [b' e].
    cbn in Hp. subst e. eexists. split; [reflexivity |].
    cbn [Sequential.putCalls].
    destruct (ceilDiv_batches (len (Sequential.putCalls st))
                (len (Sequential.records st)) 1 1 batchSize HB HP0)
      as [_ Hone]; [lia | lia | lia |].
    split.
    + rewrite concat_app. cbn [concat]. rewrite app_nil_r.
      unfold len in *. rewrite length_app. cbn in Hsum. lia.
    + replace (len (scanned file))
        with (len (Sequential.putCalls st) * batchSize + len (Sequential.records st))
        by (unfold len in *; cbn in Hsum; lia).
      rewrite <- Hone by lia. unfold len. rewrite length_app. cbn. lia.
  - eexists. split; [reflexivity |]. cbn [Sequential.putCalls].
    destruct (ceilDiv_batches (len (Sequential.putCalls st))
                (len (Sequential.records st)) 0 1 batchSize HB HP0)
      as [_ Hone]; [lia | lia | lia |].
    split.
    + unfold len in *. cbn in Hsum. lia.
    + replace (len (scanned file))
        with (len (Sequential.putCalls st) * batchSize + len (Sequential.records st))
        by (unfold len in *; cbn in Hsum; lia).
      rewrite <- Hone by lia. lia.
Qed.

End SequentialProps.

(** The one-loop loader keeps a line without a value and stops at the
    first [Put] that fails. *)
Example Sequential_sample_load :
  (exists st,
      Sequential.loadFile sampleEachKey (NewBBoltBackend []) sampleFile 2
      = Returns (st, None) /\
      Sequential.putCalls st
      = [[mkRecord (lit "moc.elpmaxe.bus") (lit "1.2.3.4");
          mkRecord (lit "moc.elpmaxe.eulavon") []];
         [mkRecord (lit "gro.elpmaxe.bus") (lit "5.6.7.8");
          mkRecord (lit "ten.elpmaxe.ytpme") []];
         [mkRecord (lit "moc.elpmaxe.www") (lit "9.9.9.9")]]) /\
  (exists st,
      Sequential.loadFile sampleEachKey (NewBBoltBackend [Some "disk full"%string])
                          sampleFile 2
      = Returns (st, Some "disk full"%string) /\
      length (Sequential.putCalls st) = 1%nat).
Proof. split; eexists; split; reflexivity. Qed.

(** The one-query [main] stops with status 1 when its search fails. *)
Example Sequential_query_failure :
  Sequential.runQuery flaky (lit "b")
  = mkRun (Returns 1) [] [LogFatal "i/o timeout"%string] /\
  Sequential.runQuery flaky (lit "a")
  = mkRun (Returns 0) [Plain (lit "a") (lit "1.2.3.4")] [].
Proof. split; vm_compute; reflexivity. Qed.

(** ** The key transform on well-formed and malformed text *)

Section ReverseProps.
Import Utf8.

Lemma rangeStep_width (s : gostring) (r : rune) (w : nat) :
  s <> [] -> rangeStep s = (r, w) -> (1 <= w <= length s)%nat.
Proof.
  intros Hne E. destruct (rangeStep_cases _ _ _ Hne E) as [[_ ->] | (_ & Henc & Hw)].
  - destruct s; [congruence | cbn; lia].
  - pose proof (encoderune_length r) as Hl.
    apply (f_equal length) in Henc. rewrite length_take in Henc. lia.
Qed.

(** The range loop needs no more iterations than the string has bytes. *)
Lemma rangeRunes_fuel (f1 : nat) :
  forall f2 s, (length s <= f1)%nat -> (length s <= f2)%nat ->
    rangeRunes f1 s = rangeRunes f2 s.
Proof.
  induction f1 as [|f1 IH]; intros f2 s H1 H2.
  - destruct s; [destruct f2; reflexivity | cbn in H1; lia].
  - destruct s as [|b s]; [destruct f2; reflexivity |].
    destruct f2 as [|f2]; [cbn in H2; lia |].
    cbn [rangeRunes]. destruct (rangeStep (b :: s)) as [r w] eqn:E.
    assert (Hne : b :: s <> []) by discriminate.
    pose proof (rangeStep_width _ _ _ Hne E) as Hw.
    f_equal. apply IH; rewrite length_drop; cbn [length] in *; lia.
Qed.

(** Decoding what was encoded, with more text behind it. *)
Lemma rangeRunes_encode_app (rs : list rune) :
  Forall scalar rs ->
  forall t, stringtoslicerune (slicerunetostring rs ++ t) = rs ++ stringtoslicerune t.
Proof.
  unfold stringtoslicerune.
  induction 1 as [|r rs Hr _ IH]; intros t; [reflexivity |].
  unfold slicerunetostring in *. cbn [flat_map].
  pose proof (encoderune_length r) as Hl.
  pose proof (rangeStep_encoderune r (flat_map encoderune rs ++ t) Hr) as Hs.
  rewrite <- app_assoc.
  destruct (encoderune r ++ flat_map encoderune rs ++ t) as [|b s] eqn:E.
  { apply (f_equal length) in E. rewrite length_app in E. cbn in E. lia. }
  cbn [length rangeRunes]. rewrite Hs. cbn [app]. f_equal.
  rewrite <- E, drop_app_length, <- IH.
  apply rangeRunes_fuel.
  - apply (f_equal length) in E. rewrite length_app in E. cbn [length] in E. lia.
  - lia.
Qed.

Lemma stringtoslicerune_app (a b : gostring) :
  valid a = true ->
  stringtoslicerune (a ++ b) = stringtoslicerune a ++ stringtoslicerune b.
Proof.
  intros Ha.
  rewrite <- (slicerunetostring_stringtoslicerune a Ha) at 1.
  apply rangeRunes_encode_app, rangeRunes_scalar.
Qed.

Lemma slicerunetostring_app (xs ys : list rune) :
  slicerunetostring (xs ++ ys) = slicerunetostring xs ++ slicerunetostring ys.
Proof. apply flat_map_app. Qed.

(** What [string(chars)] writes is well formed. *)
Lemma validFuel_encode (rs : list rune) :
  Forall scalar rs ->
  forall fuel, validFuel fuel (slicerunetostring rs) = true.
Proof.
  induction 1 as [|r rs Hr _ IH]; intros fuel.
  - destruct fuel; reflexivity.
  - unfold slicerunetostring in *. cbn [flat_map].
    destruct fuel as [|fuel]; [reflexivity |].
    pose proof (encoderune_length r) as Hl.
    pose proof (rangeStep_encoderune r (flat_map encoderune rs) Hr) as Hs.
    destruct (encoderune r ++ flat_map encoderune rs) as [|b s] eqn:E.
    { reflexivity. }
    cbn [validFuel]. rewrite Hs.
    replace ((r =? runeError) && (length (encoderune r) =? 1)%nat) with false.
    + rewrite <- E, drop_app_length. apply IH.
    + symmetry. apply andb_false_iff.
      destruct (Z.eqb_spec r runeError) as [-> |]; [right | now left].
      reflexivity.
Qed.

Lemma reverse_valid (s : gostring) : valid (reverse s) = true.
Proof.
  rewrite reverse_runes. apply validFuel_encode, Forall_rev, rangeRunes_scalar.
Qed.

Lemma reverse_app_valid (a b : gostring) :
  valid a = true -> reverse (a ++ b) = reverse b ++ reverse a.
Proof.
  intros Ha. rewrite !reverse_runes, stringtoslicerune_app by exact Ha.
  now rewrite rev_app_distr, slicerunetostring_app.
Qed.

End ReverseProps.

Lemma hasPrefix_app (p t : bytes) : hasPrefix (p ++ t) p = true.
Proof.
  induction p as [|x p IH]; [destruct t; reflexivity |].
  cbn. rewrite IH, andb_true_r. now apply Byte.byte_dec_lb.
Qed.

Lemma hasPrefix_inv (s p : bytes) :
  hasPrefix s p = true -> exists t, s = p ++ t.
Proof.
  revert s. induction p as [|x p IH]; intros s H; [now exists s |].
  destruct s as [|y s]; [discriminate |].
  cbn in H. apply andb_true_iff in H as [Hxy Hp].
  apply Byte.byte_dec_bl in Hxy as ->.
  destruct (IH _ Hp) as [t ->]. now exists t.
Qed.

Lemma hasPrefix_iff (s p : bytes) :
  hasPrefix s p = true <-> exists t, s = p ++ t.
Proof.
  split; [apply hasPrefix_inv | intros [t ->]; apply hasPrefix_app].
Qed.

(** When the stored key starts with the transformed suffix, the key
    ends with the suffix. *)
Lemma reverse_prefix_suffix (key suffix : gostring) :
  Utf8.valid key = true -> Utf8.valid suffix = true ->
  hasPrefix (reverse key) (reverse suffix) = true ->
  exists x, Utf8.valid x = true /\ key = x ++ suffix.
Proof.
  intros Hk Hs [t Ht]%hasPrefix_inv.
  exists (reverse t). split; [apply reverse_valid |].
  apply (f_equal Utf8.stringtoslicerune) in Ht.
  rewrite stringtoslicerune_app in Ht by apply reverse_valid.
  rewrite !stringtoslicerune_reverse in Ht.
  apply (f_equal (@rev _)) in Ht.
  rewrite rev_app_distr, !rev_involutive in Ht.
  rewrite <- (slicerunetostring_stringtoslicerune key Hk), Ht.
  rewrite slicerunetostring_app, reverse_runes.
  now rewrite (slicerunetostring_stringtoslicerune suffix Hs).
Qed.

Lemma stringtoslicerune_ascii (s : gostring) :
  Forall (fun c => Z_of_byte c < 0x80) s ->
  Utf8.stringtoslicerune s = map Z_of_byte s.
Proof.
  unfold Utf8.stringtoslicerune.
  induction 1 as [|c s Hc _ IH]; [reflexivity |].
  cbn [length Utf8.rangeRunes Utf8.rangeStep].
  unfold Utf8.runeSelf. destruct (Z.ltb_spec (Z_of_byte c) 128); [| lia].
  cbn [map]. f_equal. exact IH.
Qed.

Lemma slicerunetostring_ascii (s : gostring) :
  Forall (fun c => Z_of_byte c < 0x80) s ->
  Utf8.slicerunetostring (map Z_of_byte s) = s.
Proof.
  induction 1 as [|c s Hc _ IH]; [reflexivity |].
  unfold Utf8.slicerunetostring in *. cbn [map flat_map]. rewrite IH.
  pose proof (Z_of_byte_range c).
  rewrite encoderune_1 by lia. now rewrite byte_of_Z_of_byte.
Qed.

(** X1.  Whatever the input, [reverse] returns well-formed UTF-8: every
    malformed byte has become U+FFFD.  So a stored key is always well
    formed, and reversing three times is the same as reversing once. *)
Theorem reverse_is_well_formed (s : gostring) :
  Utf8.valid (reverse s) = true /\ reverse (reverse (reverse s)) = reverse s.
Proof.
  split; [apply reverse_valid |].
  apply reverse_reverse_valid, reverse_valid.
Qed.

(** X2.  On a string of ASCII bytes, such as a host name, [reverse] is
    the reversal of the bytes. *)
Theorem reverse_ascii (s : gostring) :
  Forall (fun c => Z_of_byte c < 0x80) s -> reverse s = rev s.
Proof.
  intros Hs. rewrite reverse_runes, stringtoslicerune_ascii by exact Hs.
  rewrite <- map_rev. apply slicerunetostring_ascii, Forall_rev, Hs.
Qed.

Lemma reverse_ascii_witness :
  Forall (fun c => Z_of_byte c < 0x80) (lit "sub.example.com") /\
  reverse (lit "sub.example.com") = rev (lit "sub.example.com").
Proof.
  assert (H : Forall (fun c => Z_of_byte c < 0x80) (lit "sub.example.com"))
    by (repeat constructor).
  split; [exact H | exact (reverse_ascii (lit "sub.example.com") H)].
Defined.

(** X3.  Text behind a well-formed string does not change how the
    string is read, and [reverse] turns a concatenation around: when [a]
    is well-formed UTF-8, the runes of [a ++ b] are those of [a]
    followed by those of [b], and the reversal of [a ++ b] is the
    reversal of [b] followed by the reversal of [a]. *)
Theorem reverse_app (a b : gostring) :
  Utf8.valid a = true ->
  Utf8.stringtoslicerune (a ++ b)
  = Utf8.stringtoslicerune a ++ Utf8.stringtoslicerune b /\
  reverse (a ++ b) = reverse b ++ reverse a.
Proof.
  intros Ha. split; [now apply stringtoslicerune_app |].
  rewrite !reverse_runes, stringtoslicerune_app by exact Ha.
  rewrite rev_app_distr. apply flat_map_app.
Qed.

Lemma reverse_app_witness :
  Utf8.valid (lit "sub.") = true /\
  Utf8.stringtoslicerune (lit "sub." ++ [Byte.xff; Byte.x61])
  = Utf8.stringtoslicerune (lit "sub.") ++ Utf8.stringtoslicerune [Byte.xff; Byte.x61] /\
  reverse (lit "sub." ++ [Byte.xff; Byte.x61])
  = reverse [Byte.xff; Byte.x61] ++ reverse (lit "sub.").
Proof.
  assert (H : Utf8.valid (lit "sub.") = true) by reflexivity.
  split; [exact H | exact (reverse_app (lit "sub.") [Byte.xff; Byte.x61] H)].
Defined.

(** X4.  Suffix search is prefix search on the transformed strings: for
    well-formed UTF-8, the transformed key starts with the transformed
    suffix exactly when the key is some well-formed text followed by the
    suffix. *)
Theorem suffix_is_prefix_of_reversed (key suffix : gostring) :
  Utf8.valid key = true -> Utf8.valid suffix = true ->
  hasPrefix (reverse key) (reverse suffix) = true <->
  exists x, Utf8.valid x = true /\ key = x ++ suffix.
Proof.
  intros Hk Hs. split; [now apply reverse_prefix_suffix |].
  intros (x & Hx & ->). rewrite reverse_app_valid by exact Hx.
  apply hasPrefix_app.
Qed.

Lemma suffix_is_prefix_of_reversed_witness :
  Utf8.valid (lit "sub.example.com") = true /\ Utf8.valid (lit "example.com") = true /\
  (hasPrefix (reverse (lit "sub.example.com")) (reverse (lit "example.com")) = true <->
   exists x, Utf8.valid x = true /\ lit "sub.example.com" = x ++ lit "example.com").
Proof.
  split; [reflexivity |]. split; [reflexivity |].
  exact (suffix_is_prefix_of_reversed (lit "sub.example.com") (lit "example.com")
           eq_refl eq_refl).
Defined.

(** ** Byte order, prefixes and the sorted stores *)

Lemma byte_eqb_Z (x y : byte) : Byte.eqb x y = (Z_of_byte x =? Z_of_byte y).
Proof.
  destruct (Z.eqb_spec (Z_of_byte x) (Z_of_byte y)) as [E | N].
  - apply Z_of_byte_inj in E as ->. now apply Byte.byte_dec_lb.
  - destruct (Byte.eqb x y) eqn:E; [| reflexivity].
    apply Byte.byte_dec_bl in E as ->. congruence.
Qed.

Lemma bytesCompare_refl (a : bytes) : bytesCompare a a = Eq.
Proof. induction a as [|x a IH]; [reflexivity |]. cbn. now rewrite Z.compare_refl. Qed.

Lemma bytesCompare_eq (a : bytes) :
  forall b, bytesCompare a b = Eq -> a = b.
Proof.
  induction a as [|x a IH]; intros [|y b] H; try discriminate; [reflexivity |].
  cbn in H. destruct (Z.compare_spec (Z_of_byte x) (Z_of_byte y)) as [E | |];
    try discriminate.
  apply Z_of_byte_inj in E as ->. f_equal. now apply IH.
Qed.

Lemma bytesCompare_antisym (a : bytes) :
  forall b, bytesCompare b a = CompOpp (bytesCompare a b).
Proof.
  induction a as [|x a IH]; intros [|y b]; try reflexivity.
  cbn. rewrite (Z.compare_antisym (Z_of_byte x) (Z_of_byte y)).
  destruct (Z_of_byte x ?= Z_of_byte y); cbn; [apply IH | reflexivity | reflexivity].
Qed.

Lemma bytesCompare_trans (a : bytes) :
  forall b c, bytesCompare a b = Lt -> bytesCompare b c = Lt -> bytesCompare a c = Lt.
Proof.
  induction a as [|x a IH]; intros [|y b] [|z c] H1 H2; try discriminate;
    try reflexivity.
  cbn in *.
  destruct (Z.compare_spec (Z_of_byte x) (Z_of_byte y)) as [E1 | L1 | G1];
    try discriminate;
  destruct (Z.compare_spec (Z_of_byte y) (Z_of_byte z)) as [E2 | L2 | G2];
    try discriminate.
  - rewrite E1, E2, Z.compare_refl. eapply IH; eassumption.
  - rewrite E1. now apply Z.compare_lt_iff in L2 as ->.
  - rewrite <- E2. now apply Z.compare_lt_iff in L1 as ->.
  - assert (L : Z_of_byte x < Z_of_byte z) by lia.
    now apply Z.compare_lt_iff in L as ->.
Qed.

(** A key that starts with [p] is not below [p]. *)
Lemma hasPrefix_not_below (p : bytes) :
  forall k, hasPrefix k p = true -> bytesCompare k p <> Lt.
Proof.
  induction p as [|y p IH]; intros [|x k] H; cbn in *; try discriminate.
  rewrite byte_eqb_Z in H. apply andb_true_iff in H as [E H].
  apply Z.eqb_eq in E. rewrite E, Z.compare_refl. now apply IH.
Qed.

(** Past the keys that start with [p] no later key starts with [p]. *)
Lemma hasPrefix_past (p : bytes) :
  forall k1 k2,
    bytesCompare k1 p <> Lt -> hasPrefix k1 p = false ->
    bytesCompare k1 k2 = Lt -> hasPrefix k2 p = false.
Proof.
  induction p as [|y p IH]; intros k1 k2 Hge Hno Hlt.
  - destruct k1; discriminate.
  - destruct k1 as [|x k1]; [now cbn in Hge |].
    destruct k2 as [|z k2]; [reflexivity |].
    cbn in *. rewrite byte_eqb_Z in *.
    destruct (Z.compare_spec (Z_of_byte x) (Z_of_byte y)) as [E1 | L1 | G1];
      [| congruence |];
    destruct (Z.compare_spec (Z_of_byte x) (Z_of_byte z)) as [E2 | L2 | G2];
      try discriminate.
    + rewrite <- E1, E2, Z.eqb_refl in *. cbn [andb] in *. eapply IH; eassumption.
    + replace (Z_of_byte y =? Z_of_byte z) with false; [reflexivity |].
      symmetry. apply Z.eqb_neq. lia.
    + replace (Z_of_byte y =? Z_of_byte z) with false; [reflexivity |].
      symmetry. apply Z.eqb_neq. lia.
    + replace (Z_of_byte y =? Z_of_byte z) with false; [reflexivity |].
      symmetry. apply Z.eqb_neq. lia.
Qed.

Lemma hasPrefix_refl (k : bytes) : hasPrefix k k = true.
Proof. rewrite <- (app_nil_r k) at 1. apply hasPrefix_app. Qed.

Section Sorted.
Context {V : Type}.
Implicit Types (t : list (bytes * V)) (k p : bytes).

Lemma ascending_tail kv t : ascending (kv :: t) -> ascending t.
Proof. destruct kv. now intros [_ H]. Qed.

Lemma sortedPut_ascending k (v : V) t : ascending t -> ascending (sortedPut k v t).
Proof.
  induction t as [|[k' v'] t IH]; intros H; [now split |].
  destruct H as [Hk' Ht]. cbn [sortedPut].
  destruct (bytesCompare k k') eqn:E.
  - apply bytesCompare_eq in E as ->. now split.
  - split; [| now split]. constructor; [exact E |].
    eapply Forall_impl; [exact Hk' |].
    intros kv H. eapply bytesCompare_trans; eassumption.
  - split; [| now apply IH].
    apply sortedPut_Forall; [exact Hk' |].
    cbn. rewrite bytesCompare_antisym, E. reflexivity.
Qed.

Lemma sortedPut_In k (v : V) t : In (k, v) (sortedPut k v t).
Proof.
  induction t as [|[k' v'] t IH]; [now left |].
  cbn [sortedPut]. destruct (bytesCompare k k'); [now left | now left | now right].
Qed.

Lemma sortedPut_other k (v : V) t k0 v0 :
  k0 <> k -> In (k0, v0) t -> In (k0, v0) (sortedPut k v t).
Proof.
  intros Hne. induction t as [|[k' v'] t IH]; intros Hin; [destruct Hin |].
  cbn [sortedPut]. destruct (bytesCompare k k') eqn:E.
  - apply bytesCompare_eq in E as ->.
    destruct Hin as [[= -> ->] | Hin]; [congruence | now right].
  - now right.
  - destruct Hin as [Hin | Hin]; [now left | right; now apply IH].
Qed.

(** Every entry of the store after a write was written or was there. *)
Lemma sortedPut_from k (v : V) t kv :
  In kv (sortedPut k v t) -> kv = (k, v) \/ In kv t.
Proof.
  induction t as [|[k' v'] t IH]; cbn [sortedPut].
  - intros [<- | []]. now left.
  - destruct (bytesCompare k k').
    + intros [<- | H]; [now left | right; now right].
    + intros [<- | H]; [now left | now right].
    + intros [<- | H]; [right; now left |].
      destruct (IH H) as [-> | H']; [now left | right; now right].
Qed.

(** The keys skipped by [Seek] do not start with the prefix. *)
Lemma withPrefix_sortedSeek p t : withPrefix p (sortedSeek p t) = withPrefix p t.
Proof.
  induction t as [|[k v] t IH]; [reflexivity |].
  cbn [sortedSeek]. destruct (bytesCompare k p) eqn:E; try reflexivity.
  rewrite IH. unfold withPrefix. cbn [List.filter fst].
  destruct (hasPrefix k p) eqn:Hp; [| reflexivity].
  now apply hasPrefix_not_below in Hp.
Qed.

Lemma sortedSeek_ascending p t : ascending t -> ascending (sortedSeek p t).
Proof.
  induction t as [|[k v] t IH]; intros H; [exact I |].
  cbn [sortedSeek]. destruct (bytesCompare k p); try exact H.
  apply IH. now destruct H.
Qed.

Lemma sortedSeek_head p t k (v : V) rest :
  sortedSeek p t = (k, v) :: rest -> bytesCompare k p <> Lt.
Proof.
  induction t as [|[k' v'] t IH]; [discriminate |].
  cbn [sortedSeek]. destruct (bytesCompare k' p) eqn:E.
  - intros [= -> -> ->]. congruence.
  - exact IH.
  - intros [= -> -> ->]. congruence.
Qed.

Lemma withPrefix_none p t :
  Forall (fun kv => hasPrefix (fst kv) p = false) t -> withPrefix p t = [].
Proof.
  induction 1 as [|kv t H _ IH]; [reflexivity |].
  unfold withPrefix in *. cbn [List.filter]. now rewrite H.
Qed.

(** In an ascending cursor, once a key at or above the prefix does not
    start with it, nothing behind it does. *)
Lemma ascending_past p k (v : V) t :
  ascending ((k, v) :: t) -> bytesCompare k p <> Lt -> hasPrefix k p = false ->
  withPrefix p t = [].
Proof.
  intros [Hk _] Hge Hno. apply withPrefix_none.
  eapply Forall_impl; [exact Hk |].
  intros kv H. eapply hasPrefix_past; eassumption.
Qed.

End Sorted.

(** The cursor loop of the bbolt adapter collects the keys with the
    prefix and nothing else. *)
Lemma BBolt_scan_withPrefix (bprefix : bytes) (cursor : bbolt.Bucket) :
  forall records,
    ascending cursor ->
    match cursor with
    | [] => True
    | (k, _) :: _ => bytesCompare k bprefix <> Lt
    end ->
    BBolt_scan bprefix cursor records
    = records ++ map BBolt_recordOf (withPrefix bprefix cursor).
Proof.
  induction cursor as [|[k v] next IH]; intros records Ha Hge.
  - cbn. now rewrite app_nil_r.
  - cbn [BBolt_scan]. destruct (hasPrefix k bprefix) eqn:Hp.
    + rewrite IH.
      * unfold withPrefix. cbn [List.filter fst]. rewrite Hp. cbn [map].
        now rewrite <- app_assoc.
      * now destruct Ha.
      * destruct next as [|[k' v'] next]; [exact I |].
        destruct Ha as [Hk _]. apply Forall_cons in Hk as [Hk _]. cbn in Hk.
        apply hasPrefix_not_below in Hp.
        intros Hlt. apply Hp. eapply bytesCompare_trans; eassumption.
    + unfold withPrefix at 1. cbn [List.filter fst]. rewrite Hp.
      fold (withPrefix bprefix next).
      rewrite (ascending_past _ _ _ _ Ha Hge Hp). cbn. now rewrite app_nil_r.
Qed.

(** ** The bbolt adapter as a key-value store *)

Lemma BBolt_putRecords_fold (records : list KVRecord) :
  forall bucket bucket',
    BBolt_putRecords bucket records = inl bucket' ->
    bucket' = fold_left (fun t r => sortedPut (Key r) (Value r) t) records bucket.
Proof.
  induction records as [|r records IH]; intros bucket bucket' H.
  - now injection H as <-.
  - cbn [BBolt_putRecords] in H. unfold bbolt.BucketPut in H.
    destruct (len (Key r) =? 0); [discriminate |].
    destruct (bbolt.MaxKeySize <? len (Key r)); [discriminate |].
    destruct (bbolt.MaxValueSize <? len (Value r)); [discriminate |].
    cbn [fold_left]. now apply IH.
Qed.

Lemma fold_sortedPut_ascending {V} (f : KVRecord -> V) (records : list KVRecord) :
  forall t, ascending t ->
    ascending (fold_left (fun t r => sortedPut (Key r) (f r) t) records t).
Proof.
  induction records as [|r records IH]; intros t H; [exact H |].
  cbn [fold_left]. apply IH. now apply sortedPut_ascending.
Qed.

(** The entry of the last record written under a key is in the store. *)
Lemma fold_sortedPut_last {V} (f : KVRecord -> V) (pre post : list KVRecord) (r : KVRecord) :
  forall t,
    Forall (fun r' => Key r' <> Key r) post ->
    In (Key r, f r)
       (fold_left (fun t r => sortedPut (Key r) (f r) t) (pre ++ r :: post) t).
Proof.
  intros t Hpost. rewrite fold_left_app. cbn [fold_left].
  generalize (fold_left (fun t r => sortedPut (Key r) (f r) t) pre t) as t0.
  intros t0. pose proof (sortedPut_In (Key r) (f r) t0) as Hin.
  revert Hin. generalize (sortedPut (Key r) (f r) t0) as t1.
  induction Hpost as [|r' post Hne _ IH]; intros t1 Hin; [exact Hin |].
  cbn [fold_left]. apply IH. apply sortedPut_other; [congruence | exact Hin].
Qed.

(** Entries under keys that a batch does not write stay in the store. *)
Lemma fold_sortedPut_others {V} (f : KVRecord -> V) (records : list KVRecord) k0 (v0 : V) :
  Forall (fun r' => Key r' <> k0) records ->
  forall t, In (k0, v0) t ->
    In (k0, v0) (fold_left (fun t r => sortedPut (Key r) (f r) t) records t).
Proof.
  induction 1 as [|r records Hne _ IH]; intros t Hin; [exact Hin |].
  cbn [fold_left]. apply IH. apply sortedPut_other; [congruence | exact Hin].
Qed.

Lemma BBoltBackend_Put_inv (b b' : BBoltBackend) (records : list KVRecord) :
  BBoltBackend_Put b records = (b', None) ->
  bbolt.opened (db b) = true /\ bbolt.opened (db b') = true /\
  bbolt.root (db b')
  = Some (fold_left (fun t r => sortedPut (Key r) (Value r) t) records
                    (match bbolt.root (db b) with Some t => t | None => [] end)).
Proof.
  unfold BBoltBackend_Put, bbolt.Update, bbolt.CreateBucketIfNotExists.
  destruct (bbolt.opened (db b)) eqn:Ho; cbn [negb]; [| intros [=]].
  set (t0 := match bbolt.root (db b) with Some t => t | None => [] end).
  replace (match bbolt.root (db b) with Some b0 => inl b0 | None => inl [] end)
    with (@inl bbolt.Bucket error t0) by (subst t0; now destruct (bbolt.root (db b))).
  destruct (BBolt_putRecords t0 records) as [bucket' | e] eqn:E; [| intros [=]].
  apply BBolt_putRecords_fold in E as ->.
  destruct (bbolt.commits (db b)) as [|[e|] rest]; intros [= <-]; cbn; auto.
Qed.

Lemma BBoltBackend_Put_ascending (b : BBoltBackend) (records : list KVRecord) :
  BBolt_ascending b -> BBolt_ascending (fst (BBoltBackend_Put b records)).
Proof.
  intros Hb. destruct (BBoltBackend_Put b records) as [b' [e|]] eqn:E; cbn [fst].
  - destruct (BBoltBackend_Put_failed _ _ _ _ E) as [Hr _].
    intros bucket H. apply Hb. congruence.
  - destruct (BBoltBackend_Put_inv _ _ _ E) as (_ & _ & Hr).
    intros bucket H. rewrite Hr in H. injection H as <-.
    apply fold_sortedPut_ascending.
    destruct (bbolt.root (db b)) eqn:E0; [now apply Hb | exact I].
Qed.

Lemma putEach_BBolt_ascending (batches : list (list KVRecord)) :
  forall b : BBoltBackend, BBolt_ascending b -> BBolt_ascending (fst (putEach b batches)).
Proof.
  induction batches as [|records batches IH]; intros b Hb; [exact Hb |].
  cbn [putEach]. pose proof (BBoltBackend_Put_ascending b records Hb) as H1.
  change (@Put BBoltBackend _) with BBoltBackend_Put.
  destruct (BBoltBackend_Put b records) as [b1 e1]. cbn [fst] in H1.
  specialize (IH b1 H1). destruct (putEach b1 batches) as [b2 errs]. exact IH.
Qed.

Lemma putEach_BBolt_opened (batches : list (list KVRecord)) :
  forall b : BBoltBackend,
    bbolt.opened (db (fst (putEach b batches))) = bbolt.opened (db b).
Proof.
  induction batches as [|records batches IH]; intros b; [reflexivity |].
  cbn [putEach]. change (@Put BBoltBackend _) with BBoltBackend_Put.
  destruct (BBoltBackend_Put b records) as [b1 [e|]] eqn:E.
  - destruct (BBoltBackend_Put_failed _ _ _ _ E) as [_ Ho].
    specialize (IH b1). destruct (putEach b1 batches) as [b2 errs]. cbn [fst] in *. congruence.
  - destruct (BBoltBackend_Put_done _ _ _ E) as [_ Ho].
    specialize (IH b1). destruct (putEach b1 batches) as [b2 errs]. cbn [fst] in *. congruence.
Qed.

Lemma NewBBoltBackend_ascending (commits : list (option error)) :
  BBolt_ascending (NewBBoltBackend commits).
Proof. intros bucket [=]. Qed.

Lemma BBoltBackend_Search_withPrefix (b : BBoltBackend) (prefix : gostring) bucket :
  bbolt.opened (db b) = true -> bbolt.root (db b) = Some bucket -> ascending bucket ->
  BBoltBackend_Search b prefix
  = Returns (map BBolt_recordOf (withPrefix prefix bucket), None).
Proof.
  intros Ho Hr Ha. unfold BBoltBackend_Search, bbolt.View, bbolt.TxBucket.
  rewrite Ho, Hr. cbn [negb].
  rewrite BBolt_scan_withPrefix.
  - cbn [app]. now rewrite withPrefix_sortedSeek.
  - now apply sortedSeek_ascending.
  - destruct (sortedSeek prefix bucket) as [|[k v] rest] eqn:E; [exact I |].
    eapply sortedSeek_head; exact E.
Qed.

Lemma In_withPrefix {V} (p : bytes) (t : list (bytes * V)) kv :
  In kv (withPrefix p t) <-> In kv t /\ hasPrefix (fst kv) p = true.
Proof. unfold withPrefix. apply filter_In. Qed.

(** X5.  On a bbolt file that was new and has since been written by
    [Put] only, the bucket is in ascending key order without a key
    twice, and [Search] returns, without an error, exactly the entries
    whose key starts with the prefix, in that order. *)
Theorem BBoltBackend_Search_finds_prefix (commits : list (option error))
  (batches : list (list KVRecord)) (prefix : gostring) (bucket : bbolt.Bucket) :
  bbolt.root (db (fst (putEach (NewBBoltBackend commits) batches))) = Some bucket ->
  ascending bucket /\
  Search (fst (putEach (NewBBoltBackend commits) batches)) prefix
  = Returns (map BBolt_recordOf (withPrefix prefix bucket), None).
Proof.
  intros Hr.
  pose proof (putEach_BBolt_ascending batches _ (NewBBoltBackend_ascending commits)) as Ha.
  pose proof (putEach_BBolt_opened batches (NewBBoltBackend commits)) as Ho.
  split; [now apply Ha |].
  apply BBoltBackend_Search_withPrefix; [exact Ho | exact Hr | now apply Ha].
Qed.

Lemma BBoltBackend_Search_finds_prefix_witness :
  bbolt.root (db (fst (putEach (NewBBoltBackend [])
                         [[mkRecord (lit "moc.a") (lit "1"); mkRecord (lit "gro.b") (lit "2")];
                          [mkRecord (lit "moc.b") (lit "3")]])))
  = Some [(lit "gro.b", lit "2"); (lit "moc.a", lit "1"); (lit "moc.b", lit "3")] /\
  Search (fst (putEach (NewBBoltBackend [])
                 [[mkRecord (lit "moc.a") (lit "1"); mkRecord (lit "gro.b") (lit "2")];
                  [mkRecord (lit "moc.b") (lit "3")]])) (lit "moc")
  = Returns (map BBolt_recordOf
               (withPrefix (lit "moc")
                  [(lit "gro.b", lit "2"); (lit "moc.a", lit "1"); (lit "moc.b", lit "3")]),
             None).
Proof.
  split; [reflexivity |].
  exact (proj2 (BBoltBackend_Search_finds_prefix []
                  [[mkRecord (lit "moc.a") (lit "1"); mkRecord (lit "gro.b") (lit "2")];
                   [mkRecord (lit "moc.b") (lit "3")]]
                  (lit "moc") _ eq_refl)).
Defined.

(** X6.  Last write wins: after a [Put] that succeeded, [Search] on the
    key of a record of the batch finds that record, provided no later
    record of the batch has the same key; and a record that was found
    before under a key the batch does not write is still found. *)
Theorem BBoltBackend_Put_then_Search (b b' : BBoltBackend)
  (pre post : list KVRecord) (r : KVRecord) :
  BBolt_ascending b ->
  Put b (pre ++ r :: post) = (b', None) ->
  (Forall (fun r' => Key r' <> Key r) post ->
   exists found, Search b' (Key r) = Returns (found, None) /\ In r found) /\
  (forall prefix found0 r0,
     Search b prefix = Returns (found0, None) -> In r0 found0 ->
     Forall (fun r' => Key r' <> Key r0) (pre ++ r :: post) ->
     exists found, Search b' prefix = Returns (found, None) /\ In r0 found).
Proof.
  intros Hb HP. change (@Put BBoltBackend _) with BBoltBackend_Put in HP.
  pose proof (BBoltBackend_Put_ascending b (pre ++ r :: post) Hb) as Ha.
  rewrite HP in Ha. cbn [fst] in Ha.
  destruct (BBoltBackend_Put_inv _ _ _ HP) as (Ho & Ho' & Hr).
  specialize (Ha _ Hr).
  change (@Search BBoltBackend _) with BBoltBackend_Search.
  split.
  - intros Hpost. eexists. split.
    + apply BBoltBackend_Search_withPrefix; [exact Ho' | exact Hr | exact Ha].
    + apply in_map_iff. exists (Key r, Value r). split; [now destruct r |].
      apply In_withPrefix. split; [| apply hasPrefix_refl].
      now apply (fold_sortedPut_last Value).
  - intros prefix found0 r0 HS Hin Hkeys.
    destruct (bbolt.root (db b)) as [bucket0|] eqn:Hr0.
    2: { unfold BBoltBackend_Search, bbolt.View, bbolt.TxBucket in HS.
         rewrite Ho, Hr0 in HS. discriminate. }
    rewrite (BBoltBackend_Search_withPrefix b prefix bucket0 Ho Hr0 (Hb _ Hr0)) in HS.
    injection HS as <-.
    apply in_map_iff in Hin as ([k0 v0] & <- & [Hin Hp]%In_withPrefix).
    eexists. split.
    + apply BBoltBackend_Search_withPrefix; [exact Ho' | exact Hr | exact Ha].
    + apply in_map_iff. exists (k0, v0). split; [reflexivity |].
      apply In_withPrefix. split; [| exact Hp].
      now apply (fold_sortedPut_others Value).
Qed.

Lemma BBoltBackend_Put_then_Search_witness :
  exists found,
    Search (fst (Put (NewBBoltBackend [])
                     ([mkRecord (lit "a") (lit "1")] ++
                      mkRecord (lit "a") (lit "2") :: [mkRecord (lit "b") (lit "3")])))
           (Key (mkRecord (lit "a") (lit "2")))
    = Returns (found, None) /\
    In (mkRecord (lit "a") (lit "2")) found.
Proof.
  refine (proj1 (BBoltBackend_Put_then_Search (NewBBoltBackend []) _
                   [mkRecord (lit "a") (lit "1")] [mkRecord (lit "b") (lit "3")]
                   (mkRecord (lit "a") (lit "2"))
                   (NewBBoltBackend_ascending []) eq_refl) _).
  repeat constructor. discriminate.
Defined.

(** X7.  A [Put] that returns an error has stored nothing: whichever
    record or commit failed, every [Search] answers as before the call. *)
Theorem BBoltBackend_Put_all_or_nothing (b b' : BBoltBackend)
  (records : list KVRecord) (e : error) :
  Put b records = (b', Some e) ->
  forall prefix, Search b' prefix = Search b prefix.
Proof.
  intros HP prefix.
  destruct (BBoltBackend_Put_failed _ _ _ _ HP) as [Hr Ho].
  cbn [Search BBoltBackend_Backend].
  unfold BBoltBackend_Search, bbolt.View. now rewrite Hr, Ho.
Qed.

Lemma BBoltBackend_Put_all_or_nothing_witness :
  Put (mkBBolt (bbolt.mkDB true (Some [(lit "a", lit "1")]) [Some "disk full"%string]))
      [mkRecord (lit "b") (lit "2")]
  = (mkBBolt (bbolt.mkDB true (Some [(lit "a", lit "1")]) []), Some "disk full"%string) /\
  forall prefix,
    Search (mkBBolt (bbolt.mkDB true (Some [(lit "a", lit "1")]) [])) prefix
    = Search (mkBBolt (bbolt.mkDB true (Some [(lit "a", lit "1")]) [Some "disk full"%string]))
             prefix.
Proof.
  split; [reflexivity |].
  exact (BBoltBackend_Put_all_or_nothing
           (mkBBolt (bbolt.mkDB true (Some [(lit "a", lit "1")]) [Some "disk full"%string]))
           _ [mkRecord (lit "b") (lit "2")] "disk full"%string eq_refl).
Defined.

Lemma BBolt_putRecords_empty_key (records : list KVRecord) :
  Exists (fun r => Key r = []) records ->
  forall bucket, exists e, BBolt_putRecords bucket records = inr e.
Proof.
  induction 1 as [r records Hk | r records _ IH]; intros bucket.
  - cbn [BBolt_putRecords]. unfold bbolt.BucketPut. rewrite Hk.
    now exists bbolt.ErrKeyRequired.
  - cbn [BBolt_putRecords].
    destruct (bbolt.BucketPut bucket (Key r) (Value r)) as [bucket' | e];
      [apply IH | now exists e].
Qed.

(** X8.  A batch with a record whose key is empty is refused as a whole
    by the bbolt adapter: [Put] returns an error and leaves the backend
    as it was, also for the records that stand before that one. *)
Theorem BBoltBackend_Put_rejects_empty_key (b : BBoltBackend) (records : list KVRecord) :
  Exists (fun r => Key r = []) records ->
  exists e, Put b records = (b, Some e).
Proof.
  intros H. cbn [Put BBoltBackend_Backend].
  unfold BBoltBackend_Put, bbolt.Update, bbolt.CreateBucketIfNotExists.
  destruct b as [d]. cbn [db].
  destruct (bbolt.opened d); cbn [negb]; [| now eexists].
  destruct (bbolt.root d) as [bucket|].
  - destruct (BBolt_putRecords_empty_key records H bucket) as [e ->]. now exists e.
  - destruct (BBolt_putRecords_empty_key records H []) as [e ->]. now exists e.
Qed.

Lemma BBoltBackend_Put_rejects_empty_key_witness :
  Exists (fun r => Key r = []) [mkRecord (lit "a") (lit "1"); mkRecord [] (lit "2")] /\
  exists e, Put (NewBBoltBackend [])
                [mkRecord (lit "a") (lit "1"); mkRecord [] (lit "2")]
            = (NewBBoltBackend [], Some e).
Proof.
  assert (H : Exists (fun r => Key r = [])
                     [mkRecord (lit "a") (lit "1"); mkRecord [] (lit "2")])
    by (right; left; reflexivity).
  split; [exact H | exact (BBoltBackend_Put_rejects_empty_key (NewBBoltBackend []) _ H)].
Defined.

(** ** The badger adapter as a key-value store *)

Lemma Badger_setRecords_entries (records : list KVRecord) :
  forall wb wb',
    Badger_setRecords wb records = inl wb' -> wb' = wb ++ map entryOf records.
Proof.
  induction records as [|r records IH]; intros wb wb' H.
  - injection H as <-. cbn. now rewrite app_nil_r.
  - cbn [Badger_setRecords] in H. unfold badger.Set_ in H.
    destruct (len (Key r) =? 0); [discriminate |].
    apply IH in H as ->. cbn [map]. now rewrite <- app_assoc.
Qed.

Lemma fold_left_mapped {A B C} (f : A -> B -> A) (g : C -> B) (l : list C) :
  forall a, fold_left f (map g l) a = fold_left (fun a c => f a (g c)) l a.
Proof. induction l as [|c l IH]; intros a; [reflexivity | apply IH]. Qed.

Lemma BadgerDBBackend_Put_inv (b b' : BadgerDBBackend) (records : list KVRecord) :
  BadgerDBBackend_Put b records = (b', None) ->
  badger.closed (bdb b) = false /\ badger.closed (bdb b') = false /\
  badger.table (bdb b')
  = fold_left (fun t r => sortedPut (Key r) (badger.mkItem (Value r) None) t)
              records (badger.table (bdb b)).
Proof.
  unfold BadgerDBBackend_Put.
  destruct (Badger_setRecords [] records) as [wb | e] eqn:E; [| intros [=]].
  apply Badger_setRecords_entries in E as ->. cbn [app].
  unfold badger.Flush. destruct (badger.closed (bdb b)) eqn:Hc; [intros [=] |].
  rewrite fold_left_mapped. cbn [entryOf fst snd].
  destruct (badger.flushes (bdb b)) as [|[e|] rest]; intros [= <-]; cbn; auto.
Qed.

Lemma BadgerDBBackend_Put_failed (b b' : BadgerDBBackend) (records : list KVRecord) e :
  BadgerDBBackend_Put b records = (b', Some e) ->
  badger.table (bdb b') = badger.table (bdb b) /\
  badger.closed (bdb b') = badger.closed (bdb b).
Proof.
  unfold BadgerDBBackend_Put.
  destruct (Badger_setRecords [] records) as [wb | e']; [| now intros [= <- _]].
  unfold badger.Flush. destruct (badger.closed (bdb b)) eqn:Hc.
  { intros [= <- _]. cbn. now rewrite Hc. }
  destruct (badger.flushes (bdb b)) as [|[e'|] rest]; intros [= <-]; try discriminate.
  cbn. auto.
Qed.

Lemma fold_sortedPut_Forall {V} (P : bytes * V -> Prop) (f : KVRecord -> V)
  (records : list KVRecord) :
  (forall r, P (Key r, f r)) ->
  forall t, Forall P t ->
    Forall P (fold_left (fun t r => sortedPut (Key r) (f r) t) records t).
Proof.
  intros Hf. induction records as [|r records IH]; intros t H; [exact H |].
  cbn [fold_left]. apply IH. now apply sortedPut_Forall.
Qed.

Lemma BadgerDBBackend_Put_sound (b : BadgerDBBackend) (records : list KVRecord) :
  Badger_sound b -> Badger_sound (fst (BadgerDBBackend_Put b records)).
Proof.
  intros [Ha Hf]. destruct (BadgerDBBackend_Put b records) as [b' [e|]] eqn:E; cbn [fst].
  - destruct (BadgerDBBackend_Put_failed _ _ _ _ E) as [Ht _].
    unfold Badger_sound. now rewrite Ht.
  - destruct (BadgerDBBackend_Put_inv _ _ _ E) as (_ & _ & Ht).
    unfold Badger_sound. rewrite Ht. split.
    + now apply fold_sortedPut_ascending.
    + now apply fold_sortedPut_Forall.
Qed.

Lemma putEach_Badger_sound (batches : list (list KVRecord)) :
  forall b : BadgerDBBackend,
    Badger_sound b ->
    Badger_sound (fst (putEach b batches)) /\
    badger.closed (bdb (fst (putEach b batches))) = badger.closed (bdb b).
Proof.
  induction batches as [|records batches IH]; intros b Hb; [now split |].
  cbn [putEach]. pose proof (BadgerDBBackend_Put_sound b records Hb) as H1.
  change (@Put BadgerDBBackend _) with BadgerDBBackend_Put.
  assert (Hc : badger.closed (bdb (fst (BadgerDBBackend_Put b records)))
               = badger.closed (bdb b)).
  { destruct (BadgerDBBackend_Put b records) as [b1 [e|]] eqn:E; cbn [fst].
    - now destruct (BadgerDBBackend_Put_failed _ _ _ _ E).
    - destruct (BadgerDBBackend_Put_inv _ _ _ E) as (-> & -> & _). reflexivity. }
  destruct (BadgerDBBackend_Put b records) as [b1 e1]. cbn [fst] in H1, Hc.
  destruct (IH b1 H1) as [IH1 IH2]. destruct (putEach b1 batches) as [b2 errs].
  cbn [fst] in *. split; [exact IH1 | congruence].
Qed.

(** Without a value that cannot be read, the iterator loop collects the
    keys with the prefix and nothing else. *)
Lemma Badger_iterate_withPrefix (bprefix : bytes) (it : list (bytes * badger.Item)) :
  forall records,
    ascending it ->
    Forall (fun kv => badger.fault (snd kv) = None) it ->
    match it with
    | [] => True
    | (k, _) :: _ => bytesCompare k bprefix <> Lt
    end ->
    Badger_iterate bprefix it records
    = (records ++ map Badger_recordOf (withPrefix bprefix it), None).
Proof.
  induction it as [|[k item] next IH]; intros records Ha Hf Hge.
  - cbn. now rewrite app_nil_r.
  - cbn [Badger_iterate]. apply Forall_cons in Hf as [Hitem Hf].
    destruct (hasPrefix k bprefix) eqn:Hp.
    + unfold badger.ValueCopy. cbn [snd] in Hitem. rewrite Hitem.
      rewrite IH.
      * unfold withPrefix. cbn [List.filter fst]. rewrite Hp. cbn [map].
        now rewrite <- app_assoc.
      * now destruct Ha.
      * exact Hf.
      * destruct next as [|[k' v'] next]; [exact I |].
        destruct Ha as [Hk _]. apply Forall_cons in Hk as [Hk _]. cbn in Hk.
        apply hasPrefix_not_below in Hp.
        intros Hlt. apply Hp. eapply bytesCompare_trans; eassumption.
    + unfold withPrefix at 1. cbn [List.filter fst]. rewrite Hp.
      fold (withPrefix bprefix next).
      rewrite (ascending_past _ _ _ _ Ha Hge Hp). cbn. now rewrite app_nil_r.
Qed.

Lemma BadgerDBBackend_Search_withPrefix (b : BadgerDBBackend) (prefix : gostring) :
  badger.closed (bdb b) = false -> Badger_sound b ->
  BadgerDBBackend_Search b prefix
  = Returns (map Badger_recordOf (withPrefix prefix (badger.table (bdb b))), None).
Proof.
  intros Hc [Ha Hf]. unfold BadgerDBBackend_Search, Badger_view. rewrite Hc.
  rewrite Badger_iterate_withPrefix.
  - cbn [app]. now rewrite withPrefix_sortedSeek.
  - now apply sortedSeek_ascending.
  - now apply sortedSeek_Forall.
  - destruct (sortedSeek prefix (badger.table (bdb b))) as [|[k v] rest] eqn:E; [exact I |].
    eapply sortedSeek_head; exact E.
Qed.

Lemma NewBadgerDBBackend_sound (flushes : list (option error)) :
  Badger_sound (NewBadgerDBBackend flushes).
Proof. split; [exact I | constructor]. Qed.

(** X9.  On a badger store that was new and has since been written by
    [Put] only, the table is in ascending key order and [Search] returns
    exactly the entries whose key starts with the prefix, in that order. *)
Theorem BadgerDBBackend_Search_finds_prefix (flushes : list (option error))
  (batches : list (list KVRecord)) (prefix : gostring) :
  ascending (badger.table (bdb (fst (putEach (NewBadgerDBBackend flushes) batches)))) /\
  Search (fst (putEach (NewBadgerDBBackend flushes) batches)) prefix
  = Returns (map Badger_recordOf
               (withPrefix prefix
                  (badger.table (bdb (fst (putEach (NewBadgerDBBackend flushes) batches))))),
             None).
Proof.
  destruct (putEach_Badger_sound batches _ (NewBadgerDBBackend_sound flushes)) as [Hs Hc].
  split; [apply Hs |].
  apply BadgerDBBackend_Search_withPrefix; [exact Hc | exact Hs].
Qed.

(** X10.  Last write wins in the badger adapter: after a [Put] that
    succeeded, [Search] on the key of a record of the batch finds that
    record, provided no later record of the batch has the same key. *)
Theorem BadgerDBBackend_Put_then_Search (b b' : BadgerDBBackend)
  (pre post : list KVRecord) (r : KVRecord) :
  Badger_sound b ->
  Put b (pre ++ r :: post) = (b', None) ->
  Forall (fun r' => Key r' <> Key r) post ->
  exists found, Search b' (Key r) = Returns (found, None) /\ In r found.
Proof.
  intros Hb HP Hpost. change (@Put BadgerDBBackend _) with BadgerDBBackend_Put in HP.
  pose proof (BadgerDBBackend_Put_sound b (pre ++ r :: post) Hb) as Hs.
  rewrite HP in Hs. cbn [fst] in Hs.
  destruct (BadgerDBBackend_Put_inv _ _ _ HP) as (_ & Hc' & Ht).
  change (@Search BadgerDBBackend _) with BadgerDBBackend_Search.
  eexists. split; [apply BadgerDBBackend_Search_withPrefix; assumption |].
  apply in_map_iff. exists (Key r, badger.mkItem (Value r) None).
  split; [now destruct r |].
  apply In_withPrefix. split; [| apply hasPrefix_refl].
  rewrite Ht. now apply (fold_sortedPut_last (fun r => badger.mkItem (Value r) None)).
Qed.

Lemma BadgerDBBackend_Put_then_Search_witness :
  exists found,
    Search (fst (Put (NewBadgerDBBackend [])
                     ([mkRecord (lit "a") (lit "1")] ++
                      mkRecord (lit "a") (lit "2") :: [mkRecord (lit "b") (lit "3")])))
           (Key (mkRecord (lit "a") (lit "2")))
    = Returns (found, None) /\
    In (mkRecord (lit "a") (lit "2")) found.
Proof.
  refine (BadgerDBBackend_Put_then_Search (NewBadgerDBBackend []) _
            [mkRecord (lit "a") (lit "1")] [mkRecord (lit "b") (lit "3")]
            (mkRecord (lit "a") (lit "2"))
            (NewBadgerDBBackend_sound []) eq_refl _).
  repeat constructor. discriminate.
Defined.

(** ** The LevelDB adapter: key ranges and prefixes *)

Lemma prefixLimit_app (fuel : nat) (q t : bytes) :
  forall i, i < len q ->
    leveldb.prefixLimit fuel (q ++ t) i = leveldb.prefixLimit fuel q i.
Proof.
  unfold len. induction fuel as [|fuel IH]; intros i Hi; [reflexivity |].
  cbn [leveldb.prefixLimit]. destruct (Z.ltb_spec i 0) as [|H0]; [reflexivity |].
  unfold bytes in *. rewrite lookup_app_l by lia.
  destruct (q !! Z.to_nat i) as [c|]; [| reflexivity].
  replace (take (Z.to_nat (i + 1)) (q ++ t)) with (take (Z.to_nat (i + 1)) q)
    by (symmetry; apply take_app_le; lia).
  destruct (Z_of_byte c <? 255); [reflexivity |]. apply IH. lia.
Qed.

Lemma prefixLimit_snoc (q : bytes) (c : byte) :
  leveldb.prefixLimit (length (q ++ [c])) (q ++ [c]) (len (q ++ [c]) - 1)
  = if Z_of_byte c <? 0xff then Some (q ++ [byte_of_Z (Z_of_byte c + 1)])
    else leveldb.prefixLimit (length q) q (len q - 1).
Proof.
  unfold len. rewrite length_app. cbn [length].
  replace (length q + 1)%nat with (S (length q)) by lia.
  cbn [leveldb.prefixLimit].
  destruct (Z.ltb_spec (Z.of_nat (S (length q)) - 1) 0) as [|_]; [lia |].
  replace (Z.to_nat (Z.of_nat (S (length q)) - 1)) with (length q) by lia.
  replace (Z.to_nat (Z.of_nat (S (length q)) - 1 + 1)) with (S (length q)) by lia.
  unfold bytes in *. rewrite list_lookup_middle by reflexivity.
  destruct (Z_of_byte c <? 255).
  - f_equal. rewrite take_ge by (rewrite length_app; cbn; lia).
    now rewrite insert_app_r_alt, Nat.sub_diag by lia.
  - replace (Z.of_nat (S (length q)) - 1 - 1) with (Z.of_nat (length q) - 1) by lia.
    apply (prefixLimit_app (length q) q [c]). unfold len. lia.
Qed.

Lemma limitOf_snoc (q : bytes) (c : byte) :
  limitOf (q ++ [c])
  = if Z_of_byte c <? 0xff then Some (q ++ [byte_of_Z (Z_of_byte c + 1)])
    else limitOf q.
Proof.
  induction q as [|x q IH]; cbn [app limitOf].
  - now destruct (Z_of_byte c <? 255).
  - rewrite IH. now destruct (Z_of_byte c <? 255).
Qed.

(** The loop of [util.BytesPrefix] finds the limit. *)
Lemma prefixLimit_limitOf (prefix : bytes) :
  leveldb.prefixLimit (length prefix) prefix (len prefix - 1) = limitOf prefix.
Proof.
  induction prefix as [|c q IH] using rev_ind; [reflexivity |].
  now rewrite prefixLimit_snoc, limitOf_snoc, IH.
Qed.

(** From the prefix on, the keys below the limit are the keys that
    start with the prefix. *)
Lemma belowLimit_hasPrefix (p : bytes) :
  forall k, bytesCompare k p <> Lt ->
    leveldb.belowLimit (limitOf p) k = hasPrefix k p.
Proof.
  induction p as [|c p IH]; intros k Hge.
  - now destruct k.
  - destruct k as [|x k]; [now cbn in Hge |].
    cbn [bytesCompare] in Hge. cbn [hasPrefix limitOf]. rewrite byte_eqb_Z.
    pose proof (Z_of_byte_range x) as Hx. pose proof (Z_of_byte_range c) as Hc.
    destruct (Z.compare_spec (Z_of_byte x) (Z_of_byte c)) as [E | L | G];
      [| congruence |].
    + rewrite E, Z.eqb_refl. cbn [andb]. rewrite <- (IH k Hge).
      destruct (limitOf p) as [l|].
      * cbn [leveldb.belowLimit bytesCompare]. now rewrite E, Z.compare_refl.
      * destruct (Z.ltb_spec (Z_of_byte c) 255) as [Hlt|]; [| reflexivity].
        cbn [leveldb.belowLimit bytesCompare].
        rewrite Z_of_byte_of_Z, Z.mod_small by lia.
        replace (Z_of_byte x ?= Z_of_byte c + 1) with Lt; [reflexivity |].
        symmetry. apply Z.compare_lt_iff. lia.
    + replace (Z_of_byte c =? Z_of_byte x) with false
        by (symmetry; apply Z.eqb_neq; lia).
      cbn [andb]. destruct (limitOf p) as [l|].
      * cbn [leveldb.belowLimit bytesCompare].
        replace (Z_of_byte x ?= Z_of_byte c) with Gt; [reflexivity |].
        symmetry. apply Z.compare_gt_iff. lia.
      * destruct (Z.ltb_spec (Z_of_byte c) 255) as [Hlt|]; [| lia].
        cbn [leveldb.belowLimit bytesCompare].
        rewrite Z_of_byte_of_Z, Z.mod_small by lia.
        destruct (Z.compare_spec (Z_of_byte x) (Z_of_byte c + 1)); [| lia |].
        -- now destruct k.
        -- reflexivity.
Qed.

(** Over readable entries the iterator collects the keys that start
    with the prefix and nothing else. *)
Lemma leveldb_iterate_withPrefix (p : bytes) (it : list (bytes * leveldb.Entry)) :
  ascending it ->
  Forall (fun kv => leveldb.fault (snd kv) = None) it ->
  match it with
  | [] => True
  | (k, _) :: _ => bytesCompare k p <> Lt
  end ->
  leveldb.iterate (limitOf p) it
  = (map (fun kv => (fst kv, leveldb.value (snd kv))) (withPrefix p it), None).
Proof.
  induction it as [|[k entry] next IH]; intros Ha Hf Hge; [reflexivity |].
  cbn [leveldb.iterate]. apply Forall_cons in Hf as [Hentry Hf].
  rewrite (belowLimit_hasPrefix p k Hge).
  unfold withPrefix at 1. cbn [List.filter fst]. fold (withPrefix p next).
  destruct (hasPrefix k p) eqn:Hp.
  - cbn [snd] in Hentry. rewrite Hentry, IH; [reflexivity | now destruct Ha | exact Hf |].
    destruct next as [|[k' v'] next]; [exact I |].
    destruct Ha as [Hk _]. apply Forall_cons in Hk as [Hk _]. cbn in Hk.
    intros Hlt. apply Hge. eapply bytesCompare_trans; eassumption.
  - now rewrite (ascending_past _ _ _ _ Ha Hge Hp).
Qed.

(** Up to an entry that cannot be read the iterator collects what it
    reads, and ends with the error of that entry. *)
Lemma leveldb_iterate_fault (p : bytes) (pre : list (bytes * leveldb.Entry)) :
  forall key entry post e,
    Forall (fun kv => hasPrefix (fst kv) p = true /\
                      leveldb.fault (snd kv) = None) pre ->
    hasPrefix key p = true ->
    leveldb.fault entry = Some e ->
    leveldb.iterate (limitOf p) (pre ++ (key, entry) :: post)
    = (map (fun kv => (fst kv, leveldb.value (snd kv))) pre, Some e).
Proof.
  induction pre as [|[k v] pre IH]; intros key entry post e Hpre Hk Hf.
  - cbn [app leveldb.iterate map].
    rewrite belowLimit_hasPrefix by now apply hasPrefix_not_below.
    now rewrite Hk, Hf.
  - apply Forall_cons in Hpre as [[Hp Hv] Hpre]. cbn [fst snd] in Hp, Hv.
    cbn [app leveldb.iterate map fst snd].
    rewrite belowLimit_hasPrefix by now apply hasPrefix_not_below.
    now rewrite Hp, Hv, (IH key entry post e Hpre Hk Hf).
Qed.

Lemma LevelDB_append_fold (seen : list (bytes * bytes)) :
  forall records,
    fold_left LevelDB_append seen records
    = records ++ map (fun kv => mkRecord (fst kv) (snd kv)) seen.
Proof.
  induction seen as [|kv seen IH]; intros records; cbn [fold_left map].
  - now rewrite app_nil_r.
  - rewrite IH. unfold LevelDB_append, copyBytes. now rewrite <- app_assoc.
Qed.

Lemma LevelDB_batch_entries (records : list KVRecord) :
  LevelDB_batch records = map entryOf records.
Proof.
  unfold LevelDB_batch.
  enough (G : forall batch,
             fold_left (fun batch r => leveldb.BatchPut batch (Key r) (Value r))
                       records batch
             = batch ++ map entryOf records) by apply (G []).
  induction records as [|r records IH]; intros batch; cbn [fold_left map].
  - now rewrite app_nil_r.
  - rewrite IH. unfold leveldb.BatchPut. now rewrite <- app_assoc.
Qed.

Lemma LevelDBBackend_Put_table (b : LevelDBBackend) (records : list KVRecord) :
  leveldb.closed (ldb (fst (LevelDBBackend_Put b records))) = leveldb.closed (ldb b) /\
  (leveldb.table (ldb (fst (LevelDBBackend_Put b records))) = leveldb.table (ldb b) \/
   leveldb.table (ldb (fst (LevelDBBackend_Put b records)))
   = fold_left (fun t r => sortedPut (Key r) (leveldb.mkEntry (Value r) None) t)
               records (leveldb.table (ldb b))).
Proof.
  unfold LevelDBBackend_Put, leveldb.Write. rewrite LevelDB_batch_entries.
  destruct (leveldb.closed (ldb b)) eqn:Hc; [cbn; auto |].
  destruct (len (map entryOf records) =? 0); [cbn; auto |].
  rewrite fold_left_mapped. cbn [entryOf fst snd].
  destruct (leveldb.writes (ldb b)) as [|[e|] rest]; cbn; auto.
Qed.

Lemma LevelDBBackend_Put_sound (b : LevelDBBackend) (records : list KVRecord) :
  LevelDB_sound b -> LevelDB_sound (fst (LevelDBBackend_Put b records)).
Proof.
  intros [Ha Hf]. destruct (LevelDBBackend_Put_table b records) as [_ [Ht | Ht]];
    unfold LevelDB_sound; rewrite Ht; [now split |].
  split; [now apply fold_sortedPut_ascending | now apply fold_sortedPut_Forall].
Qed.

Lemma putEach_LevelDB_sound (batches : list (list KVRecord)) :
  forall b : LevelDBBackend,
    LevelDB_sound b ->
    LevelDB_sound (fst (putEach b batches)) /\
    leveldb.closed (ldb (fst (putEach b batches))) = leveldb.closed (ldb b).
Proof.
  induction batches as [|records batches IH]; intros b Hb; [now split |].
  cbn [putEach]. pose proof (LevelDBBackend_Put_sound b records Hb) as H1.
  destruct (LevelDBBackend_Put_table b records) as [Hc _].
  change (@Put LevelDBBackend _) with LevelDBBackend_Put.
  destruct (LevelDBBackend_Put b records) as [b1 e1]. cbn [fst] in H1, Hc.
  destruct (IH b1 H1) as [IH1 IH2]. destruct (putEach b1 batches) as [b2 errs].
  cbn [fst] in *. split; [exact IH1 | congruence].
Qed.

Lemma LevelDBBackend_Search_withPrefix (b : LevelDBBackend) (prefix : gostring) :
  leveldb.closed (ldb b) = false -> LevelDB_sound b ->
  LevelDBBackend_Search b prefix
  = Returns (map LevelDB_recordOf (withPrefix prefix (leveldb.table (ldb b))), None).
Proof.
  intros Hc [Ha Hf]. unfold LevelDBBackend_Search, leveldb.NewIterator, leveldb.BytesPrefix.
  rewrite Hc. cbn [leveldb.Limit leveldb.Start]. rewrite prefixLimit_limitOf.
  rewrite leveldb_iterate_withPrefix.
  - rewrite LevelDB_append_fold, withPrefix_sortedSeek. cbn [app].
    now rewrite map_map.
  - now apply sortedSeek_ascending.
  - now apply sortedSeek_Forall.
  - destruct (sortedSeek prefix (leveldb.table (ldb b))) as [|[k v] rest] eqn:E; [exact I |].
    eapply sortedSeek_head; exact E.
Qed.

(** X11.  On a LevelDB store that was new and has since been written by
    [Put] only, [Search] returns exactly the entries whose key starts
    with the prefix, in ascending key order: the key range that
    [util.BytesPrefix] makes of a prefix holds those keys and no others. *)
Theorem LevelDBBackend_Search_finds_prefix (writes : list (option error))
  (batches : list (list KVRecord)) (prefix : gostring) :
  ascending (leveldb.table (ldb (fst (putEach (NewLevelDBBackend writes) batches)))) /\
  Search (fst (putEach (NewLevelDBBackend writes) batches)) prefix
  = Returns (map LevelDB_recordOf
               (withPrefix prefix
                  (leveldb.table (ldb (fst (putEach (NewLevelDBBackend writes) batches))))),
             None).
Proof.
  assert (H0 : LevelDB_sound (NewLevelDBBackend writes)) by (split; [exact I | constructor]).
  destruct (putEach_LevelDB_sound batches _ H0) as [Hs Hc].
  split; [apply Hs |].
  apply LevelDBBackend_Search_withPrefix; [exact Hc | exact Hs].
Qed.

(** X12.  The LevelDB adapter gives up what it has read when the
    iterator ends in an error: [Search] then returns the error and no
    record, also not the records read before the entry that failed; on a
    closed database it returns the error of the closed database. *)
Theorem LevelDBBackend_Search_error_gives_no_records :
  (forall (b : LevelDBBackend) (prefix : gostring),
      leveldb.closed (ldb b) = true ->
      Search b prefix = Returns ([], Some leveldb.ErrClosed)) /\
  (forall (b : LevelDBBackend) (prefix : gostring) pre key entry post e,
      leveldb.closed (ldb b) = false ->
      sortedSeek prefix (leveldb.table (ldb b)) = pre ++ (key, entry) :: post ->
      Forall (fun kv => hasPrefix (fst kv) prefix = true /\
                        leveldb.fault (snd kv) = None) pre ->
      hasPrefix key prefix = true ->
      leveldb.fault entry = Some e ->
      leveldb.NewIterator (ldb b) (leveldb.BytesPrefix prefix)
      = (map (fun kv => (fst kv, leveldb.value (snd kv))) pre, Some e) /\
      Search b prefix = Returns ([], Some e)).
Proof.
  split.
  - intros b prefix Hc. cbn [Search LevelDBBackend_Backend].
    unfold LevelDBBackend_Search, leveldb.NewIterator. now rewrite Hc.
  - intros b prefix pre key entry post e Hc Hseek Hpre Hk Hf.
    assert (Hi : leveldb.NewIterator (ldb b) (leveldb.BytesPrefix prefix)
                 = (map (fun kv => (fst kv, leveldb.value (snd kv))) pre, Some e)).
    { unfold leveldb.NewIterator, leveldb.BytesPrefix. rewrite Hc.
      cbn [leveldb.Limit leveldb.Start]. rewrite prefixLimit_limitOf, Hseek.
      now apply leveldb_iterate_fault. }
    split; [exact Hi |]. cbn [Search LevelDBBackend_Backend].
    unfold LevelDBBackend_Search. now rewrite Hi.
Qed.

Lemma LevelDBBackend_Search_error_gives_no_records_witness :
  leveldb.NewIterator (ldb faultyLevelDB) (leveldb.BytesPrefix (lit "moc."))
  = ([(lit "moc.a", lit "1")], Some "checksum mismatch"%string) /\
  Search faultyLevelDB (lit "moc.") = Returns ([], Some "checksum mismatch"%string).
Proof.
  apply (proj2 LevelDBBackend_Search_error_gives_no_records faultyLevelDB (lit "moc.")
           [(lit "moc.a", leveldb.mkEntry (lit "1") None)]
           (lit "moc.b") (leveldb.mkEntry (lit "2") (Some "checksum mismatch"%string))
           [(lit "moc.c", leveldb.mkEntry (lit "3") None)] "checksum mismatch"%string).
  - reflexivity.
  - reflexivity.
  - repeat constructor.
  - reflexivity.
  - reflexivity.
Defined.

(** ** The log and the counter of the loader *)

Section LoaderLog.
Variable EachKey : bytes -> list EachKeyCall.
Context {B : Type} `{Backend B}.

Lemma omap_cons_match {X Y} (f : X -> option Y) (x : X) (l : list X) :
  omap f (x :: l) = match f x with Some y => y :: omap f l | None => omap f l end.
Proof. reflexivity. Qed.

Lemma onKey_logs (calls : list EachKeyCall) :
  forall key value logs,
    snd (fold_left onKey calls (key, value, logs)) = logs ++ omap parseErrorOf calls.
Proof.
  induction calls as [|c calls IH]; intros key value logs; cbn [fold_left].
  - cbn. now rewrite app_nil_r.
  - unfold onKey at 2. rewrite omap_cons_match. unfold parseErrorOf at 1.
    destruct (cbErr c) as [e|].
    + rewrite IH, <- app_assoc. reflexivity.
    + destruct (idx c =? 0); [apply IH |]. destruct (idx c =? 1); apply IH.
Qed.

Lemma parseLine_logs (data : bytes) :
  snd (parseLine EachKey data) = omap parseErrorOf (EachKey data).
Proof.
  unfold parseLine, fields.
  pose proof (onKey_logs (EachKey data) [] [] []) as Hl.
  cbn [app] in Hl.
  destruct (fold_left onKey (EachKey data) ([], [], [])) as [[key value] logs] eqn:E.
  assert (Hlogs : logs = omap parseErrorOf (EachKey data)).
  { change logs with (snd (key, value, logs)). rewrite <- E. exact Hl. }
  destruct ((0 <? len key) && (0 <? len value)); exact Hlogs.
Qed.

Lemma putFailures_app (l1 l2 : list LogMsg) :
  putFailures (l1 ++ l2) = putFailures l1 ++ putFailures l2.
Proof. apply omap_app. Qed.

Lemma putFailures_parse (calls : list EachKeyCall) :
  putFailures (omap parseErrorOf calls) = [].
Proof.
  induction calls as [|c calls IH]; [reflexivity |].
  rewrite omap_cons_match. unfold parseErrorOf at 1.
  destruct (cbErr c); [| exact IH]. exact IH.
Qed.

Lemma putEach_snoc_errors (b : B) (batches : list (list KVRecord)) (records : list KVRecord) :
  snd (putEach b (batches ++ [records]))
  = snd (putEach b batches) ++ [snd (Put (fst (putEach b batches)) records)].
Proof.
  revert b. induction batches as [|x batches IH]; intros b; cbn [app putEach fst snd].
  - destruct (Put b records) as [b1 e]. reflexivity.
  - destruct (Put b x) as [b1 e]. specialize (IH b1).
    destruct (putEach b1 (batches ++ [records])) as [b2 errs].
    destruct (putEach b1 batches) as [b3 errs3]. cbn [fst snd] in *.
    now rewrite IH.
Qed.

Lemma callPut_agrees (b : B) (st : LoadState) (records : list KVRecord) :
  agrees b st -> agrees b (callPut st records).
Proof.
  intros [Hb Hl]. unfold agrees, callPut.
  destruct (Put (backend st) records) as [b' e] eqn:E. cbn [backend logs putCalls].
  rewrite putEach_snoc, putEach_snoc_errors, <- Hb, E. cbn [fst snd].
  split; [reflexivity |].
  rewrite omap_app, <- Hl.
  destruct e as [e|]; [rewrite putFailures_app |]; cbn; now rewrite ?app_nil_r.
Qed.

Lemma countRecord_agrees (b : B) (st : LoadState) :
  agrees b st -> agrees b (countRecord st).
Proof.
  intros [Hb Hl]. unfold agrees, countRecord. cbn [backend logs putCalls].
  split; [exact Hb |].
  destruct (Z.rem (totalRecords st + 1) 1000000 =? 0); [| exact Hl].
  rewrite putFailures_app, Hl. cbn. now rewrite app_nil_r.
Qed.

Lemma parseAndSend_agrees (b : B) (batchSize : Z) (st : LoadState) (a : bytes * nat) :
  agrees b st -> agrees b (parseAndSend EachKey batchSize st a).
Proof.
  intros Hst. unfold parseAndSend.
  pose proof (parseLine_logs (fst a)) as Hp.
  destruct (parseLine EachKey (fst a)) as [r plogs]. cbn [snd] in Hp.
  set (st1 := mkLoad (backend st) (buffers st) (totalRecords st) (logs st ++ plogs)
                     (putCalls st)).
  assert (H1 : agrees b st1).
  { destruct Hst as [Hb Hl]. subst st1. split; [exact Hb |]. cbn [logs putCalls].
    rewrite putFailures_app, Hp, putFailures_parse, app_nil_r. exact Hl. }
  destruct r as [r|]; [| exact H1].
  unfold writerReceive. destruct (buffers st1 !! snd a) as [records|]; [| exact H1].
  apply countRecord_agrees.
  destruct (len (records ++ [r]) =? batchSize).
  - pose proof (callPut_agrees b st1 (records ++ [r]) H1) as [Hb Hl].
    split; [exact Hb | exact Hl].
  - destruct H1 as [Hb Hl]. split; [exact Hb | exact Hl].
Qed.

Lemma running_agrees (b : B) (batchSize : Z) (arrivals : list (bytes * nat)) :
  agrees b (running EachKey b batchSize arrivals).
Proof.
  induction arrivals as [|a arrivals IH] using rev_ind.
  - split; reflexivity.
  - rewrite running_snoc. now apply parseAndSend_agrees.
Qed.

Lemma drain_agrees (b : B) (bufs : list (list KVRecord)) :
  forall st : LoadState, agrees b st -> agrees b (fold_left writerDrain bufs st).
Proof.
  induction bufs as [|records bufs IH]; intros st Hst; [exact Hst |].
  cbn [fold_left]. apply IH. unfold writerDrain.
  destruct (0 <? len records); [now apply callPut_agrees | exact Hst].
Qed.

Lemma finished_agrees (b : B) (st : LoadState) :
  agrees b st -> agrees b (finished (drainWriters st)).
Proof.
  intros Hst. destruct (drain_agrees b (buffers st) st Hst) as [Hb Hl].
  split; [exact Hb |]. cbn [finished drainWriters logs putCalls].
  rewrite putFailures_app, Hl. cbn. now rewrite app_nil_r.
Qed.

Lemma callPut_totalRecords (st : LoadState) (records : list KVRecord) :
  totalRecords (callPut st records) = totalRecords st.
Proof. unfold callPut. now destruct (Put (backend st) records). Qed.

Lemma drain_totalRecords (bufs : list (list KVRecord)) :
  forall st : LoadState, totalRecords (fold_left writerDrain bufs st) = totalRecords st.
Proof.
  induction bufs as [|records bufs IH]; intros st; [reflexivity |].
  cbn [fold_left]. rewrite IH. unfold writerDrain.
  destruct (0 <? len records); [apply callPut_totalRecords | reflexivity].
Qed.

Lemma running_totalRecords (b : B) (batchSize : Z) (arrivals : list (bytes * nat)) :
  Forall (fun a => (snd a < writersCount)%nat) arrivals ->
  totalRecords (running EachKey b batchSize arrivals) = len (accepted EachKey arrivals).
Proof.
  induction arrivals as [|a arrivals IH] using rev_ind; intros Hw; [reflexivity |].
  apply Forall_app in Hw as [Hw Ha]. apply Forall_cons in Ha as [Ha _].
  specialize (IH Hw). rewrite running_snoc. unfold accepted. rewrite sent_snoc, map_app.
  pose proof (running_writers EachKey b batchSize arrivals) as Hlen.
  destruct (parseAndSend_cases EachKey batchSize (running EachKey b batchSize arrivals) a)
    as [([Hn | Hn] & _ & _ & Ht & _) | (r & records & Hr & _ & _ & _ & Ht & _)].
  - rewrite Ht, IH, Hn. cbn [map]. now rewrite app_nil_r.
  - apply lookup_ge_None in Hn. lia.
  - rewrite Ht, IH, Hr. cbn [map]. unfold accepted, len. rewrite length_app. cbn. lia.
Qed.

(** X13.  "Loaded N records": the counter that [loadFile] logs at its
    end is the number of records made of the lines of the file, whether
    or not the calls of [Put] that took them succeeded. *)
Theorem Loaded_counts_every_record (b : B) (file : InputFile) (batchSize : Z)
  (arrivals : list (bytes * nat)) :
  openErr file = None -> gzipErr file = None -> 0 <= batchSize ->
  runOf file arrivals ->
  exists st,
    loadFile EachKey b file batchSize arrivals = Returns (st, scanErr file) /\
    totalRecords st = len (extracted EachKey (scanned file)) /\
    last (logs st) = Some (LogLoaded (len (extracted EachKey (scanned file)))).
Proof.
  intros Ho Hg HB Hrun. eexists. split; [now apply loadFile_returns |].
  assert (Ht : totalRecords (finished (drainWriters (running EachKey b batchSize arrivals)))
               = len (extracted EachKey (scanned file))).
  { cbn [finished drainWriters totalRecords]. rewrite drain_totalRecords.
    rewrite running_totalRecords by apply Hrun.
    unfold len. f_equal. apply Permutation_length. now apply runOf_extracted. }
  split; [exact Ht |].
  cbn [finished logs]. rewrite last_snoc. f_equal. f_equal.
  cbn [finished drainWriters totalRecords] in Ht. exact Ht.
Qed.

(** X14.  Every call of [Put] that fails leaves one "Failed to put
    records" line with its error, and the log has no other such line:
    the errors of these lines are the errors the calls returned, each as
    often as it was returned (the order of the lines of different
    writers is not fixed).  The load itself goes on and returns what the
    scanner returns. *)
Theorem failed_Puts_are_logged (b : B) (file : InputFile) (batchSize : Z)
  (arrivals : list (bytes * nat)) :
  openErr file = None -> gzipErr file = None -> 0 <= batchSize ->
  exists st,
    loadFile EachKey b file batchSize arrivals = Returns (st, scanErr file) /\
    putFailures (logs st) ≡ₚ omap id (snd (putEach b (putCalls st))).
Proof.
  intros Ho Hg HB. eexists. split; [now apply loadFile_returns |].
  destruct (finished_agrees b _ (running_agrees b batchSize arrivals)) as [_ ->].
  reflexivity.
Qed.

Lemma received_snoc (arrivals : list (bytes * nat)) (a : bytes * nat) (w : nat) :
  received EachKey (arrivals ++ [a]) w
  = received EachKey arrivals w ++
    match fst (parseLine EachKey (fst a)) with
    | Some r => if Nat.eqb (snd a) w then [r] else []
    | None => []
    end.
Proof.
  unfold received. rewrite sent_snoc, omap_app. f_equal.
  destruct (fst (parseLine EachKey (fst a))) as [r|]; [| reflexivity].
  rewrite omap_cons_match. cbn [fst snd]. now destruct (Nat.eqb (snd a) w).
Qed.

(** With batch size 0 the buffer of a writer holds all it has received. *)
Lemma running_zero_buffers (b : B) (arrivals : list (bytes * nat)) :
  Forall (fun a => (snd a < writersCount)%nat) arrivals ->
  putCalls (running EachKey b 0 arrivals) = [] /\
  buffers (running EachKey b 0 arrivals)
  = map (received EachKey arrivals) (seq 0 writersCount).
Proof.
  induction arrivals as [|a arrivals IH] using rev_ind; intros Hw; [now split |].
  apply Forall_app in Hw as [Hw Ha]. apply Forall_cons in Ha as [Ha _].
  destruct (IH Hw) as [IHp IHb]. rewrite running_snoc.
  pose proof (running_writers EachKey b 0 arrivals) as Hlen.
  destruct (parseAndSend_cases EachKey 0 (running EachKey b 0 arrivals) a)
    as [([Hn | Hn] & Hp & Hb & _) | (r & records & Hr & Hrec & Hp & Hb & _)].
  - rewrite Hp, Hb, IHp, IHb. split; [reflexivity |].
    apply map_ext. intros w. rewrite received_snoc, Hn. now rewrite app_nil_r.
  - apply lookup_ge_None in Hn. lia.
  - assert (Hfull : (len (records ++ [r]) =? 0) = false).
    { apply Z.eqb_neq. unfold len. rewrite length_app. cbn. lia. }
    rewrite Hfull in Hp, Hb. rewrite Hp, Hb, IHp. split; [reflexivity |].
    rewrite IHb in Hrec |- *. unfold writersCount in *.
    cbn [seq map] in Hrec |- *. rewrite !received_snoc, Hr.
    destruct (snd a) as [|[|[|[|w]]]]; [| | | | lia];
      cbn in Hrec; injection Hrec as <-; cbn; now rewrite !app_nil_r.
Qed.

(** X15.  With batch size 0 no batch is ever full: nothing is written
    while the file is read, and when the input has ended each writer
    that has received a record hands all the records it has received,
    in the order in which it received them, to [Put] in one call.  So
    there are at most [writersCount] calls, they hold every extracted
    record once, and the backend at the end is the one they leave. *)
Theorem zero_batch_size_writes_at_the_end (b : B) (file : InputFile)
  (arrivals : list (bytes * nat)) :
  openErr file = None -> gzipErr file = None -> runOf file arrivals ->
  (forall n, putCalls (running EachKey b 0 (take n arrivals)) = []) /\
  exists st,
    loadFile EachKey b file 0 arrivals = Returns (st, scanErr file) /\
    putCalls st
    = filter (fun records => 0 < len records)
             (map (received EachKey arrivals) (seq 0 writersCount)) /\
    backend st = fst (putEach b (putCalls st)) /\
    concat (putCalls st) ≡ₚ extracted EachKey (scanned file) /\
    len (putCalls st) <= Z.of_nat writersCount.
Proof.
  intros Ho Hg Hrun. destruct Hrun as [Hperm Hw].
  split.
  { intros n. apply running_zero_buffers.
    rewrite <- (take_drop n arrivals) in Hw. now apply Forall_app in Hw as [Hw _]. }
  destruct (running_zero_buffers b arrivals Hw) as [Hp Hb].
  eexists. split; [apply loadFile_returns; [exact Ho | exact Hg | lia] |].
  assert (Hcalls : putCalls (finished (drainWriters (running EachKey b 0 arrivals)))
                   = filter (fun records => 0 < len records)
                            (map (received EachKey arrivals) (seq 0 writersCount))).
  { destruct (finished_putCalls (running EachKey b 0 arrivals)) as [-> _].
    now rewrite Hp, Hb. }
  split; [exact Hcalls |]. split; [apply finished_backend |]. split.
  - destruct (finished_putCalls (running EachKey b 0 arrivals)) as [-> _].
    rewrite concat_app, concat_filter_pos.
    rewrite <- (runOf_extracted EachKey file arrivals (conj Hperm Hw)).
    now apply running_holds_all.
  - rewrite Hcalls.
    pose proof (length_filter (fun records : list KVRecord => 0 < len records)
                  (map (received EachKey arrivals) (seq 0 writersCount))) as Hf.
    rewrite length_map, length_seq in Hf. unfold len in *. lia.
Qed.

(** X16.  The only log lines a line of the file can cause in a parser
    are the errors that [jsonparser.EachKey] reports to the callback: a
    line that is dropped because its name or value is missing or empty
    leaves no trace. *)
Theorem dropped_lines_are_not_logged (data : bytes) :
  snd (parseLine EachKey data) = omap parseErrorOf (EachKey data) /\
  (Forall (fun c => cbErr c = None) (EachKey data) ->
   snd (parseLine EachKey data) = []).
Proof.
  split; [apply parseLine_logs |].
  intros Hc. rewrite parseLine_logs.
  induction Hc as [|c calls Hc _ IH]; [reflexivity |].
  rewrite omap_cons_match. unfold parseErrorOf at 1. now rewrite Hc.
Qed.

End LoaderLog.

Lemma Loaded_counts_every_record_witness :
  exists st,
    loadFile sampleEachKey (NewBBoltBackend [Some "disk full"%string]) sampleFile 2
             sampleArrivals = Returns (st, scanErr sampleFile) /\
    totalRecords st = len (extracted sampleEachKey (scanned sampleFile)) /\
    last (logs st) = Some (LogLoaded (len (extracted sampleEachKey (scanned sampleFile)))).
Proof.
  apply (Loaded_counts_every_record sampleEachKey (NewBBoltBackend [Some "disk full"%string])
           sampleFile 2 sampleArrivals).
  - reflexivity.
  - reflexivity.
  - lia.
  - exact sampleArrivals_runOf.
Defined.

Lemma failed_Puts_are_logged_witness :
  exists st,
    loadFile sampleEachKey (NewBBoltBackend [None; Some "disk full"%string]) sampleFile 1
             sampleArrivals = Returns (st, scanErr sampleFile) /\
    putFailures (logs st)
    ≡ₚ omap id (snd (putEach (NewBBoltBackend [None; Some "disk full"%string])
                             (putCalls st))).
Proof.
  apply (failed_Puts_are_logged sampleEachKey
           (NewBBoltBackend [None; Some "disk full"%string]) sampleFile 1 sampleArrivals).
  - reflexivity.
  - reflexivity.
  - lia.
Defined.

Lemma zero_batch_size_writes_at_the_end_witness :
  (forall n, putCalls (running sampleEachKey NewDummyBackend 0 (take n sampleArrivals)) = []) /\
  exists st,
    loadFile sampleEachKey NewDummyBackend sampleFile 0 sampleArrivals
    = Returns (st, scanErr sampleFile) /\
    putCalls st
    = filter (fun records => 0 < len records)
             (map (received sampleEachKey sampleArrivals) (seq 0 writersCount)) /\
    backend st = fst (putEach NewDummyBackend (putCalls st)) /\
    concat (putCalls st) ≡ₚ extracted sampleEachKey (scanned sampleFile) /\
    len (putCalls st) <= Z.of_nat writersCount.
Proof.
  exact (zero_batch_size_writes_at_the_end sampleEachKey NewDummyBackend sampleFile
           sampleArrivals eq_refl eq_refl sampleArrivals_runOf).
Defined.

(** ** The query flag and the two ways of searching *)

Lemma splitComma_app (a b : gostring) :
  forall cur, splitComma (a ++ Byte.x2c :: b) cur = splitComma a cur ++ splitComma b [].
Proof.
  induction a as [|c a IH]; intros cur; [reflexivity |].
  cbn [app splitComma]. destruct (Byte.eqb c Byte.x2c).
  - cbn [app]. now rewrite IH.
  - apply IH.
Qed.

Lemma splitComma_plain (s : gostring) :
  ~ In Byte.x2c s -> forall cur, splitComma s cur = [cur ++ s].
Proof.
  induction s as [|c s IH]; intros Hs cur; cbn [splitComma].
  - now rewrite app_nil_r.
  - destruct (Byte.eqb c Byte.x2c) eqn:E.
    + apply Byte.byte_dec_bl in E. subst c. exfalso. apply Hs. now left.
    + rewrite IH by (intros Hin; apply Hs; now right).
      now rewrite <- app_assoc.
Qed.

Lemma splitComma_pieces (s : gostring) :
  forall cur, ~ In Byte.x2c cur ->
    Forall (fun t => ~ In Byte.x2c t) (splitComma s cur).
Proof.
  induction s as [|c s IH]; intros cur Hcur; cbn [splitComma].
  - now constructor.
  - destruct (Byte.eqb c Byte.x2c) eqn:E.
    + constructor; [exact Hcur |]. apply IH. intros [].
    + apply IH. intros [Hin | [-> | []]]%in_app_or; [now apply Hcur |].
      discriminate E.
Qed.

Lemma queryTermsOf_plain (q : gostring) :
  q <> [] -> ~ In Byte.x2c q -> queryTermsOf q = [q].
Proof.
  intros Hq Hc. unfold queryTermsOf. rewrite splitComma_plain by exact Hc.
  cbn [app]. rewrite filter_cons_True; [reflexivity |].
  apply len_pos. exact Hq.
Qed.

(** X17.  The query terms are the non-empty pieces between the commas of
    the flag, in order: no flag gives no term, a non-empty flag without
    a comma is its own single term, a comma joins the terms of what
    stands on either side of it, and no term is empty or holds a comma. *)
Theorem queryTermsOf_laws :
  queryTermsOf [] = [] /\
  (forall q, q <> [] -> ~ In Byte.x2c q -> queryTermsOf q = [q]) /\
  (forall a b, queryTermsOf (a ++ Byte.x2c :: b) = queryTermsOf a ++ queryTermsOf b) /\
  (forall q, Forall (fun t => t <> [] /\ ~ In Byte.x2c t) (queryTermsOf q)).
Proof.
  split; [reflexivity |]. split; [| split].
  - apply queryTermsOf_plain.
  - intros a b. unfold queryTermsOf. now rewrite splitComma_app, filter_app.
  - intros q. unfold queryTermsOf. apply Forall_forall. intros t Ht.
    apply list_elem_of_filter in Ht as [Hpos Hin].
    split; [now apply len_pos |].
    pose proof (splitComma_pieces q [] (fun H => H)) as Hp.
    rewrite Forall_forall in Hp. apply Hp. exact Hin.
Qed.

Section QueryRuns.
Context {B : Type} `{Backend B}.

(** X18.  With a concurrency of zero or less no worker is started: when
    there is a term to search, [main] stays at its first send on
    [queryCh], so nothing is searched and nothing is printed; when
    there is none, the process ends with status 0 as with any other
    concurrency. *)
Theorem nonpositive_concurrency_searches_nothing (b : B) (queryFlag : gostring)
  (queryConcurrency : Z) (jsonFmt : bool) (sched : QuerySchedule) :
  queryConcurrency <= 0 ->
  (queryTermsOf queryFlag <> [] ->
   runQueries b queryFlag queryConcurrency jsonFmt sched = mkRun Blocks [] []) /\
  (queryTermsOf queryFlag = [] ->
   runQueries b queryFlag queryConcurrency jsonFmt sched = mkRun (Returns 0) [] []).
Proof.
  intros Hc. unfold runQueries. split.
  - intros Hne. apply len_pos in Hne.
    destruct (Z.ltb_spec 0 (len (queryTermsOf queryFlag))); [| lia].
    unfold concurrencyOf, searchTerms.
    destruct (Z.ltb_spec (len (queryTermsOf queryFlag)) queryConcurrency); [lia |].
    destruct (Z.eqb_spec queryConcurrency 1); [lia |].
    destruct (Z.leb_spec queryConcurrency 0); [reflexivity | lia].
  - intros ->. reflexivity.
Qed.

(** What [Search] returns on a term, as a result of the print loop. *)
Lemma answers_unique (b : B) (q : gostring) (r1 r2 : queryResult) :
  answers b q r1 -> answers b q r2 -> r1 = r2.
Proof.
  intros [H1 Q1] [H2 Q2]. destruct r1, r2. cbn in *. congruence.
Qed.

Lemma answers_map (b : B) (f : gostring -> queryResult) (ts : list gostring) :
  (forall q, In q ts -> answers b q (f q)) ->
  forall rs, Forall2 (answers b) ts rs -> rs = map f ts.
Proof.
  intros Hf rs Hrs. induction Hrs as [| t r ts rs Ha _ IH]; [reflexivity |].
  cbn [map]. f_equal.
  - eapply answers_unique; [exact Ha | apply Hf; now left].
  - apply IH. intros q Hq. apply Hf. now right.
Qed.

(** X20.  The pool changes the order of the output and nothing else:
    when every search returns, a run with several workers in which each
    term is searched once and [main] reads the results after the last
    of them has been collected prints the lines of the run with one
    worker, and logs its lines, in some order. *)
Theorem pool_prints_the_same_lines (b : B) (queryFlag : gostring)
  (queryConcurrency : Z) (jsonFmt : bool) (sched sched1 : QuerySchedule) :
  0 < queryConcurrency ->
  (forall q, In q (queryTermsOf queryFlag) ->
             exists rs e, Search b (reverse q) = Returns (rs, e)) ->
  poolOrder (queryTermsOf queryFlag) sched ->
  lastSeen sched = true ->
  status (runQueries b queryFlag queryConcurrency jsonFmt sched) = Returns 0 /\
  stdout (runQueries b queryFlag queryConcurrency jsonFmt sched)
    ≡ₚ stdout (runQueries b queryFlag 1 jsonFmt sched1) /\
  stderr (runQueries b queryFlag queryConcurrency jsonFmt sched)
    ≡ₚ stderr (runQueries b queryFlag 1 jsonFmt sched1).
Proof.
  intros Hc Hs Hpool Hlast. set (terms := queryTermsOf queryFlag) in *.
  destruct (Z.le_gt_cases (len terms) 0) as [Hl | Hl].
  { assert (Ht : terms = [])
      by (destruct terms; [reflexivity | unfold len in Hl; cbn in Hl; lia]).
    unfold runQueries. fold terms. rewrite Ht. cbn. repeat split; reflexivity. }
  destruct (answers_exist b terms Hs) as [results Hres].
  assert (H1 : runQueries b queryFlag 1 jsonFmt sched1
               = mkRun (Returns 0) (flat_map (resultLines jsonFmt) results)
                       (flat_map failureLog results)).
  { apply runQueries_prints; fold terms; [lia |].
    assert (E : concurrencyOf 1 terms = 1).
    { unfold concurrencyOf. destruct (Z.ltb_spec (len terms) 1); lia. }
    rewrite E. unfold searchTerms. cbn.
    now rewrite (searchEach_answers b _ _ Hres []). }
  rewrite H1. cbn [status stdout stderr].
  destruct (Z.eqb_spec (concurrencyOf queryConcurrency terms) 1) as [E1 | Hne].
  { assert (H2 : runQueries b queryFlag queryConcurrency jsonFmt sched
                 = mkRun (Returns 0) (flat_map (resultLines jsonFmt) results)
                         (flat_map failureLog results)).
    { apply runQueries_prints; fold terms; [lia |].
      rewrite E1. unfold searchTerms. cbn.
      now rewrite (searchEach_answers b _ _ Hres []). }
    rewrite H2. cbn. repeat split; reflexivity. }
  set (picked := omap (fun i => terms !! i) (order sched)).
  assert (Hperm : picked ≡ₚ terms) by now apply poolOrder_terms.
  assert (Hs' : forall q, In q picked ->
                  exists rs e, Search b (reverse q) = Returns (rs, e)).
  { intros q Hq. apply Hs. eapply Permutation_in; [exact Hperm | exact Hq]. }
  destruct (answers_exist b picked Hs') as [collected Hcol].
  assert (H2 : runQueries b queryFlag queryConcurrency jsonFmt sched
               = mkRun (Returns 0) (flat_map (resultLines jsonFmt) collected)
                       (flat_map failureLog collected)).
  { apply runQueries_prints; fold terms; [lia |].
    unfold searchTerms.
    destruct (Z.eqb_spec (concurrencyOf queryConcurrency terms) 1); [contradiction |].
    destruct (Z.leb_spec (concurrencyOf queryConcurrency terms) 0) as [Hle |].
    { unfold concurrencyOf in Hle.
      destruct (Z.ltb_spec (len terms) queryConcurrency); lia. }
    fold picked. rewrite (searchEach_answers b _ _ Hcol []), Hlast. reflexivity. }
  rewrite H2. cbn [status stdout stderr].
  assert (Hboth : collected ≡ₚ results).
  { set (f := fun q => match Search b (reverse q) with
                       | Returns (rs, e) => mkResult q rs e
                       | _ => mkResult q [] None
                       end).
    assert (Hf : forall q, In q terms -> answers b q (f q)).
    { intros q Hq. destruct (Hs q Hq) as (rs & e & E). subst f. cbn beta.
      rewrite E. now split. }
    rewrite (answers_map b f terms Hf results Hres).
    rewrite (answers_map b f picked
               (fun q Hq => Hf q (Permutation_in q Hperm Hq)) collected Hcol).
    now apply Permutation_map. }
  split; [reflexivity |].
  split; now apply Permutation_flat_map.
Qed.

End QueryRuns.

Lemma nonpositive_concurrency_searches_nothing_witness :
  0 <= 0 /\
  runQueries flaky (lit "a,b") 0 false (mkSchedule [] true) = mkRun Blocks [] [].
Proof.
  split; [lia |].
  apply (proj1 (nonpositive_concurrency_searches_nothing flaky (lit "a,b") 0 false
                  (mkSchedule [] true) (Z.le_refl 0))).
  intros E. vm_compute in E. discriminate E.
Defined.

Lemma pool_prints_the_same_lines_witness :
  status (runQueries flaky (lit "a,b,c") 10 false (mkSchedule [2; 0; 1]%nat true))
  = Returns 0 /\
  stdout (runQueries flaky (lit "a,b,c") 10 false (mkSchedule [2; 0; 1]%nat true))
    ≡ₚ stdout (runQueries flaky (lit "a,b,c") 1 false (mkSchedule [] true)) /\
  stderr (runQueries flaky (lit "a,b,c") 10 false (mkSchedule [2; 0; 1]%nat true))
    ≡ₚ stderr (runQueries flaky (lit "a,b,c") 1 false (mkSchedule [] true)).
Proof.
  apply (pool_prints_the_same_lines flaky (lit "a,b,c") 10 false
           (mkSchedule [2; 0; 1]%nat true) (mkSchedule [] true)).
  - lia.
  - intros q _. apply FlakyBackend_Search_returns.
  - unfold poolOrder. cbn [order].
    change ([2; 0; 1]%nat ≡ₚ [0; 1; 2]%nat).
    apply (Permutation_cons_app [0; 1]%nat [] 2%nat). reflexivity.
  - reflexivity.
Defined.

(** X19.  In the plain output format a name that is well-formed UTF-8
    is printed as it stood in the input: the record a parser makes of a
    line is printed as the name of the line, then the value of the line
    without the white space around it. *)
Theorem stored_name_is_displayed (EachKey : bytes -> list EachKeyCall)
  (data key value : bytes) (plogs : list LogMsg) (r : KVRecord) (q : gostring) :
  fields EachKey data = (key, value, plogs) ->
  parseLine EachKey data = (Some r, plogs) ->
  Utf8.valid key = true ->
  printRecord false q r = Plain key (TrimSpace value).
Proof.
  intros Hf Hp Hv. destruct (parseLine_Some EachKey _ _ _ Hp) as (k & v & Hf' & _ & _ & ->).
  assert (E : (k, v, plogs) = (key, value, plogs)) by (rewrite <- Hf'; exact Hf).
  injection E as -> ->.
  unfold printRecord. cbn [Key Value negb copyBytes].
  now rewrite reverse_reverse_valid by exact Hv.
Qed.

Lemma stored_name_is_displayed_witness :
  fields sampleEachKey (lit "sub.example.com  1.2.3.4 ")
  = (lit "sub.example.com", lit " 1.2.3.4 ", []) /\
  parseLine sampleEachKey (lit "sub.example.com  1.2.3.4 ")
  = (Some (mkRecord (reverse (lit "sub.example.com")) (lit " 1.2.3.4 ")), []) /\
  printRecord false (lit "example.com")
    (mkRecord (reverse (lit "sub.example.com")) (lit " 1.2.3.4 "))
  = Plain (lit "sub.example.com") (TrimSpace (lit " 1.2.3.4 ")).
Proof.
  split; [reflexivity |]. split; [reflexivity |].
  exact (stored_name_is_displayed sampleEachKey (lit "sub.example.com  1.2.3.4 ")
           (lit "sub.example.com") (lit " 1.2.3.4 ") []
           (mkRecord (reverse (lit "sub.example.com")) (lit " 1.2.3.4 "))
           (lit "example.com") eq_refl eq_refl eq_refl).
Defined.

(** ** A scanner error, and the one-loop loader *)

(** X21.  An error of the scanner, such as a line that is too long, is
    fatal, but only after the load has done its work: the records of
    the lines read before it have all been handed to [Put], then
    [main] logs the error and exits with status 1 without running a
    query. *)
Theorem scanner_error_is_fatal_after_writing (EachKey : bytes -> list EachKeyCall)
  {B} `{Backend B} (b : B) (flags : Flags) (file : InputFile)
  (arrivals : list (bytes * nat)) (sched : QuerySchedule) (e : error) :
  0 < len (inputFilename flags) ->
  openErr file = None -> gzipErr file = None -> 0 <= batchSize flags ->
  scanErr file = Some e ->
  runOf file arrivals ->
  exists st,
    loadFile EachKey b file (batchSize flags) arrivals = Returns (st, Some e) /\
    concat (putCalls st) ≡ₚ extracted EachKey (scanned file) /\
    mainFrom EachKey b flags file arrivals sched
    = mkRun (Returns 1) [] (logs st ++ [LogFatal e]).
Proof.
  intros Hi Ho Hg HB He Hrun.
  pose proof (loadFile_returns EachKey b file (batchSize flags) arrivals Ho Hg HB) as Hl.
  rewrite He in Hl. eexists. split; [exact Hl |]. split.
  - destruct (finished_putCalls (running EachKey b (batchSize flags) arrivals)) as [-> _].
    rewrite concat_app, concat_filter_pos.
    rewrite (running_holds_all EachKey b (batchSize flags) arrivals) by apply Hrun.
    now apply runOf_extracted.
  - unfold mainFrom. destruct (Z.ltb_spec 0 (len (inputFilename flags))); [| lia].
    now rewrite Hl.
Qed.

Lemma brokenFile_runOf :
  runOf brokenFile [(lit "b.com 2", 1%nat); (lit "a.com 1", 0%nat)].
Proof.
  split; [apply perm_swap | repeat constructor].
Qed.

Lemma scanner_error_is_fatal_after_writing_witness :
  exists st,
    loadFile sampleEachKey (NewBBoltBackend [])
             brokenFile 5000 [(lit "b.com 2", 1%nat); (lit "a.com 1", 0%nat)]
    = Returns (st, Some "bufio.Scanner: token too long"%string) /\
    concat (putCalls st) ≡ₚ extracted sampleEachKey (scanned brokenFile) /\
    mainFrom sampleEachKey (NewBBoltBackend [])
             (mkFlags (lit "in.json.gz") (lit "a.com") 10 5000 false) brokenFile
             [(lit "b.com 2", 1%nat); (lit "a.com 1", 0%nat)] (mkSchedule [0%nat] true)
    = mkRun (Returns 1) [] (logs st ++ [LogFatal "bufio.Scanner: token too long"%string]).
Proof.
  apply (scanner_error_is_fatal_after_writing sampleEachKey (NewBBoltBackend [])
           (mkFlags (lit "in.json.gz") (lit "a.com") 10 5000 false) brokenFile
           [(lit "b.com 2", 1%nat); (lit "a.com 1", 0%nat)] (mkSchedule [0%nat] true)
           "bufio.Scanner: token too long"%string).
  - reflexivity.
  - reflexivity.
  - reflexivity.
  - cbn. lia.
  - reflexivity.
  - exact brokenFile_runOf.
Defined.

Section SequentialStops.
Variable EachKey : bytes -> list EachKeyCall.
Context {B : Type} `{Backend B}.

Lemma Sequential_onKey_errs (calls : list EachKeyCall) :
  forall key value errs,
    snd (fold_left Sequential.onKey calls (key, value, errs)) = errs ++ omap cbErr calls.
Proof.
  induction calls as [|c calls IH]; intros key value errs; cbn [fold_left].
  - cbn. now rewrite app_nil_r.
  - unfold Sequential.onKey at 2. rewrite omap_cons_match.
    destruct (cbErr c) as [e|].
    + rewrite IH, <- app_assoc. reflexivity.
    + destruct (idx c =? 0); [apply IH |]. destruct (idx c =? 1); apply IH.
Qed.

Lemma Sequential_scanLoop_app (batchSize : Z) (l1 l2 : list bytes) :
  forall st : Sequential.LoadState,
    Sequential.scanLoop EachKey batchSize (l1 ++ l2) st
    = match Sequential.scanLoop EachKey batchSize l1 st with
      | inl st' => Sequential.scanLoop EachKey batchSize l2 st'
      | inr stop => inr stop
      end.
Proof.
  induction l1 as [|data l1 IH]; intros st; [reflexivity |].
  cbn [app Sequential.scanLoop].
  destruct (Sequential.scanStep EachKey batchSize st data); [apply IH | reflexivity].
Qed.

Lemma Sequential_scanStep_error (batchSize : Z) (st : Sequential.LoadState) (data : bytes) :
  Exists (fun c => cbErr c <> None) (EachKey data) ->
  Sequential.scanStep EachKey batchSize st data
  = inr (st, Sequential.multipleErrors (omap cbErr (EachKey data))).
Proof.
  intros Hex. unfold Sequential.scanStep.
  pose proof (Sequential_onKey_errs (EachKey data) [] [] []) as He. cbn [app] in He.
  destruct (fold_left Sequential.onKey (EachKey data) ([], [], []))
    as [[key value] errs] eqn:E.
  assert (Herrs : errs = omap cbErr (EachKey data)).
  { change errs with (snd (key, value, errs)). rewrite <- E. exact He. }
  rewrite Herrs.
  destruct (omap cbErr (EachKey data)) as [|e0 errs0] eqn:Eo; [| reflexivity].
  exfalso. clear - Hex Eo. induction Hex as [c calls Hc | c calls _ IH].
  - rewrite omap_cons_match in Eo. destruct (cbErr c); [discriminate | congruence].
  - rewrite omap_cons_match in Eo. destruct (cbErr c); [discriminate | now apply IH].
Qed.

(** X23.  The one-loop loader stops at the first line on which the
    parser reports an error: it returns the errors of that line, no
    later line is read, and the records read since the last full batch
    are never written. *)
Theorem Sequential_parse_error_stops_load (b : B) (file : InputFile) (batchSize : Z)
  (pre post : list bytes) (bad : bytes) :
  openErr file = None -> gzipErr file = None -> 0 < batchSize ->
  (forall b records, snd (Put b records) = None) ->
  scanned file = pre ++ bad :: post ->
  Forall (fun data => Forall (fun c => cbErr c = None) (EachKey data)) pre ->
  Exists (fun c => cbErr c <> None) (EachKey bad) ->
  exists st,
    Sequential.loadFile EachKey b file batchSize
    = Returns (st, Some (Sequential.multipleErrors (omap cbErr (EachKey bad)))) /\
    len (Sequential.putCalls st) = len pre / batchSize /\
    len (concat (Sequential.putCalls st)) = batchSize * (len pre / batchSize) /\
    len (Sequential.records st) = len pre mod batchSize.
Proof.
  intros Ho Hg HB Hput Hlines Hclean Hbad. unfold Sequential.loadFile.
  rewrite Ho, Hg, Hlines. destruct (Z.ltb_spec batchSize 0); [lia |].
  rewrite Sequential_scanLoop_app.
  destruct (Sequential_scanLoop_batches EachKey batchSize pre HB Hput Hclean
              (Sequential.mkLoad b [] 0 [LogStart] []))
    as (st & -> & Hfull & Hroom & Hsum);
    [apply Forall_nil_2 | unfold len; cbn [Sequential.records length]; lia |].
  cbn [Sequential.scanLoop]. rewrite (Sequential_scanStep_error batchSize st bad Hbad).
  exists st. split; [reflexivity |].
  cbn [Sequential.putCalls Sequential.records] in Hsum.
  pose proof (len_concat_full batchSize _ Hfull) as Hcat.
  assert (Hr0 : 0 <= len (Sequential.records st)) by (unfold len; lia).
  assert (Hs : len pre = len (Sequential.putCalls st) * batchSize
                         + len (Sequential.records st))
    by (unfold len in *; cbn in Hsum; lia).
  assert (Hq : len pre / batchSize = len (Sequential.putCalls st)).
  { symmetry. apply (Z.div_unique _ _ _ (len (Sequential.records st))); lia. }
  assert (Hm : len pre mod batchSize = len (Sequential.records st)).
  { symmetry. apply (Z.mod_unique _ _ (len (Sequential.putCalls st))); lia. }
  rewrite Hq, Hm, Hcat. repeat split; lia.
Qed.

(** Up to the first full batch the loop calls [Put] once, and stops
    there when the call fails. *)
Lemma Sequential_scanLoop_first_Put (b : B) (batchSize : Z) (e : error)
  (lines : list bytes) :
  (forall records, snd (Put b records) = Some e) ->
  Forall (fun data => Forall (fun c => cbErr c = None) (EachKey data)) lines ->
  forall st : Sequential.LoadState,
    Sequential.backend st = b ->
    Sequential.putCalls st = [] ->
    len (Sequential.records st) < batchSize ->
    batchSize <= len (Sequential.records st) + len lines ->
    exists st',
      Sequential.scanLoop EachKey batchSize lines st = inr (st', e) /\
      len (Sequential.putCalls st') = 1 /\
      Forall (fun batch => len batch = batchSize) (Sequential.putCalls st').
Proof.
  intros Hput Hclean.
  induction Hclean as [|data lines Hd _ IH]; intros st Hb Hnone Hroom Hmany.
  - unfold len in *. cbn [length] in Hmany. lia.
  - cbn [Sequential.scanLoop]. unfold Sequential.scanStep.
    destruct (Sequential_onKey_clean (EachKey data) Hd [] []) as (k & v & Ekv).
    match goal with
    | |- context [fold_left Sequential.onKey ?c ?a] =>
      replace (fold_left Sequential.onKey c a) with (k, v, @nil error) by (symmetry; exact Ekv)
    end.
    set (r := mkRecord (reverse k) (copyBytes v)).
    destruct (Z.eqb_spec (len (Sequential.records st ++ [r])) batchSize) as [Hf | Hf].
    + pose proof (Hput (Sequential.records st ++ [r])) as Hp. rewrite Hb.
      destruct (Put b (Sequential.records st ++ [r])) as [b' e'].
      cbn in Hp. subst e'. eexists. split; [reflexivity |].
      cbn [Sequential.putCalls]. rewrite Hnone. cbn [app].
      split; [reflexivity | now repeat constructor].
    + apply IH.
      * exact Hb.
      * exact Hnone.
      * cbn [Sequential.records]. unfold len in *. rewrite length_app in *.
        cbn [length] in *. lia.
      * cbn [Sequential.records]. unfold len in *. rewrite length_app in *.
        cbn [length] in *. lia.
Qed.

(** X24.  In the one-loop loader the first call of [Put] that fails
    ends the load: on a backend whose [Put] fails, and with at least
    one batch of lines, [loadFile] returns that error after a single
    call of [Put] with a full batch; the lines behind that batch are
    not read. *)
Theorem Sequential_failed_Put_stops_load (b : B) (file : InputFile) (batchSize : Z)
  (e : error) :
  openErr file = None -> gzipErr file = None -> 0 < batchSize ->
  (forall records, snd (Put b records) = Some e) ->
  Forall (fun data => Forall (fun c => cbErr c = None) (EachKey data)) (scanned file) ->
  batchSize <= len (scanned file) ->
  exists st records,
    Sequential.loadFile EachKey b file batchSize = Returns (st, Some e) /\
    Sequential.putCalls st = [records] /\ len records = batchSize.
Proof.
  intros Ho Hg HB Hput Hclean Hmany. unfold Sequential.loadFile.
  rewrite Ho, Hg. destruct (Z.ltb_spec batchSize 0); [lia |].
  destruct (Sequential_scanLoop_first_Put b batchSize e (scanned file) Hput Hclean
              (Sequential.mkLoad b [] 0 [LogStart] []))
    as (st & -> & Hone & Hfull);
    [reflexivity | reflexivity | unfold len; cbn [Sequential.records length]; lia
     | unfold len in *; cbn [Sequential.records length]; lia |].
  destruct (Sequential.putCalls st) as [|records [|x rest]] eqn:Hcalls;
    [unfold len in Hone; cbn in Hone; lia | | unfold len in Hone; cbn in Hone; lia].
  exists st, records. split; [reflexivity |]. split; [exact Hcalls |].
  now apply Forall_cons in Hfull as [Hr _].
Qed.

End SequentialStops.

Lemma Sequential_parse_error_stops_load_witness :
  exists st,
    Sequential.loadFile strictEachKey NewDummyBackend strictFile 2
    = Returns (st, Some (Sequential.multipleErrors
                           (omap cbErr (strictEachKey (lit "no-value"))))) /\
    len (Sequential.putCalls st) = len [lit "a.com 1"; lit "b.com 2"; lit "c.com 3"] / 2 /\
    len (concat (Sequential.putCalls st))
    = 2 * (len [lit "a.com 1"; lit "b.com 2"; lit "c.com 3"] / 2) /\
    len (Sequential.records st) = len [lit "a.com 1"; lit "b.com 2"; lit "c.com 3"] mod 2.
Proof.
  apply (Sequential_parse_error_stops_load strictEachKey NewDummyBackend strictFile 2
           [lit "a.com 1"; lit "b.com 2"; lit "c.com 3"] [lit "d.com 4"] (lit "no-value")).
  - reflexivity.
  - reflexivity.
  - lia.
  - reflexivity.
  - reflexivity.
  - repeat constructor.
  - right. left. discriminate.
Defined.

Lemma closedBBolt_Put (records : list KVRecord) :
  snd (Put closedBBolt records) = Some bbolt.ErrDatabaseNotOpen.
Proof. reflexivity. Qed.

Lemma Sequential_failed_Put_stops_load_witness :
  exists st records,
    Sequential.loadFile sampleEachKey closedBBolt sampleFile 2
    = Returns (st, Some bbolt.ErrDatabaseNotOpen) /\
    Sequential.putCalls st = [records] /\ len records = 2.
Proof.
  apply (Sequential_failed_Put_stops_load sampleEachKey closedBBolt sampleFile 2
           bbolt.ErrDatabaseNotOpen).
  - reflexivity.
  - reflexivity.
  - lia.
  - exact closedBBolt_Put.
  - repeat constructor.
  - unfold len. cbn. lia.
Defined.

Lemma Sequential_Put_calls_count_witness :
  exists st,
    Sequential.loadFile sampleEachKey NewDummyBackend sampleFile 2
    = Returns (st, scanErr sampleFile) /\
    len (concat (Sequential.putCalls st)) = len (scanned sampleFile) /\
    len (Sequential.putCalls st) = ceilDiv (len (scanned sampleFile)) 2.
Proof.
  apply (Sequential_Put_calls_count sampleEachKey NewDummyBackend sampleFile 2).
  - reflexivity.
  - reflexivity.
  - lia.
  - reflexivity.
  - repeat constructor.
Defined.

(** ** From the query flag to the lines printed *)

(** X25.  Suffix search end to end on the bbolt adapter: for a query of
    one term that is well-formed UTF-8, and at least one worker, the
    process prints, in the order of the stored keys, one line for each
    entry of the bucket whose key starts with the transformed term; an
    entry stored for a well-formed name is among them exactly when the
    name ends with the term. *)
Theorem suffix_query_on_bbolt (commits : list (option error))
  (batches : list (list KVRecord)) (bucket : bbolt.Bucket) (q : gostring)
  (queryConcurrency : Z) (jsonFmt : bool) (sched : QuerySchedule) :
  bbolt.root (db (fst (putEach (NewBBoltBackend commits) batches))) = Some bucket ->
  q <> [] -> ~ In Byte.x2c q -> Utf8.valid q = true -> 0 < queryConcurrency ->
  exists found,
    runQueries (fst (putEach (NewBBoltBackend commits) batches)) q queryConcurrency
               jsonFmt sched
    = mkRun (Returns 0) (map (printRecord jsonFmt q) found) [] /\
    found = map BBolt_recordOf (withPrefix (reverse q) bucket) /\
    forall name value,
      Utf8.valid name = true ->
      (In (mkRecord (reverse name) value) found <->
       In (reverse name, value) bucket /\
       exists x, Utf8.valid x = true /\ name = x ++ q).
Proof.
  intros Hr Hq Hc Hv Hpos.
  set (b := fst (putEach (NewBBoltBackend commits) batches)) in *.
  pose proof (putEach_BBolt_ascending batches _ (NewBBoltBackend_ascending commits)) as Ha.
  pose proof (putEach_BBolt_opened batches (NewBBoltBackend commits)) as Ho.
  fold b in Ha, Ho. specialize (Ha _ Hr).
  pose proof (BBoltBackend_Search_withPrefix b (reverse q) bucket Ho Hr Ha) as Hs.
  exists (map BBolt_recordOf (withPrefix (reverse q) bucket)). split; [| split].
  - pose proof (queryTermsOf_plain q Hq Hc) as Ht.
    rewrite (runQueries_prints b q queryConcurrency jsonFmt sched
               [mkResult q (map BBolt_recordOf (withPrefix (reverse q) bucket)) None]).
    + cbn [flat_map resultLines failureLog err records query app].
      now rewrite app_nil_r.
    + rewrite Ht. reflexivity.
    + rewrite Ht. unfold concurrencyOf, len. cbn [length].
      destruct (Z.ltb_spec (Z.of_nat 1) queryConcurrency).
      * unfold searchTerms. cbn [Z.eqb Z.of_nat Pos.of_succ_nat Pos.eqb searchEach].
        change (@Search BBoltBackend _) with BBoltBackend_Search. now rewrite Hs.
      * assert (queryConcurrency = 1) as -> by lia.
        unfold searchTerms. cbn [Z.eqb Pos.eqb searchEach].
        change (@Search BBoltBackend _) with BBoltBackend_Search. now rewrite Hs.
  - reflexivity.
  - intros name value Hn. rewrite in_map_iff. split.
    + intros ([k v] & [= -> ->] & [Hin Hp]%In_withPrefix). split; [exact Hin |].
      cbn [fst] in Hp. now apply reverse_prefix_suffix.
    + intros (Hin & x & Hx & ->). exists (reverse (x ++ q), value).
      split; [reflexivity |]. apply In_withPrefix. split; [exact Hin |].
      cbn [fst]. rewrite reverse_app_valid by exact Hx. apply hasPrefix_app.
Qed.

Lemma suffix_query_on_bbolt_witness :
  exists found,
    runQueries (fst (putEach (NewBBoltBackend [])
                       [[mkRecord (reverse (lit "sub.example.com")) (lit "1.2.3.4");
                         mkRecord (reverse (lit "sub.example.org")) (lit "5.6.7.8")]]))
               (lit "example.com") 10 false (mkSchedule [] true)
    = mkRun (Returns 0) (map (printRecord false (lit "example.com")) found) [] /\
    found = map BBolt_recordOf
              (withPrefix (reverse (lit "example.com"))
                 [(reverse (lit "sub.example.org"), lit "5.6.7.8");
                  (reverse (lit "sub.example.com"), lit "1.2.3.4")]) /\
    forall name value,
      Utf8.valid name = true ->
      (In (mkRecord (reverse name) value) found <->
       In (reverse name, value)
          [(reverse (lit "sub.example.org"), lit "5.6.7.8");
           (reverse (lit "sub.example.com"), lit "1.2.3.4")] /\
       exists x, Utf8.valid x = true /\ name = x ++ lit "example.com").
Proof.
  apply (suffix_query_on_bbolt []
           [[mkRecord (reverse (lit "sub.example.com")) (lit "1.2.3.4");
             mkRecord (reverse (lit "sub.example.org")) (lit "5.6.7.8")]]
           [(reverse (lit "sub.example.org"), lit "5.6.7.8");
            (reverse (lit "sub.example.com"), lit "1.2.3.4")]
           (lit "example.com") 10 false (mkSchedule [] true)).
  - reflexivity.
  - discriminate.
  - intros Hin. cbn in Hin. intuition discriminate.
  - reflexivity.
  - lia.
Defined.

(** ** The swap loop *)

(** X26.  The swap loop of [reverse] stays inside the slice: it never
    indexes out of range, whatever the length, and leaves the runes in
    reverse order; so [reverse] is the encoding of the reversed runes of
    its argument. *)
Theorem reverse_loop_in_bounds :
  (forall chars : list rune, reverseRunes chars = Some (rev chars)) /\
  (forall s : gostring,
      reverse s = Utf8.slicerunetostring (rev (Utf8.stringtoslicerune s))).
Proof.
  split; [apply reverseRunes_rev | apply reverse_runes].
Qed.

(** ** Where the one-loop loader and the pool differ *)

(** The one-loop [loadFile] makes a record of every line: a line without
    a value gives a record with an empty value, [Put] gets it, and
    [Search] finds it after the load. *)
Lemma one_loop_load_keeps_empty_value :
  exists st,
    Sequential.loadFile sampleEachKey (NewBBoltBackend []) sampleFile 2
    = Returns (st, None) /\
    In (mkRecord (reverse (lit "novalue.example.com")) [])
       (concat (Sequential.putCalls st)) /\
    Search (Sequential.backend st) (reverse (lit "novalue.example.com"))
    = Returns ([mkRecord (reverse (lit "novalue.example.com")) []], None).
Proof.
  eexists. split; [reflexivity |]. split; [| reflexivity].
  cbn. right. left. reflexivity.
Qed.

(** The one-loop [loadFile] returns the error of the first call of [Put]
    that fails: of five lines, the three behind the first batch are
    never read and never handed to [Put]. *)
Lemma one_loop_load_stops_at_failed_Put :
  exists st,
    Sequential.loadFile sampleEachKey (NewBBoltBackend [Some "disk full"%string])
                        sampleFile 2
    = Returns (st, Some "disk full"%string) /\
    Sequential.putCalls st
    = [[mkRecord (reverse (lit "sub.example.com")) (lit "1.2.3.4");
        mkRecord (reverse (lit "novalue.example.com")) []]] /\
    length (scanned sampleFile) = 5%nat.
Proof. eexists. split; [reflexivity |]. split; reflexivity. Qed.

